(** * protomod: the usage graph, liveness propagation and selective rendering

    A shallow embedding of [protomod/modifier.py] (class [ProtoModifier]) and
    of the batch driver in [protomod/main.py].

    - The concrete syntax tree that ANTLR hands to [ProtoModifier] is embedded
      as inductive types, one per grammar rule the walk dispatches on.  Leaves
      whose text is reproduced token by token without touching the modifier
      (identifiers, literals, compact options, reserved and extension ranges)
      carry that text as a [string].
    - [self] is a record threaded through a state-and-exception monad; a
      Python exception is a [Raise] outcome that keeps the state reached so
      far, as an exception caught in [main.py] does.
    - [usage_nodes] is a Python dict: an association list in insertion order.
      A [UsageNode] object is stored only under its own [(package, name)] key
      and never rebound, so a reference to the object is embedded as that key.
    - The walk follows the syntax tree.  The two recursions that do not
      (symbol resolution, propagation) take the depth of the call stack left
      to them as an explicit argument and fail when it is used up. *)

From Stdlib Require Import String Ascii List Bool Arith Lia.
Import ListNotations.
Local Open Scope list_scope.
Local Open Scope string_scope.

(** ** Python strings *)

Module Py.

(** [s.split(".")] *)
Fixpoint split_dot (s : string) : list string :=
  match s with
  | EmptyString => [EmptyString]
  | String c rest =>
      if Ascii.eqb c "."%char then EmptyString :: split_dot rest
      else match split_dot rest with
           | [] => [String c EmptyString]
           | p :: ps => String c p :: ps
           end
  end.

(** ['.'.join(parts)] *)
Definition join_dot (parts : list string) : string := String.concat "." parts.

(** [s[1:-1]] *)
Definition slice_1_m1 (s : string) : string :=
  substring 1 (String.length s - 2) s.

(** [x in xs] for a list of strings *)
Definition str_in (x : string) (xs : list string) : bool :=
  existsb (String.eqb x) xs.

(** [c.islower()] and [c.isupper()] on one character; type names are made of
    ASCII letters, digits, underscores and dots. *)
Definition islower (c : ascii) : bool :=
  let n := nat_of_ascii c in ((97 <=? n) && (n <=? 122))%nat.

Definition isupper (c : ascii) : bool :=
  let n := nat_of_ascii c in ((65 <=? n) && (n <=? 90))%nat.

(** [" " * indent * 2] *)
Fixpoint spaces (n : nat) : string :=
  match n with
  | 0 => ""
  | S m => " " ++ spaces m
  end.

Definition indentation (indent : nat) : string := spaces (indent * 2).

(** [os.path.join(a, b)] for a relative [b] *)
Definition os_path_join (a b : string) : string :=
  match a with
  | EmptyString => b
  | _ => if String.eqb (substring (String.length a - 1) 1 a) "/"
         then a ++ b else a ++ "/" ++ b
  end.

(** [needle in haystack] for strings *)
Fixpoint str_contains (needle haystack : string) : bool :=
  if String.prefix needle haystack then true
  else match haystack with
       | EmptyString => false
       | String _ rest => str_contains needle rest
       end.

End Py.

(** ** The usage graph *)

Inductive UsageNodeKind := Rpc | Message | Enum | Extend.

Definition UsageNodeKind_eqb (a b : UsageNodeKind) : bool :=
  match a, b with
  | Rpc, Rpc | Message, Message | Enum, Enum | Extend, Extend => true
  | _, _ => false
  end.

(** The dict key [(package_name, message_name)]; it stands for the node object
    stored under it. *)
Definition NodeRef : Type := string * string.

Definition NodeRef_eqb (a b : NodeRef) : bool :=
  String.eqb (fst a) (fst b) && String.eqb (snd a) (snd b).

Record UsageNode := mkUsageNode {
  kind : UsageNodeKind;
  package : string;
  name : string;
  children : list NodeRef;
  should_render : bool
}.

Definition set_kind (k : UsageNodeKind) (n : UsageNode) : UsageNode :=
  mkUsageNode k (package n) (name n) (children n) (should_render n).

(** [UsageNode.add_child] *)
Definition add_child (child : NodeRef) (n : UsageNode) : UsageNode :=
  mkUsageNode (kind n) (package n) (name n) (children n ++ [child])%list (should_render n).

Definition set_should_render (b : bool) (n : UsageNode) : UsageNode :=
  mkUsageNode (kind n) (package n) (name n) (children n) b.

Definition UsageNodes : Type := list (NodeRef * UsageNode).

Fixpoint lookup (k : NodeRef) (g : UsageNodes) : option UsageNode :=
  match g with
  | [] => None
  | (k', n) :: rest => if NodeRef_eqb k k' then Some n else lookup k rest
  end.

(** Mutation of the object stored under [k]; the dict itself is untouched. *)
Fixpoint update (k : NodeRef) (f : UsageNode -> UsageNode) (g : UsageNodes) : UsageNodes :=
  match g with
  | [] => []
  | (k', n) :: rest =>
      if NodeRef_eqb k k' then (k', f n) :: rest else (k', n) :: update k f rest
  end.

(** [usage_nodes[k] = n] for a key that is not in the dict yet. *)
Definition insert_new (k : NodeRef) (n : UsageNode) (g : UsageNodes) : UsageNodes :=
  (g ++ [(k, n)])%list.

(** The [should_render] flag of the node stored under [k] (the spec's
    [alive]); no node, no flag. *)
Definition alive (g : UsageNodes) (k : NodeRef) : bool :=
  match lookup k g with
  | Some n => should_render n
  | None => false
  end.

Definition children_of (g : UsageNodes) (k : NodeRef) : list NodeRef :=
  match lookup k g with
  | Some n => children n
  | None => []
  end.

(** ** The modifier object and its monad *)

Record ProtoModifier := mkProtoModifier {
  usage_nodes : UsageNodes;
  include_rpc_with_option_names : option (list string);
  usage_graph_creation_phase : bool;
  rendered_files : list string;
  (** [__init__] does not create the attribute: it exists from the first
      package declaration on. *)
  package_name : option string
}.

(** [ProtoModifier.__init__] *)
Definition init (include_rpc_with_option_names : option (list string)) : ProtoModifier :=
  mkProtoModifier [] include_rpc_with_option_names false [] None.

Definition with_usage_nodes (g : UsageNodes) (s : ProtoModifier) : ProtoModifier :=
  mkProtoModifier g (include_rpc_with_option_names s) (usage_graph_creation_phase s)
                  (rendered_files s) (package_name s).

Definition with_phase (b : bool) (s : ProtoModifier) : ProtoModifier :=
  mkProtoModifier (usage_nodes s) (include_rpc_with_option_names s) b
                  (rendered_files s) (package_name s).

Definition with_rendered_files (l : list string) (s : ProtoModifier) : ProtoModifier :=
  mkProtoModifier (usage_nodes s) (include_rpc_with_option_names s)
                  (usage_graph_creation_phase s) l (package_name s).

Definition with_package_name (p : string) (s : ProtoModifier) : ProtoModifier :=
  mkProtoModifier (usage_nodes s) (include_rpc_with_option_names s)
                  (usage_graph_creation_phase s) (rendered_files s) (Some p).

Inductive exn := AttributeError | KeyError | IndexError | TypeError | RecursionError.

Inductive outcome (A : Type) :=
| Ok (a : A)
| Raise (e : exn).
Arguments Ok {A} a.
Arguments Raise {A} e.

Definition M (A : Type) : Type := ProtoModifier -> outcome A * ProtoModifier.

Definition ret {A} (a : A) : M A := fun s => (Ok a, s).

Definition bind {A B} (m : M A) (f : A -> M B) : M B :=
  fun s => match m s with
           | (Ok a, s') => f a s'
           | (Raise e, s') => (Raise e, s')
           end.

Definition raise {A} (e : exn) : M A := fun s => (Raise e, s).
Definition get : M ProtoModifier := fun s => (Ok s, s).
Definition modify (f : ProtoModifier -> ProtoModifier) : M unit := fun s => (Ok tt, f s).

Notation "'do' x <- m ; k" := (bind m (fun x => k))
  (at level 10, x name, m at level 100, k at level 200).
Notation "'do' ' p <- m ; k" := (bind m (fun x => match x with p => k end))
  (at level 10, p pattern, m at level 100, k at level 200).
Notation "m ;; k" := (bind m (fun _ => k))
  (at level 100, k at level 200, right associativity).

(** [for child in xs: output.write(f(child))] *)
Definition for_write {A} (f : A -> M string) : list A -> M string :=
  fix go (xs : list A) : M string :=
    match xs with
    | [] => ret ""
    | x :: rest => do a <- f x; do b <- go rest; ret (a ++ b)
    end.

(** [self.package_name]: an [AttributeError] while no package declaration has
    been visited. *)
Definition read_package_name : M string :=
  do s <- get;
  match package_name s with
  | Some p => ret p
  | None => raise AttributeError
  end.

Definition modify_nodes (f : UsageNodes -> UsageNodes) : M unit :=
  modify (fun s => with_usage_nodes (f (usage_nodes s)) s).

(** ** Symbol resolution *)

Definition scalar_types : list string :=
  [ "bool"; "string"; "bytes"; "float"; "double";
    "int32"; "int64"; "uint32"; "uint64"; "sint32";
    "sint64"; "fixed32"; "fixed64"; "sfixed32"; "sfixed64" ].

(** [x[0]] of a part: an [IndexError] on the empty string. *)
Definition first_char (x : string) : option ascii :=
  match x with
  | EmptyString => None
  | String c _ => Some c
  end.

(** [list(filter(lambda x: p(x[0]), parts))] *)
Fixpoint filter_by_first (p : ascii -> bool) (parts : list string) : M (list string) :=
  match parts with
  | [] => ret []
  | x :: rest =>
      match first_char x with
      | None => raise IndexError
      | Some c =>
          do r <- filter_by_first p rest;
          ret (if p c then x :: r else r)
      end
  end.

(** The tail of [create_usage_node_from_type_name], from
    [if self.usage_graph_creation_phase:] on. *)
Definition resolve_in_table (package_name message_name : string)
    (usage_parent : option NodeRef) (kind : option UsageNodeKind) : M (option NodeRef) :=
  let key := (package_name, message_name) in
  do s <- get;
  if usage_graph_creation_phase s then
    (match lookup key (usage_nodes s) with
     | Some _ =>
         match kind with
         | Some k => modify_nodes (update key (set_kind k))
         | None => ret tt
         end
     | None =>
         modify_nodes (insert_new key
           (mkUsageNode (match kind with Some k => k | None => Message end)
                        package_name message_name [] false))
     end) ;;
    (match usage_parent with
     | Some parent => modify_nodes (update parent (add_child key))
     | None => ret tt
     end) ;;
    ret (Some key)
  else
    match lookup key (usage_nodes s) with
    | Some _ => ret (Some key)
    | None => raise KeyError
    end.

(** [for message_name in message_name_parts[:-1]: ...], returning the last
    [usage_parent]. *)
Definition for_intermediate (call : string -> option NodeRef -> M (option NodeRef))
    : list string -> option NodeRef -> M (option NodeRef) :=
  fix go (names : list string) (usage_parent : option NodeRef) : M (option NodeRef) :=
    match names with
    | [] => ret usage_parent
    | message_name :: rest =>
        do usage_node <- call message_name usage_parent;
        go rest usage_node
    end.

Fixpoint create_usage_node_from_type_name (depth : nat) (type_name : string)
    (usage_parent : option NodeRef) (kind : option UsageNodeKind) : M (option NodeRef) :=
  match depth with
  | 0 => raise RecursionError
  | S depth' =>
      let parts := Py.split_dot type_name in
      if Py.str_in (last parts "") scalar_types then ret None
      else if Nat.ltb 1 (List.length parts) then
        do package_name_parts <- filter_by_first Py.islower parts;
        do message_name_parts <- filter_by_first Py.isupper parts;
        do package_name <-
          (if Nat.ltb 0 (List.length package_name_parts)
           then ret (Py.join_dot package_name_parts)
           else read_package_name);
        do usage_parent' <-
          for_intermediate
            (fun message_name parent =>
               create_usage_node_from_type_name depth'
                 (package_name ++ "." ++ message_name) parent kind)
            (removelast message_name_parts) usage_parent;
        match message_name_parts with
        | [] => raise IndexError
        | _ => resolve_in_table package_name (last message_name_parts "") usage_parent' kind
        end
      else
        do package_name <- read_package_name;
        resolve_in_table package_name type_name usage_parent kind
  end.

(** Python's default recursion limit, taken as the stack left to a call. *)
Definition recursion_limit : nat := 1000.

Definition resolve (type_name : string) (usage_parent : option NodeRef)
    (kind : option UsageNodeKind) : M (option NodeRef) :=
  create_usage_node_from_type_name recursion_limit type_name usage_parent kind.

(** [self.determine_node_state(usage_node)] *)
Definition determine_node_state (usage_node : option NodeRef) : M bool :=
  match usage_node with
  | None => raise AttributeError
  | Some k => do s <- get; ret (alive (usage_nodes s) k)
  end.

(** [usage_node.should_render = b] *)
Definition assign_should_render (usage_node : option NodeRef) (b : bool) : M unit :=
  match usage_node with
  | None => raise AttributeError
  | Some k => modify_nodes (update k (set_should_render b))
  end.

(** ** The syntax tree *)

Definition nl : string := String (ascii_of_nat 10) EmptyString.

(** A string literal token: the text between double quotes. *)
Definition quoted (s : string) : string :=
  String (ascii_of_nat 34) s ++ String (ascii_of_nat 34) EmptyString.

Inductive OptionValue :=
| ScalarValue (text : string)
| MessageLiteralWithBraces (text : nat -> string).

Record OptionDecl := mkOptionDecl {
  optionName : string;
  optionValue : OptionValue
}.

Record FieldDecl := mkFieldDecl {
  fd_fieldCardinality : option string;
  fd_typeName : string;
  fd_fieldName : string;
  fd_fieldNumber : string;
  fd_compactOptions : option string
}.

Record OneofFieldDecl := mkOneofFieldDecl {
  of_typeName : string;
  of_fieldName : string;
  of_fieldNumber : string;
  of_compactOptions : option string
}.

Record MapFieldDecl := mkMapFieldDecl {
  mf_mapKeyType : string;
  mf_typeName : string;
  mf_fieldName : string;
  mf_fieldNumber : string;
  mf_compactOptions : option string
}.

Inductive EnumElement :=
| EnumOptionDecl (child : OptionDecl)
| EnumValueDecl (text : string)
| EnumReservedDecl (text : string)
| EnumEmptyDecl.

Record EnumDecl := mkEnumDecl {
  enumName : string;
  enumElement : list EnumElement
}.

Inductive MessageElement :=
| FieldDeclContext (child : FieldDecl)
| GroupDeclContext (child : GroupDecl)
| OneofDeclContext (child : OneofDecl)
| OptionDeclContext (child : OptionDecl)
| ExtensionRangeDeclContext (text : string)
| MessageReservedDeclContext (text : string)
| MessageDeclContext (child : MessageDecl)
| EnumDeclContext (child : EnumDecl)
| ExtensionDeclContext (child : ExtensionDecl)
| MapFieldDeclContext (child : MapFieldDecl)
| EmptyDeclContext
with MessageDecl :=
| mkMessageDecl (messageName : string) (messageElement : list MessageElement)
with GroupDecl :=
| mkGroupDecl (fieldCardinality : option string) (fieldName fieldNumber : string)
              (compactOptions : option string) (messageElement : list MessageElement)
with OneofDecl :=
| mkOneofDecl (oneofName : string) (oneofElement : list OneofElement)
with OneofElement :=
| OneofOptionDecl (child : OptionDecl)
| OneofField (child : OneofFieldDecl)
| OneofGroup (child : OneofGroupDecl)
with OneofGroupDecl :=
| mkOneofGroupDecl (fieldName fieldNumber : string) (compactOptions : option string)
                   (messageElement : list MessageElement)
with ExtensionDecl :=
| mkExtensionDecl (extendedMessage : string) (extensionElement : list ExtensionElement)
with ExtensionElement :=
| ExtensionField (child : FieldDecl)
| ExtensionGroup (child : GroupDecl).

Record MessageType := mkMessageType {
  STREAM : bool;
  mt_typeName : string
}.

Inductive MethodElement :=
| MethodOptionDecl (child : OptionDecl)
| MethodEmptyDecl.

Record MethodDecl := mkMethodDecl {
  methodName : string;
  inputType : MessageType;
  outputType : MessageType;
  (** [None]: the declaration ends with a semicolon; [Some l]: with a braced
      body of the elements [l]. *)
  methodElement : option (list MethodElement)
}.

Inductive ServiceElement :=
| ServiceOptionDecl (child : OptionDecl)
| ServiceMethodDecl (child : MethodDecl)
| ServiceEmptyDecl.

Record ServiceDecl := mkServiceDecl {
  serviceName : string;
  serviceElement : list ServiceElement
}.

Record ImportDecl := mkImportDecl {
  WEAK : bool;
  PUBLIC : bool;
  importedFileName : string
}.

Inductive FileElement :=
| ImportDeclContext (child : ImportDecl)
| PackageDeclContext (packageName : string)
| FileOptionDeclContext (child : OptionDecl)
| FileMessageDeclContext (child : MessageDecl)
| FileEnumDeclContext (child : EnumDecl)
| FileExtensionDeclContext (child : ExtensionDecl)
| ServiceDeclContext (child : ServiceDecl)
| FileEmptyDeclContext.

Record File := mkFile {
  BYTE_ORDER_MARK : string;
  syntaxDecl : list string;
  fileElement : list FileElement
}.

(** ** The walk: text generation, graph building and seeding *)

Definition opt_text (o : option string) (f : string -> string) : string :=
  match o with
  | Some t => f t
  | None => ""
  end.

Definition generate_option_value (node : OptionValue) (indent : nat) : string :=
  match node with
  | ScalarValue text => text
  | MessageLiteralWithBraces text => text indent
  end.

(** [not self.include_rpc_with_option_names] *)
Definition no_option_names (names : option (list string)) : bool :=
  match names with
  | None | Some [] => true
  | Some (_ :: _) => false
  end.

(** [x in self.include_rpc_with_option_names], reached only when the list is
    not empty. *)
Definition in_option_names (x : string) (names : option (list string)) : bool :=
  match names with
  | None => false
  | Some l => Py.str_in x l
  end.

Definition generate_option_decl (node : OptionDecl) (indent : nat) : M (string * bool) :=
  do self <- get;
  let option_name := optionName node in
  let should_render_this :=
    no_option_names (include_rpc_with_option_names self)
    || in_option_names (Py.slice_1_m1 option_name) (include_rpc_with_option_names self) in
  ret ("option " ++ option_name ++ " " ++ "= "
       ++ generate_option_value (optionValue node) indent ++ ";" ++ nl,
       should_render_this).

Definition generate_empty_decl : string := ";" ++ nl.

Definition generate_field_decl (node : FieldDecl) (usage_parent : option NodeRef) : M string :=
  let type_name := fd_typeName node in
  resolve type_name usage_parent None ;;
  ret (opt_text (fd_fieldCardinality node) (fun t => t ++ " ")
       ++ type_name ++ " " ++ fd_fieldName node ++ " " ++ "= " ++ fd_fieldNumber node
       ++ opt_text (fd_compactOptions node) (fun t => " " ++ t) ++ ";" ++ nl).

(** No symbol is resolved for the type of a oneof member. *)
Definition generate_oneof_field_decl (node : OneofFieldDecl) : string :=
  of_typeName node ++ " " ++ of_fieldName node ++ " " ++ "= " ++ of_fieldNumber node
  ++ opt_text (of_compactOptions node) (fun t => t) ++ ";" ++ nl.

Definition generate_map_type (node : MapFieldDecl) (usage_parent : option NodeRef) : M string :=
  let type_name := mf_typeName node in
  resolve type_name usage_parent None ;;
  ret ("map" ++ "<" ++ mf_mapKeyType node ++ ", " ++ type_name ++ ">").

Definition generate_map_field_decl (node : MapFieldDecl) (usage_parent : option NodeRef)
    : M string :=
  do map_type <- generate_map_type node usage_parent;
  ret (map_type ++ " " ++ mf_fieldName node ++ " " ++ "= " ++ mf_fieldNumber node
       ++ opt_text (mf_compactOptions node) (fun t => " " ++ t) ++ ";" ++ nl).

(** [output.write(self.generate_option_decl(child))] writes a tuple: a
    [TypeError]. *)
Definition generate_enum_element (node : EnumElement) (indent : nat) : M string :=
  do body <-
    match node with
    | EnumOptionDecl child => generate_option_decl child 0 ;; raise TypeError
    | EnumValueDecl text => ret text
    | EnumReservedDecl text => ret text
    | EnumEmptyDecl => ret generate_empty_decl
    end;
  ret (Py.indentation indent ++ body).

Definition generate_enum_decl (node : EnumDecl) (indent : nat) : M (string * bool) :=
  let name := enumName node in
  do usage_node <- resolve name None (Some Enum);
  do should_render_this <- determine_node_state usage_node;
  do body <- for_write (fun child => generate_enum_element child (indent + 1)) (enumElement node);
  ret (Py.indentation indent ++ "enum " ++ name ++ " " ++ "{" ++ nl
       ++ body ++ Py.indentation indent ++ "}" ++ nl,
       should_render_this).

(** [self.generate_group_decl(child, usage_parent)] lacks an argument: a
    [TypeError] before the group is visited. *)
Definition generate_extension_element (node : ExtensionElement) (indent : nat)
    (usage_parent : option NodeRef) : M string :=
  do body <-
    match node with
    | ExtensionField child => generate_field_decl child usage_parent
    | ExtensionGroup _ => raise TypeError
    end;
  ret (Py.indentation indent ++ body).

Definition generate_extension_decl (node : ExtensionDecl) (indent : nat) : M string :=
  match node with
  | mkExtensionDecl type_name elements =>
      do usage_node <- resolve type_name None (Some Extend);
      do body <-
        for_write (fun child => generate_extension_element child (indent + 1) usage_node)
                  elements;
      ret ("extend " ++ type_name ++ " " ++ "{" ++ nl
           ++ body ++ Py.indentation indent ++ "}" ++ nl)
  end.

Fixpoint generate_message_element (node : MessageElement) (indent : nat)
    (usage_parent : option NodeRef) {struct node} : M string :=
  do body <-
    match node with
    | FieldDeclContext child => generate_field_decl child usage_parent
    | GroupDeclContext child => generate_group_decl child indent usage_parent
    | OneofDeclContext child => generate_oneof_decl child indent usage_parent
    | OptionDeclContext child => do r <- generate_option_decl child 0; ret (fst r)
    | ExtensionRangeDeclContext text => ret text
    | MessageReservedDeclContext text => ret text
    | MessageDeclContext child =>
        do r <- generate_message_decl child indent usage_parent; ret (fst r)
    | EnumDeclContext child => do r <- generate_enum_decl child 0; ret (fst r)
    | ExtensionDeclContext child => generate_extension_decl child indent
    | MapFieldDeclContext child => generate_map_field_decl child usage_parent
    | EmptyDeclContext => ret generate_empty_decl
    end;
  ret (Py.indentation indent ++ body)

with generate_message_decl (node : MessageDecl) (indent : nat)
    (usage_parent : option NodeRef) {struct node} : M (string * bool) :=
  match node with
  | mkMessageDecl message_name elements =>
      do usage_node <- resolve message_name usage_parent None;
      do should_render_this <- determine_node_state usage_node;
      do body <-
        for_write (fun child => generate_message_element child (indent + 1) usage_node)
                  elements;
      resolve message_name usage_parent None ;;
      ret ("message " ++ message_name ++ " " ++ "{" ++ nl
           ++ body ++ Py.indentation indent ++ "}" ++ nl,
           should_render_this)
  end

with generate_group_decl (node : GroupDecl) (indent : nat)
    (usage_parent : option NodeRef) {struct node} : M string :=
  match node with
  | mkGroupDecl cardinality field_name field_number compact_options elements =>
      do body <-
        for_write (fun child => generate_message_element child (indent + 1) usage_parent)
                  elements;
      ret (opt_text cardinality (fun t => t ++ " ")
           ++ "group " ++ field_name ++ " " ++ "= " ++ field_number
           ++ opt_text compact_options (fun t => " " ++ t)
           ++ Py.indentation indent ++ "{" ++ nl
           ++ body ++ Py.indentation indent ++ "}" ++ nl)
  end

with generate_oneof_decl (node : OneofDecl) (indent : nat)
    (usage_parent : option NodeRef) {struct node} : M string :=
  match node with
  | mkOneofDecl oneof_name elements =>
      do body <-
        for_write (fun child => generate_oneof_element child (indent + 1) usage_parent)
                  elements;
      ret ("oneof " ++ oneof_name ++ " " ++ "{" ++ nl
           ++ body ++ Py.indentation indent ++ "}" ++ nl)
  end

with generate_oneof_element (node : OneofElement) (indent : nat)
    (usage_parent : option NodeRef) {struct node} : M string :=
  do body <-
    match node with
    | OneofOptionDecl child => do r <- generate_option_decl child 0; ret (fst r)
    | OneofField child => ret (generate_oneof_field_decl child)
    | OneofGroup child => generate_oneof_group_decl child (indent + 1) usage_parent
    end;
  ret (Py.indentation indent ++ body)

with generate_oneof_group_decl (node : OneofGroupDecl) (indent : nat)
    (usage_parent : option NodeRef) {struct node} : M string :=
  match node with
  | mkOneofGroupDecl field_name field_number compact_options elements =>
      do body <-
        for_write (fun child => generate_message_element child (indent + 1) usage_parent)
                  elements;
      ret ("group " ++ field_name ++ " " ++ "= " ++ field_number
           ++ opt_text compact_options (fun t => t ++ " ")
           ++ Py.indentation indent ++ "{" ++ nl
           ++ body ++ Py.indentation indent ++ "}" ++ nl)
  end.

(** ** Services and seeding *)

Definition generate_message_type (node : MessageType) (usage_parent : option NodeRef)
    : M string :=
  let type_name := mt_typeName node in
  resolve type_name usage_parent None ;;
  ret ("(" ++ (if STREAM node then "stream " else "") ++ type_name ++ ")").

Definition generate_input_type := generate_message_type.
Definition generate_output_type := generate_message_type.

Definition generate_method_element (node : MethodElement) (indent : nat) : M (string * bool) :=
  match node with
  | MethodOptionDecl child =>
      do '(res, should_render) <- generate_option_decl child indent;
      ret (Py.indentation indent ++ res, false || should_render)
  | MethodEmptyDecl => ret (Py.indentation indent ++ generate_empty_decl, false)
  end.

(** [for child in xs: res, should_render = f(child); should_render_this =
    should_render or should_render_this; output.write(res)] *)
Definition for_write_flag {A} (f : A -> M (string * bool)) : list A -> M (string * bool) :=
  fix go (xs : list A) : M (string * bool) :=
    match xs with
    | [] => ret ("", false)
    | x :: rest =>
        do '(res, should_render) <- f x;
        do '(out, should_render_this) <- go rest;
        ret (res ++ out, should_render || should_render_this)
    end.

Definition generate_method_decl (node : MethodDecl) (indent : nat) : M (string * bool) :=
  let method_name := methodName node in
  do usage_node <- resolve method_name None (Some Rpc);
  do input_type <- generate_input_type (inputType node) usage_node;
  do output_type <- generate_output_type (outputType node) usage_node;
  do '(body, should_render_this) <-
    match methodElement node with
    | None => ret (";" ++ nl, false)
    | Some elements =>
        do '(res, should_render_this) <-
          for_write_flag (fun child => generate_method_element child (indent + 1)) elements;
        ret ("{" ++ (match elements with [] => "" | _ => nl end)
             ++ res ++ Py.indentation indent ++ "}" ++ nl,
             should_render_this)
    end;
  assign_should_render usage_node should_render_this ;;
  ret ("rpc " ++ method_name ++ input_type ++ " " ++ "returns " ++ output_type ++ body,
       should_render_this).

Definition generate_service_element (node : ServiceElement) (indent : nat)
    : M (string * bool) :=
  match node with
  | ServiceOptionDecl child =>
      do r <- generate_option_decl child 0;
      ret (Py.indentation indent ++ fst r, false)
  | ServiceMethodDecl child =>
      do '(res, should_render) <- generate_method_decl child indent;
      ret (Py.indentation indent ++ (if should_render then res else ""),
           should_render || false)
  | ServiceEmptyDecl => ret (Py.indentation indent ++ generate_empty_decl, false)
  end.

(** The output of an element is written only when the element is rendered. *)
Definition write_if_rendered (m : M (string * bool)) : M (string * bool) :=
  do '(res, should_render) <- m;
  ret (if should_render then res else "", should_render).

Definition generate_service_decl (node : ServiceDecl) (indent : nat) : M (string * bool) :=
  do '(body, should_render_this) <-
    for_write_flag
      (fun child => write_if_rendered (generate_service_element child (indent + 1)))
      (serviceElement node);
  ret (Py.indentation indent ++ "service " ++ serviceName node ++ " " ++ "{" ++ nl
       ++ body ++ Py.indentation indent ++ "}" ++ nl,
       should_render_this).

(** ** Files *)

Definition generate_package_decl (package_name : string) : M string :=
  modify (with_package_name package_name) ;;
  ret ("package " ++ package_name ++ ";" ++ nl).

Definition generate_import_decl (node : ImportDecl) : M (string * bool) :=
  do self <- get;
  let imported_file_name := importedFileName node in
  let should_render_this :=
    Py.str_in (Py.slice_1_m1 imported_file_name) (rendered_files self) in
  ret ("import " ++ (if WEAK node then "weak " else "")
       ++ (if PUBLIC node then "public " else "")
       ++ imported_file_name ++ ";" ++ nl,
       should_render_this).

Definition generate_syntax_decl (syntax_level : string) : string :=
  "syntax " ++ "= " ++ syntax_level ++ ";" ++ nl.

(** The text is written for every kind of element; imports, messages and enums
    only when rendered.  The flag is raised by messages, enums and services. *)
Definition generate_file_element (node : FileElement) : M (string * bool) :=
  match node with
  | ImportDeclContext child =>
      do '(res, should_render) <- generate_import_decl child;
      ret (if should_render then res else "", false)
  | PackageDeclContext package_name =>
      do res <- generate_package_decl package_name; ret (res, false)
  | FileOptionDeclContext child =>
      do r <- generate_option_decl child 0; ret (fst r, false)
  | FileMessageDeclContext child =>
      do '(res, should_render) <- generate_message_decl child 0 None;
      ret (if should_render then res else "", false || should_render)
  | FileEnumDeclContext child =>
      do '(res, should_render) <- generate_enum_decl child 0;
      ret (if should_render then res else "", false || should_render)
  | FileExtensionDeclContext child =>
      do res <- generate_extension_decl child 0; ret (res, false)
  | ServiceDeclContext child =>
      do '(res, should_render) <- generate_service_decl child 0;
      ret (res, false || should_render)
  | FileEmptyDeclContext => ret (generate_empty_decl, false)
  end.

Definition generate_file (node : File) : M (string * bool) :=
  do '(body, should_render_this) <- for_write_flag generate_file_element (fileElement node);
  ret (BYTE_ORDER_MARK node
       ++ String.concat "" (map generate_syntax_decl (syntaxDecl node))
       ++ body,
       should_render_this).

Definition create_usage_graph (tree : File) (empty_list : bool) : M UsageNodes :=
  modify (with_phase true) ;;
  (if empty_list then modify (with_usage_nodes []) else ret tt) ;;
  generate_file tree ;;
  modify (with_phase false) ;;
  do self <- get;
  ret (usage_nodes self).

Definition regenerate_file (tree : File) : M (string * bool) := generate_file tree.

(** ** Reachability propagation *)

Definition kind_of (g : UsageNodes) (k : NodeRef) : option UsageNodeKind :=
  option_map kind (lookup k g).

Definition package_of (g : UsageNodes) (k : NodeRef) : option string :=
  option_map package (lookup k g).

Definition mark (k : NodeRef) (g : UsageNodes) : UsageNodes :=
  update k (set_should_render true) g.

(** [for usage_node in usage_node.children: if not usage_node.should_render:
    usage_node.should_render = True; call(usage_node)]; [None] when the
    call stack is exhausted. *)
Definition for_children (call : UsageNodes -> NodeRef -> option UsageNodes)
    : UsageNodes -> list NodeRef -> option UsageNodes :=
  fix go (g : UsageNodes) (nodes : list NodeRef) : option UsageNodes :=
    match nodes with
    | [] => Some g
    | usage_node :: rest =>
        if alive g usage_node then go g rest
        else match call (mark usage_node g) usage_node with
             | Some g' => go g' rest
             | None => None
             end
    end.

Fixpoint update_should_render_state_each (depth : nat) (g : UsageNodes)
    (usage_node : NodeRef) : option UsageNodes :=
  match depth with
  | 0 => None
  | S depth' =>
      for_children (update_should_render_state_each depth') g (children_of g usage_node)
  end.

Definition is_rpc (g : UsageNodes) (k : NodeRef) : bool :=
  match kind_of g k with
  | Some Rpc => true
  | _ => false
  end.

Definition is_google_protobuf (g : UsageNodes) (k : NodeRef) : bool :=
  match package_of g k with
  | Some p => String.eqb p "google.protobuf"
  | None => false
  end.

(** The body of the loop of [update_should_render_state] for one node. *)
Definition update_should_render_state_node (depth : nat) (g : UsageNodes)
    (usage_node : NodeRef) : option UsageNodes :=
  match (if is_rpc g usage_node && alive g usage_node
         then update_should_render_state_each depth g usage_node
         else Some g) with
  | None => None
  | Some g1 =>
      if is_google_protobuf g1 usage_node
      then update_should_render_state_each depth (mark usage_node g1) usage_node
      else Some g1
  end.

Fixpoint update_should_render_state_loop (depth : nat) (g : UsageNodes)
    (nodes : list NodeRef) : option UsageNodes :=
  match nodes with
  | [] => Some g
  | usage_node :: rest =>
      match update_should_render_state_node depth g usage_node with
      | None => None
      | Some g' => update_should_render_state_loop depth g' rest
      end
  end.

(** [for usage_node in self.usage_nodes.values()], in insertion order. *)
Definition update_should_render_state (depth : nat) (g : UsageNodes) : option UsageNodes :=
  update_should_render_state_loop depth g (map fst g).

(** ** The batch driver ([main.py]) *)

Record SourceFile := mkSourceFile {
  relative_path : string;
  file : string;
  tree : File
}.

(** The files written below the destination directory: relative path, file
    name, content. *)
Definition Written : Type := list (string * string * string).

(** [process_files(args.source_dir, create_usage_graph)]: nothing catches an
    exception here. *)
Fixpoint build_graphs (files : list SourceFile) : M unit :=
  match files with
  | [] => ret tt
  | f :: rest => create_usage_graph (tree f) false ;; build_graphs rest
  end.

(** [regenerate_files] of [output_processor(dry_run)]: an exception is caught
    and reported, the modifier keeps what the walk did before it. *)
Definition regenerate_files (dry_run : bool) (f : SourceFile)
    (st : ProtoModifier * Written) : ProtoModifier * Written :=
  let '(self, written) := st in
  match regenerate_file (tree f) self with
  | (Ok (output, should_render), self') =>
      if should_render && negb dry_run then
        (self', (written ++ [(relative_path f, file f, output)])%list)
      else if should_render && dry_run then
        (with_rendered_files
           (rendered_files self' ++ [Py.os_path_join (relative_path f) (file f)])%list self',
         written)
      else (self', written)
  | (Raise _, self') => (self', written)
  end.

Definition output_processor (dry_run : bool) (files : list SourceFile)
    (st : ProtoModifier * Written) : ProtoModifier * Written :=
  fold_left (fun st f => regenerate_files dry_run f st) files st.

Inductive RunResult :=
| Done (self : ProtoModifier) (written : Written)
| Crashed (e : exn) (self : ProtoModifier).

(** The stack left to the propagation: the frames of the calling module, of
    [main] and of [update_should_render_state] are below it. *)
Definition propagation_stack : nat := recursion_limit - 3.

Definition main (option_name : option (list string)) (files : list SourceFile) : RunResult :=
  match build_graphs files (init option_name) with
  | (Raise e, self) => Crashed e self
  | (Ok _, self) =>
      match update_should_render_state propagation_stack (usage_nodes self) with
      | None => Crashed RecursionError self
      | Some g =>
          let st := output_processor true files (with_usage_nodes g self, []) in
          let '(self', written) := output_processor false files st in
          Done self' written
      end
  end.

(** ** The example of the specification *)

Module Scenario.

Definition tracked : OptionDecl := mkOptionDecl "(tracked)" (ScalarValue "true").

Definition field (type_name field_name number : string) : MessageElement :=
  FieldDeclContext (mkFieldDecl None type_name field_name number None).

Definition Get : MethodDecl :=
  mkMethodDecl "Get" (mkMessageType false "A") (mkMessageType false "B")
               (Some [MethodOptionDecl tracked]).

Definition tree : File :=
  mkFile "" [quoted "proto3"]
    [ PackageDeclContext "p";
      FileMessageDeclContext (mkMessageDecl "A" [field "B" "b" "1"]);
      FileMessageDeclContext (mkMessageDecl "B" [field "int32" "x" "1"]);
      FileMessageDeclContext (mkMessageDecl "C" []);
      ServiceDeclContext (mkServiceDecl "S" [ServiceMethodDecl Get]) ].

(** A file without a package declaration. *)
Definition no_package : File :=
  mkFile "" [] [FileMessageDeclContext (mkMessageDecl "D" [field "A" "a" "1"])].

(** The modifier while the graph is built, after [package p;]. *)
Definition building_p : ProtoModifier :=
  with_package_name "p" (with_phase true (init (Some ["tracked"]))).

Definition rpc (method_name input output : string) (elements : option (list MethodElement))
    : ServiceElement :=
  ServiceMethodDecl
    (mkMethodDecl method_name (mkMessageType false input) (mkMessageType false output)
                  elements).



(** A field of a type that is declared later, as an enum. *)
Definition forward_reference : File :=
  mkFile "" []
    [ PackageDeclContext "p";
      FileMessageDeclContext (mkMessageDecl "A" [field "Status" "status" "1"]) ].

(** The modifier in the graph build, after [forward_reference]. *)
Definition after_forward_reference : ProtoModifier :=
  with_phase true (snd (create_usage_graph forward_reference false (init None))).

(** An extension of a message of [google.protobuf] with a field of a type of
    the package [p]. *)
Definition extension : File :=
  mkFile "" []
    [ PackageDeclContext "p";
      FileMessageDeclContext (mkMessageDecl "MyOpt" []);
      FileExtensionDeclContext
        (mkExtensionDecl "google.protobuf.MethodOptions"
           [ExtensionField (mkFieldDecl (Some "optional") "MyOpt" "tracked" "50001" None)]) ].

(** A method and an enum of the same name [A] in one package: the method is
    tracked and takes a [B], and [B] has a field of the enum [A].  The method
    [R] is tracked and takes an [A]. *)
Definition method_and_enum : File :=
  mkFile "" []
    [ PackageDeclContext "p";
      ServiceDeclContext
        (mkServiceDecl "S"
           [ rpc "R" "A" "A" (Some [MethodOptionDecl tracked]);
             rpc "A" "B" "B" (Some [MethodOptionDecl tracked]) ]);
      FileEnumDeclContext (mkEnumDecl "A" [EnumValueDecl ("X = 0;" ++ nl)]);
      FileMessageDeclContext (mkMessageDecl "B" [field "A" "a" "1"]) ].

(** The graph of a file once it is built by a fresh modifier. *)
Definition graph_of (tree : File) : UsageNodes :=
  usage_nodes (snd (create_usage_graph tree false (init (Some ["tracked"])))).

(** Two messages that refer to each other, and a tracked method on one. *)
Definition cycle : File :=
  mkFile "" []
    [ PackageDeclContext "p";
      FileMessageDeclContext (mkMessageDecl "A" [field "B" "b" "1"]);
      FileMessageDeclContext (mkMessageDecl "B" [field "A" "a" "1"]);
      ServiceDeclContext
        (mkServiceDecl "S" [rpc "Get" "A" "A" (Some [MethodOptionDecl tracked])]) ].

(** A service with a tracked method and a service without one. *)
Definition two_services : File :=
  mkFile "" []
    [ PackageDeclContext "p";
      FileMessageDeclContext (mkMessageDecl "A" []);
      ServiceDeclContext
        (mkServiceDecl "S" [rpc "Get" "A" "A" (Some [MethodOptionDecl tracked])]);
      ServiceDeclContext (mkServiceDecl "T" [rpc "Put" "A" "A" None]) ].

(** A file that is rendered, and a file that imports it under [path]. *)
Definition imported : File :=
  mkFile "" []
    [ PackageDeclContext "p";
      FileMessageDeclContext (mkMessageDecl "A" []);
      ServiceDeclContext
        (mkServiceDecl "S" [rpc "Get" "A" "A" (Some [MethodOptionDecl tracked])]) ].

Definition importer (path : string) : File :=
  mkFile "" []
    [ PackageDeclContext "q";
      ImportDeclContext (mkImportDecl false false (quoted path));
      ServiceDeclContext
        (mkServiceDecl "T" [rpc "Put" "p.A" "p.A" (Some [MethodOptionDecl tracked])]) ].

(** The content written for [file] below [relative_path], if any. *)
Definition written_as (relative_path file : string) (r : RunResult) : option string :=
  match r with
  | Done _ written =>
      option_map snd
        (find (fun w => String.eqb (fst (fst w)) relative_path
                        && String.eqb (snd (fst w)) file) written)
  | Crashed _ _ => None
  end.

(** The modifier after the graph of [tree] is built and propagated. *)
Definition propagated : ProtoModifier :=
  let self := snd (create_usage_graph tree false (init (Some ["tracked"]))) in
  match update_should_render_state recursion_limit (usage_nodes self) with
  | Some g => with_usage_nodes g self
  | None => self
  end.

End Scenario.

(** Inputs on which the code and its specification part. *)
Module Defect.

(** A method with an option whose name is not in brackets. *)
Definition plain_option : File :=
  mkFile "" []
    [ PackageDeclContext "p";
      FileMessageDeclContext (mkMessageDecl "A" []);
      ServiceDeclContext
        (mkServiceDecl "S"
           [Scenario.rpc "Get" "A" "A"
              (Some [MethodOptionDecl (mkOptionDecl "deprecated" (ScalarValue "true"))])]) ].

(** Two services of one package with a method [Get] each, the first one
    tracked, the second one not. *)
Definition shared_method_name : File :=
  mkFile "" []
    [ PackageDeclContext "p";
      FileMessageDeclContext (mkMessageDecl "A" []);
      ServiceDeclContext
        (mkServiceDecl "S"
           [Scenario.rpc "Get" "A" "A" (Some [MethodOptionDecl Scenario.tracked])]);
      ServiceDeclContext (mkServiceDecl "T" [Scenario.rpc "Get" "A" "A" None]) ].

(** Two messages that refer to each other; a tracked method that has the
    name of the first one; an extension of the first one. *)
Definition message_cycle : File :=
  mkFile "" []
    [ PackageDeclContext "p";
      FileMessageDeclContext
        (mkMessageDecl "A" [ Scenario.field "B" "b" "1";
                             ExtensionRangeDeclContext ("extensions 100 to max;" ++ nl) ]);
      FileMessageDeclContext (mkMessageDecl "B" [Scenario.field "A" "a" "1"]);
      ServiceDeclContext
        (mkServiceDecl "S"
           [Scenario.rpc "A" "B" "B" (Some [MethodOptionDecl Scenario.tracked])]);
      FileExtensionDeclContext
        (mkExtensionDecl "A"
           [ExtensionField (mkFieldDecl (Some "optional") "int32" "x" "100" None)]) ].

(** A tracked method whose request has a oneof with a member of type [B]. *)
Definition oneof_member : File :=
  mkFile "" []
    [ PackageDeclContext "p";
      FileMessageDeclContext
        (mkMessageDecl "A"
           [OneofDeclContext
              (mkOneofDecl "choice" [OneofField (mkOneofFieldDecl "B" "b" "1" None)])]);
      FileMessageDeclContext (mkMessageDecl "B" []);
      ServiceDeclContext
        (mkServiceDecl "S"
           [Scenario.rpc "Get" "A" "A" (Some [MethodOptionDecl Scenario.tracked])]) ].


(** The run over one file at the top of the source directory. *)
Definition run (names : list string) (tree : File) : RunResult :=
  main (Some names) [mkSourceFile "." "a.proto" tree].

(** The graph after the build and the propagation of a run over one file. *)
Definition propagated (names : list string) (tree : File) : option UsageNodes :=
  match build_graphs [mkSourceFile "." "a.proto" tree] (init (Some names)) with
  | (Ok _, self) => update_should_render_state propagation_stack (usage_nodes self)
  | (Raise _, _) => None
  end.

End Defect.

(** Checks of [well_formed] and [seeded] on a given graph. *)
Definition well_formedb (g : UsageNodes) : bool :=
  forallb (fun e => forallb (fun c => match lookup c g with Some _ => true | None => false end)
                            (children (snd e))) g.

Definition seededb (g : UsageNodes) : bool :=
  forallb (fun e => negb (should_render (snd e))
                    || UsageNodeKind_eqb (kind (snd e)) Rpc
                    || String.eqb (package (snd e)) "google.protobuf") g.

(** * The vocabulary of the properties *)

(** Every run of [m] relates the state it starts from to the state it ends
    in, whether it returns or raises. *)
Definition preserves {A} (R : ProtoModifier -> ProtoModifier -> Prop) (m : M A) : Prop :=
  forall s, R s (snd (m s)).

(** The same node object later on: edges are only appended, and the flag is
    the same unless the node is [free] to change it.  The kind may change. *)
Definition node_le (free : Prop) (n n' : UsageNode) : Prop :=
  package n' = package n /\ name n' = name n /\
  (free \/ should_render n' = should_render n) /\
  exists l, children n' = (children n ++ l)%list.

(** [g'] is [g] later on: every node is still stored under its key, new nodes
    carry their key and are not rendered, keys stay unique.  Only the nodes
    whose name is in [N] may have changed their flag. *)
Definition graph_le (N : list string) (g g' : UsageNodes) : Prop :=
  (NoDup (map fst g) -> NoDup (map fst g')) /\
  forall k,
    match lookup k g with
    | Some n => exists n', lookup k g' = Some n' /\ node_le (In (snd k) N) n n'
    | None => forall n', lookup k g' = Some n' ->
                package n' = fst k /\ name n' = snd k /\
                (In (snd k) N \/ should_render n' = false)
    end.

(** [m] returns only values that satisfy [Q]. *)
Definition returns {A} (m : M A) (Q : A -> Prop) : Prop :=
  forall s a s', m s = (Ok a, s') -> Q a.

Definition starts_upper (x : string) : bool :=
  match first_char x with
  | Some c => Py.isupper c
  | None => false
  end.

(** The name under which a type name is looked up. *)
Definition resolved_name (type_name : string) : string :=
  let parts := Py.split_dot type_name in
  if Nat.ltb 1 (List.length parts)
  then last (filter starts_upper parts) ""
  else type_name.

Definition service_method_symbols (node : ServiceDecl) : list string :=
  flat_map (fun e => match e with
                     | ServiceMethodDecl m => [resolved_name (methodName m)]
                     | _ => []
                     end) (serviceElement node).

(** The names of the symbols that the method declarations of a file resolve to. *)
Definition method_symbols (node : File) : list string :=
  flat_map (fun e => match e with
                     | ServiceDeclContext sd => service_method_symbols sd
                     | _ => []
                     end) (fileElement node).

Definition is_package_decl (e : FileElement) : bool :=
  match e with
  | PackageDeclContext _ => true
  | _ => false
  end.

Definition has_package_decl (node : File) : bool :=
  existsb is_package_decl (fileElement node).

(** The options of the body of a method declaration. *)
Definition method_options (node : MethodDecl) : list OptionDecl :=
  match methodElement node with
  | None => []
  | Some elements =>
      flat_map (fun e => match e with
                         | MethodOptionDecl o => [o]
                         | MethodEmptyDecl => []
                         end) elements
  end.

Definition option_qualifies (names : option (list string)) (o : OptionDecl) : bool :=
  no_option_names names || in_option_names (Py.slice_1_m1 (optionName o)) names.

Definition method_element_qualifies (names : option (list string)) (e : MethodElement)
    : bool :=
  match e with
  | MethodOptionDecl o => option_qualifies names o
  | MethodEmptyDecl => false
  end.

(** The same dict later in the propagation: the same nodes in the same order,
    flags only raised. *)
Definition entry_grows (a b : NodeRef * UsageNode) : Prop :=
  fst b = fst a /\ kind (snd b) = kind (snd a) /\ package (snd b) = package (snd a) /\
  name (snd b) = name (snd a) /\ children (snd b) = children (snd a) /\
  (should_render (snd a) = true -> should_render (snd b) = true).

Definition grows (g g' : UsageNodes) : Prop := Forall2 entry_grows g g'.

(** The number of nodes that are not rendered. *)
Definition dead_count (g : UsageNodes) : nat :=
  List.length (filter (fun e => negb (should_render (snd e))) g).

(** [b] is among the children of [a]. *)
Definition edge (g : UsageNodes) (a b : NodeRef) : Prop := In b (children_of g a).

(** Reachability over children edges, in any number of steps. *)
Inductive reach (g : UsageNodes) : NodeRef -> NodeRef -> Prop :=
| reach_here a : reach g a a
| reach_next a b c : edge g a b -> reach g b c -> reach g a c.

(** Every child is a node of the graph, as a reference to an object is. *)
Definition well_formed (g : UsageNodes) : Prop :=
  forall a b, edge g a b -> lookup b g <> None.

(** A step of a walk on the graph: it grows as [graph_le N] allows and stays
    well formed. *)
Definition graph_step (N : list string) (g g' : UsageNodes) : Prop :=
  graph_le N g g' /\ (well_formed g -> well_formed g').

(** What a walk may do to the modifier: the graph takes steps, and the
    package changes only when [pk] allows it. *)
Definition frame (pk : bool) (N : list string) (s s' : ProtoModifier) : Prop :=
  include_rpc_with_option_names s' = include_rpc_with_option_names s /\
  usage_graph_creation_phase s' = usage_graph_creation_phase s /\
  rendered_files s' = rendered_files s /\
  (pk = false -> package_name s' = package_name s) /\
  graph_step N (usage_nodes s) (usage_nodes s').

(** All children of [k] are rendered. *)
Definition full (g : UsageNodes) (k : NodeRef) : Prop :=
  forall c, edge g k c -> alive g c = true.

(** The nodes from which [update_should_render_state] propagates: an RPC that
    is rendered, or a node of the package [google.protobuf]. *)
Definition root (g : UsageNodes) (k : NodeRef) : Prop :=
  (is_rpc g k = true /\ alive g k = true) \/ is_google_protobuf g k = true.

(** Only roots are rendered: what seeding leaves behind unless a symbol
    seeded as a method is declared again with another kind. *)
Definition seeded (g : UsageNodes) : Prop :=
  forall k, alive g k = true -> root g k.

(** What one depth-first walk from the nodes [cs] achieves: flags are only
    raised, the nodes [cs] are rendered, and each node it raised has all its
    children rendered and is reachable from [cs]. *)
Definition each_post (g : UsageNodes) (cs : list NodeRef) (g' : UsageNodes) : Prop :=
  grows g g' /\
  (forall c, In c cs -> alive g' c = true) /\
  (forall k, alive g k = false -> alive g' k = true ->
             full g' k /\ exists c, In c cs /\ reach g c k).

(** The state of the loop of [update_should_render_state] over the graph [g0]
    once the nodes [done] have had their turn. *)
Definition loop_inv (g0 : UsageNodes) (done : list NodeRef) (g : UsageNodes) : Prop :=
  grows g0 g /\
  (forall k, alive g k = true -> alive g0 k = true \/ full g k) /\
  (forall k, In k done -> root g0 k -> alive g k = true /\ full g k) /\
  (forall k, alive g k = true -> alive g0 k = true \/ exists r, root g0 r /\ reach g0 r k).

(** ** Vocabulary of the further properties *)

(** The string has a dot in it. *)
Fixpoint has_dot (s : string) : bool :=
  match s with
  | EmptyString => false
  | String c rest => Ascii.eqb c "."%char || has_dot rest
  end.

Definition starts_lower (x : string) : bool :=
  match first_char x with
  | Some c => Py.islower c
  | None => false
  end.

(** A segment of a package path: no dot, a lowercase first letter. *)
Definition package_segment (x : string) : Prop :=
  has_dot x = false /\ starts_lower x = true.

(** A segment that names a message or an enum: no dot, an uppercase first
    letter. *)
Definition message_segment (x : string) : Prop :=
  has_dot x = false /\ starts_upper x = true.

(** The run of [m] never returns. *)
Definition raises {A} (m : M A) : Prop :=
  forall s, exists e, fst (m s) = Raise e.

(** The run of [m] returns and leaves the modifier as it was. *)
Definition harmless {A} (m : M A) : Prop :=
  forall s, exists a, m s = (Ok a, s).

(** The same dict with the same nodes, up to their flags. *)
Definition entry_same_shape (a b : NodeRef * UsageNode) : Prop :=
  fst b = fst a /\ kind (snd b) = kind (snd a) /\ package (snd b) = package (snd a) /\
  name (snd b) = name (snd a) /\ children (snd b) = children (snd a).

Definition same_shape (g g' : UsageNodes) : Prop := Forall2 entry_same_shape g g'.

(** What a walk does to the modifier once the graph is built: the phase, the
    filter and the recorded files stay, and the graph keeps its shape. *)
Definition frozen (s s' : ProtoModifier) : Prop :=
  usage_graph_creation_phase s = false ->
  usage_graph_creation_phase s' = false /\
  include_rpc_with_option_names s' = include_rpc_with_option_names s /\
  rendered_files s' = rendered_files s /\
  same_shape (usage_nodes s) (usage_nodes s').

(** While the graph is looked up, a run leaves the modifier as it was. *)
Definition read_only (s s' : ProtoModifier) : Prop :=
  usage_graph_creation_phase s = false -> s' = s.

(** A file element on which the walk always raises: an enum with an option
    declaration in its body, or an extension with a group in its body. *)
Definition aborts_walk (e : FileElement) : Prop :=
  (exists node o, e = FileEnumDeclContext node /\ In (EnumOptionDecl o) (enumElement node))
  \/
  (exists type_name elements g,
     e = FileExtensionDeclContext (mkExtensionDecl type_name elements) /\
     In (ExtensionGroup g) elements).

(** The file element is no message, no enum and no service. *)
Definition raises_no_flag (e : FileElement) : bool :=
  match e with
  | FileMessageDeclContext _ | FileEnumDeclContext _ | ServiceDeclContext _ => false
  | _ => true
  end.

Definition is_oneof_group (e : OneofElement) : bool :=
  match e with
  | OneofGroup _ => true
  | _ => false
  end.

(** A name without a dot that is no scalar keyword. *)
Definition simple_name (x : string) : Prop :=
  Py.split_dot x = [x] /\ ~ In x scalar_types.

(** What one resolution in the graph build does to the graph: the symbol
    [key] is stored, nothing stored and no edge is lost, a stored parent gets
    [key] as a child, and the kind is set when one is given and no kind
    changes when none is. *)
Definition registers (key : NodeRef) (parent : option NodeRef)
    (kd : option UsageNodeKind) (g g' : UsageNodes) : Prop :=
  lookup key g' <> None /\
  (forall x, lookup x g <> None -> lookup x g' <> None) /\
  (forall a b, edge g a b -> edge g' a b) /\
  (forall q, parent = Some q -> lookup q g <> None -> edge g' q key) /\
  match kd with
  | Some k => kind_of g' key = Some k
  | None => forall x, lookup x g <> None -> kind_of g' x = kind_of g x
  end.

Definition is_enum_option (e : EnumElement) : bool :=
  match e with
  | EnumOptionDecl _ => true
  | _ => false
  end.

(** An extension element that is a field of a type with a simple name. *)
Definition simple_extension_field (e : ExtensionElement) : Prop :=
  exists f, e = ExtensionField f /\ simple_name (fd_typeName f).

(** ** Vocabulary of the claims about whole runs *)

(** The package under which [create_usage_node_from_type_name] looks a type
    name up: the lowercase-initial segments of a dotted name when it has any,
    the current package otherwise. *)
Definition resolved_package (current : option string) (type_name : string) : option string :=
  let parts := Py.split_dot type_name in
  if Nat.ltb 1 (List.length parts) then
    match filter starts_lower parts with
    | [] => current
    | lows => Some (Py.join_dot lows)
    end
  else current.

(** The key under which a type name is looked up, from the package [current]. *)
Definition resolved_key (current : option string) (type_name : string) : option NodeRef :=
  option_map (fun p => (p, resolved_name type_name)) (resolved_package current type_name).

(** The type name denotes a symbol: its last segment is no scalar keyword. *)
Definition names_a_symbol (type_name : string) : Prop :=
  ~ In (last (Py.split_dot type_name) "") scalar_types.

(** The package in force after the elements [els] of a file are walked from
    the package [current]: the one of the last package declaration. *)
Fixpoint last_package (current : option string) (els : list FileElement) : option string :=
  match els with
  | [] => current
  | PackageDeclContext p :: rest => last_package (Some p) rest
  | _ :: rest => last_package current rest
  end.

(** The package in force after whole files. *)
Definition package_after (current : option string) (files : list SourceFile) : option string :=
  fold_left (fun c f => last_package c (fileElement (tree f))) files current.

(** [depends_in m els a t]: in the body [els] of the message [m], the message
    [a] ([m] itself or a message nested in it) has a field of type [t], plain
    or in a group, or a map field of value type [t], or declares the nested
    message [t].  The members of a oneof are not among them. *)
Inductive depends_in : string -> list MessageElement -> string -> string -> Prop :=
| dep_field m els f :
    In (FieldDeclContext f) els -> depends_in m els m (fd_typeName f)
| dep_map m els f :
    In (MapFieldDeclContext f) els -> depends_in m els m (mf_typeName f)
| dep_group m els c n num o gels a t :
    In (GroupDeclContext (mkGroupDecl c n num o gels)) els ->
    depends_in m gels a t -> depends_in m els a t
| dep_nested m els m' els' :
    In (MessageDeclContext (mkMessageDecl m' els')) els -> depends_in m els m m'
| dep_inside m els m' els' a t :
    In (MessageDeclContext (mkMessageDecl m' els')) els ->
    depends_in m' els' a t -> depends_in m els a t.





(** The graph [g'] has the symbols and the edges of [g]. *)
Definition keeps (g g' : UsageNodes) : Prop :=
  (forall k, lookup k g <> None -> lookup k g' <> None) /\
  (forall a b, edge g a b -> edge g' a b).

(** What the graph build makes of the type names of a declaration: both
    names resolve, from the package [c], to symbols of the graph [g], the
    second reachable from the first. *)
Definition linked (c : option string) (g : UsageNodes) (a t : string) : Prop :=
  exists ka kt,
    resolved_key c a = Some ka /\ resolved_key c t = Some kt /\
    lookup ka g <> None /\ lookup kt g <> None /\ reach g ka kt.

(** The name resolves, from the package [c], to a symbol of the graph [g]. *)
Definition declared (c : option string) (g : UsageNodes) (a : string) : Prop :=
  exists k, resolved_key c a = Some k /\ lookup k g <> None.

(** What the graph build makes of a file element walked with the package [c]
    in force: a message and a method have their symbol; the types that a
    message, or a message nested in it, depends on are linked to it, and the
    request and the response type of a method are linked to the method. *)
Definition registered (c : option string) (g : UsageNodes) (e : FileElement) : Prop :=
  match e with
  | FileMessageDeclContext (mkMessageDecl m els) =>
      declared c g m /\
      forall a t, depends_in m els a t -> names_a_symbol t -> linked c g a t
  | ServiceDeclContext sd =>
      forall md, In (ServiceMethodDecl md) (serviceElement sd) ->
        declared c g (methodName md) /\
        forall t, t = mt_typeName (inputType md) \/ t = mt_typeName (outputType md) ->
          names_a_symbol t -> linked c g (methodName md) t
  | _ => True
  end.





(** * Properties *)

(** ** The dict *)

Lemma NodeRef_eqb_eq (a b : NodeRef) : NodeRef_eqb a b = true <-> a = b.
Proof.
  destruct a as [a1 a2], b as [b1 b2]; unfold NodeRef_eqb; simpl.
  rewrite andb_true_iff, !String.eqb_eq.
  split; [intros [-> ->]; reflexivity | intros H; inversion H; auto].
Qed.

Lemma NodeRef_eqb_refl (a : NodeRef) : NodeRef_eqb a a = true.
Proof. apply NodeRef_eqb_eq; reflexivity. Qed.

Lemma NodeRef_eqb_neq (a b : NodeRef) : NodeRef_eqb a b = false <-> a <> b.
Proof.
  rewrite <- NodeRef_eqb_eq. destruct (NodeRef_eqb a b); split; congruence.
Qed.

Lemma NodeRef_eq_dec (a b : NodeRef) : {a = b} + {a <> b}.
Proof.
  destruct (NodeRef_eqb a b) eqn:E.
  - left; apply NodeRef_eqb_eq; exact E.
  - right; apply NodeRef_eqb_neq; exact E.
Qed.

Ltac eqb_cases a b :=
  let E := fresh "E" in
  destruct (NodeRef_eqb a b) eqn:E;
  [apply NodeRef_eqb_eq in E; subst | apply NodeRef_eqb_neq in E].

Lemma lookup_update (k k' : NodeRef) (f : UsageNode -> UsageNode) (g : UsageNodes) :
  lookup k (update k' f g)
  = if NodeRef_eqb k k' then option_map f (lookup k g) else lookup k g.
Proof.
  induction g as [|[k0 n] rest IH]; simpl.
  - destruct (NodeRef_eqb k k'); reflexivity.
  - destruct (NodeRef_eqb k' k0) eqn:E1; simpl.
    + apply NodeRef_eqb_eq in E1; subst k0.
      destruct (NodeRef_eqb k k') eqn:E2; reflexivity.
    + destruct (NodeRef_eqb k k0) eqn:E2.
      * apply NodeRef_eqb_eq in E2; subst k0.
        apply NodeRef_eqb_neq in E1.
        destruct (NodeRef_eqb k k') eqn:E3; [|reflexivity].
        apply NodeRef_eqb_eq in E3; congruence.
      * exact IH.
Qed.

Lemma lookup_insert_new (k k' : NodeRef) (n : UsageNode) (g : UsageNodes) :
  lookup k (insert_new k' n g)
  = match lookup k g with
    | Some x => Some x
    | None => if NodeRef_eqb k k' then Some n else None
    end.
Proof.
  unfold insert_new. induction g as [|[k0 n0] rest IH]; simpl.
  - reflexivity.
  - destruct (NodeRef_eqb k k0); [reflexivity | exact IH].
Qed.

Lemma map_fst_update (k : NodeRef) (f : UsageNode -> UsageNode) (g : UsageNodes) :
  map fst (update k f g) = map fst g.
Proof.
  induction g as [|[k0 n] rest IH]; simpl; [reflexivity|].
  destruct (NodeRef_eqb k k0); simpl; [reflexivity | now rewrite IH].
Qed.

Lemma lookup_in_keys (k : NodeRef) (g : UsageNodes) :
  lookup k g <> None <-> In k (map fst g).
Proof.
  induction g as [|[k0 n] rest IH]; simpl.
  - split; [congruence | tauto].
  - eqb_cases k k0.
    + split; [auto | congruence].
    + rewrite IH. split; [auto | intros [H|H]; [congruence | exact H]].
Qed.

(** ** Reasoning about the monad *)

Section Preserves.
Variable R : ProtoModifier -> ProtoModifier -> Prop.
Hypothesis R_refl : forall s, R s s.
Hypothesis R_trans : forall a b c, R a b -> R b c -> R a c.

Lemma preserves_ret {A} (a : A) : preserves R (ret a).
Proof. intros s; apply R_refl. Qed.

Lemma preserves_raise {A} (e : exn) : preserves R (@raise A e).
Proof. intros s; apply R_refl. Qed.

Lemma preserves_get : preserves R get.
Proof. intros s; apply R_refl. Qed.

Lemma preserves_bind {A B} (m : M A) (f : A -> M B) :
  preserves R m -> (forall a, preserves R (f a)) -> preserves R (bind m f).
Proof.
  intros Hm Hf s. unfold bind.
  specialize (Hm s). destruct (m s) as [[a|e] s1]; simpl in *.
  - eapply R_trans; [exact Hm | apply Hf].
  - exact Hm.
Qed.

Lemma preserves_for_write {A} (f : A -> M string) (xs : list A) :
  Forall (fun x => preserves R (f x)) xs -> preserves R (for_write f xs).
Proof.
  induction 1 as [|x rest Hx _ IH]; simpl.
  - apply preserves_ret.
  - apply preserves_bind; [exact Hx | intros a].
    apply preserves_bind; [exact IH | intros b; apply preserves_ret].
Qed.

Lemma preserves_for_write_flag {A} (f : A -> M (string * bool)) (xs : list A) :
  Forall (fun x => preserves R (f x)) xs -> preserves R (for_write_flag f xs).
Proof.
  induction 1 as [|x rest Hx _ IH]; simpl.
  - apply preserves_ret.
  - apply preserves_bind; [exact Hx | intros [a b]].
    apply preserves_bind; [exact IH | intros [c d]; apply preserves_ret].
Qed.

Lemma preserves_for_intermediate call (names : list string) :
  (forall x p, preserves R (call x p)) ->
  forall p, preserves R (for_intermediate call names p).
Proof.
  intros Hc. induction names as [|x rest IH]; intros p; simpl.
  - apply preserves_ret.
  - apply preserves_bind; [apply Hc | intros a; apply IH].
Qed.

Lemma preserves_filter_by_first p (parts : list string) :
  preserves R (filter_by_first p parts).
Proof.
  induction parts as [|x rest IH]; simpl.
  - apply preserves_ret.
  - destruct (first_char x); [|apply preserves_raise].
    apply preserves_bind; [exact IH | intros r; apply preserves_ret].
Qed.
End Preserves.

(** ** What a walk may do to the graph *)

Lemma node_le_refl free n : node_le free n n.
Proof.
  repeat split; auto. exists []. now rewrite app_nil_r.
Qed.

Lemma node_le_trans free a b c : node_le free a b -> node_le free b c -> node_le free a c.
Proof.
  intros (P1 & N1 & F1 & l1 & C1) (P2 & N2 & F2 & l2 & C2).
  repeat split; try congruence.
  - destruct F1 as [F1|F1]; [left; exact F1|].
    destruct F2 as [F2|F2]; [left; exact F2 | right; congruence].
  - exists (l1 ++ l2)%list. rewrite C2, C1, app_assoc. reflexivity.
Qed.

Lemma graph_le_refl N g : graph_le N g g.
Proof.
  split; [auto|]. intros k. destruct (lookup k g) as [n|] eqn:E.
  - exists n; split; [reflexivity | apply node_le_refl].
  - intros n' H; discriminate.
Qed.

Lemma graph_le_trans N a b c : graph_le N a b -> graph_le N b c -> graph_le N a c.
Proof.
  intros [D1 H1] [D2 H2]. split; [auto|]. intros k.
  specialize (H1 k). specialize (H2 k).
  destruct (lookup k a) as [n|] eqn:Ea.
  - destruct H1 as (n1 & L1 & Le1). rewrite L1 in H2.
    destruct H2 as (n2 & L2 & Le2).
    exists n2; split; [exact L2 | eapply node_le_trans; eauto].
  - destruct (lookup k b) as [n1|] eqn:Eb.
    + destruct (H1 n1 eq_refl) as (P1 & N1 & F1).
      destruct H2 as (n2 & L2 & (P2 & N2 & F2 & _)).
      intros n' Hn'. rewrite L2 in Hn'. inversion Hn'; subst n'.
      repeat split; try congruence.
      destruct F1 as [F1|F1]; [left; exact F1|].
      destruct F2 as [F2|F2]; [left; exact F2 | right; congruence].
    + exact H2.
Qed.

Lemma graph_le_weaken N N' g g' :
  (forall x, In x N -> In x N') -> graph_le N g g' -> graph_le N' g g'.
Proof.
  intros Sub [D H]. split; [exact D|]. intros k. specialize (H k).
  destruct (lookup k g) as [n|].
  - destruct H as (n' & L & P & Nm & F & C). exists n'. split; [exact L|].
    repeat split; auto. destruct F; auto.
  - intros n' L. destruct (H n' L) as (P & Nm & F). repeat split; auto.
    destruct F; auto.
Qed.

Lemma graph_le_alive N g g' k :
  graph_le N g g' -> ~ In (snd k) N -> alive g' k = alive g k.
Proof.
  intros [_ H] Hk. specialize (H k). unfold alive.
  destruct (lookup k g) as [n|].
  - destruct H as (n' & -> & _ & _ & F & _). destruct F; [contradiction | assumption].
  - destruct (lookup k g') as [n'|]; [|reflexivity].
    destruct (H n' eq_refl) as (_ & _ & F). destruct F; [contradiction | assumption].
Qed.

Lemma graph_le_update N k f g :
  (forall n, node_le (In (snd k) N) n (f n)) -> graph_le N g (update k f g).
Proof.
  intros Hf. split; [now rewrite map_fst_update|].
  intros k0. rewrite lookup_update.
  destruct (lookup k0 g) as [n|] eqn:E.
  - eqb_cases k0 k; simpl.
    + exists (f n); split; [reflexivity | apply Hf].
    + exists n; split; [reflexivity | apply node_le_refl].
  - destruct (NodeRef_eqb k0 k); simpl; intros n' H; discriminate.
Qed.

Lemma graph_le_insert_new N k kd g :
  lookup k g = None ->
  graph_le N g (insert_new k (mkUsageNode kd (fst k) (snd k) [] false) g).
Proof.
  intros Hk. split.
  - unfold insert_new. rewrite map_app. simpl. intros D.
    assert (Hn : ~ In k (map fst g)) by (rewrite <- lookup_in_keys; auto).
    clear Hk. induction g as [|[k0 n0] rest IH]; simpl in *.
    + constructor; [tauto | constructor].
    + inversion D; subst. constructor.
      * rewrite in_app_iff. simpl. intros [H|[H|[]]]; [tauto | subst; tauto].
      * apply IH; auto.
  - intros k0. rewrite lookup_insert_new.
    destruct (lookup k0 g) as [n|] eqn:E.
    + exists n; split; [reflexivity | apply node_le_refl].
    + eqb_cases k0 k.
      * intros n' H; inversion H; subst; simpl. auto.
      * intros n' H; discriminate.
Qed.

Lemma lookup_update_stored k k' f g :
  lookup k (update k' f g) <> None <-> lookup k g <> None.
Proof.
  rewrite lookup_update. destruct (NodeRef_eqb k k'); [|tauto].
  destruct (lookup k g); simpl; split; congruence.
Qed.

Lemma children_of_update k k' f g :
  children_of (update k' f g) k
  = if NodeRef_eqb k k'
    then match lookup k g with Some n => children (f n) | None => [] end
    else children_of g k.
Proof.
  unfold children_of. rewrite lookup_update.
  destruct (NodeRef_eqb k k'); [|reflexivity]. destruct (lookup k g); reflexivity.
Qed.

Lemma well_formed_update_same_children k f g :
  (forall n, children (f n) = children n) ->
  well_formed g -> well_formed (update k f g).
Proof.
  intros Hf W a b E. unfold edge in E. rewrite children_of_update in E.
  apply lookup_update_stored. apply (W a b). unfold edge, children_of.
  destruct (NodeRef_eqb a k); [|exact E].
  destruct (lookup a g) as [n|]; [rewrite Hf in E; exact E | exact E].
Qed.

Lemma well_formed_add_child parent c g :
  lookup c g <> None -> well_formed g -> well_formed (update parent (add_child c) g).
Proof.
  intros Lc W a b E. unfold edge in E. rewrite children_of_update in E.
  apply lookup_update_stored.
  destruct (NodeRef_eqb a parent).
  - destruct (lookup a g) as [n|] eqn:La; [|contradiction].
    simpl in E. apply in_app_or in E. destruct E as [E|[<-|[]]]; [|exact Lc].
    apply (W a b). unfold edge, children_of. rewrite La. exact E.
  - apply (W a b). exact E.
Qed.

Lemma well_formed_insert_new k kd p m g :
  lookup k g = None ->
  well_formed g -> well_formed (insert_new k (mkUsageNode kd p m [] false) g).
Proof.
  intros Lk W a b E. unfold edge, children_of in E.
  rewrite lookup_insert_new in *.
  destruct (lookup a g) as [n|] eqn:La.
  - assert (Lb : lookup b g <> None) by (apply (W a b); unfold edge, children_of;
                                          rewrite La; exact E).
    destruct (lookup b g); congruence.
  - destruct (NodeRef_eqb a k); simpl in E; contradiction.
Qed.

Lemma graph_step_refl N g : graph_step N g g.
Proof. split; [apply graph_le_refl | auto]. Qed.

Lemma graph_step_trans N a b c : graph_step N a b -> graph_step N b c -> graph_step N a c.
Proof.
  intros [G1 W1] [G2 W2]. split; [eapply graph_le_trans; eauto | auto].
Qed.

Lemma frame_refl pk N s : frame pk N s s.
Proof.
  unfold frame. split; [reflexivity|]. split; [reflexivity|]. split; [reflexivity|].
  split; [reflexivity | apply graph_step_refl].
Qed.

Lemma frame_trans pk N a b c : frame pk N a b -> frame pk N b c -> frame pk N a c.
Proof.
  intros (O1 & P1 & R1 & K1 & G1) (O2 & P2 & R2 & K2 & G2).
  split; [congruence|]. split; [congruence|]. split; [congruence|].
  split; [intros E; rewrite K2, K1; auto|].
  eapply graph_step_trans; eauto.
Qed.

Lemma frame_with_usage_nodes pk N s g' :
  graph_step N (usage_nodes s) g' -> frame pk N s (with_usage_nodes g' s).
Proof.
  intros H. unfold frame; simpl.
  split; [reflexivity|]. split; [reflexivity|]. split; [reflexivity|].
  split; [reflexivity | exact H].
Qed.

Lemma node_le_set_kind free k n : node_le free n (set_kind k n).
Proof. repeat split; simpl; auto. exists []. now rewrite app_nil_r. Qed.

Lemma node_le_add_child free c n : node_le free n (add_child c n).
Proof. repeat split; simpl; auto. exists [c]. reflexivity. Qed.

Lemma node_le_set_should_render b n : node_le True n (set_should_render b n).
Proof. repeat split; simpl; auto. exists []. now rewrite app_nil_r. Qed.

Section Walk.
Variable pk : bool.
Variable N : list string.

Let R := frame pk N.

Lemma R_refl : forall s, R s s.
Proof. intros s; apply frame_refl. Qed.

Lemma R_trans : forall a b c, R a b -> R b c -> R a c.
Proof. intros a b c; apply frame_trans. Qed.

Ltac step := first
  [ apply (preserves_ret R R_refl)
  | apply (preserves_raise R R_refl)
  | apply (preserves_get R R_refl)
  | apply (preserves_bind R R_trans); [|intros ?] ].

Lemma preserves_read_package_name : preserves R read_package_name.
Proof.
  unfold read_package_name. step; [step|].
  destruct (package_name _); step.
Qed.

Lemma preserves_resolve_in_table p m parent kd :
  preserves R (resolve_in_table p m parent kd).
Proof.
  intros s. unfold resolve_in_table, bind, get, modify_nodes, modify, ret, raise. simpl.
  destruct (usage_graph_creation_phase s) eqn:Ph.
  - pose (g1 := match lookup (p, m) (usage_nodes s) with
                | Some _ => match kd with
                            | Some k => update (p, m) (set_kind k) (usage_nodes s)
                            | None => usage_nodes s
                            end
                | None => insert_new (p, m)
                            (mkUsageNode (match kd with Some k => k | None => Message end)
                                         p m [] false) (usage_nodes s)
                end).
    assert (G1 : graph_step N (usage_nodes s) g1 /\ lookup (p, m) g1 <> None).
    { unfold g1. destruct (lookup (p, m) (usage_nodes s)) eqn:L.
      - destruct kd; [|split; [apply graph_step_refl | congruence]].
        split; [split|].
        + apply graph_le_update. intros n; apply node_le_set_kind.
        + apply well_formed_update_same_children. reflexivity.
        + apply lookup_update_stored. congruence.
      - split; [split|].
        + apply (graph_le_insert_new N (p, m)). exact L.
        + apply well_formed_insert_new. exact L.
        + rewrite lookup_insert_new, L, NodeRef_eqb_refl. congruence. }
    destruct G1 as [G1 L1].
    assert (G2 : forall par, graph_step N g1 (update par (add_child (p, m)) g1)).
    { intros par. split.
      - apply graph_le_update. intros n; apply node_le_add_child.
      - apply well_formed_add_child. exact L1. }
    unfold g1 in *.
    destruct (lookup (p, m) (usage_nodes s)) eqn:L; [destruct kd|]; simpl;
      destruct parent as [par|]; simpl;
      try (apply frame_with_usage_nodes; exact G1);
      try apply frame_refl.
    all: try (eapply frame_trans;
              [apply frame_with_usage_nodes; exact G1
              |apply frame_with_usage_nodes; simpl; apply G2]).
    apply frame_with_usage_nodes. apply G2.
  - destruct (lookup (p, m) (usage_nodes s)); simpl; apply frame_refl.
Qed.

Lemma preserves_create_usage_node_from_type_name depth :
  forall type_name parent kd,
    preserves R (create_usage_node_from_type_name depth type_name parent kd).
Proof.
  induction depth as [|d IH]; intros type_name parent kd;
    cbn [create_usage_node_from_type_name].
  - step.
  - destruct (Py.str_in (last (Py.split_dot type_name) "") scalar_types); [step|].
    destruct (Nat.ltb 1 (Datatypes.length (Py.split_dot type_name))).
    + step; [apply (preserves_filter_by_first R R_refl R_trans)|].
      step; [apply (preserves_filter_by_first R R_refl R_trans)|].
      step.
      { destruct (Nat.ltb 0 (Datatypes.length a)); [step | apply preserves_read_package_name]. }
      step.
      { apply (preserves_for_intermediate R R_refl R_trans). intros x q. apply IH. }
      destruct a0; [step | apply preserves_resolve_in_table].
    + step; [apply preserves_read_package_name | apply preserves_resolve_in_table].
Qed.

Lemma preserves_resolve type_name parent kd : preserves R (resolve type_name parent kd).
Proof. apply preserves_create_usage_node_from_type_name. Qed.

Lemma preserves_determine_node_state usage_node :
  preserves R (determine_node_state usage_node).
Proof. destruct usage_node; simpl; [step; step | step]. Qed.

Lemma preserves_generate_option_decl node indent :
  preserves R (generate_option_decl node indent).
Proof. unfold generate_option_decl. step; step. Qed.

Lemma preserves_generate_field_decl node parent :
  preserves R (generate_field_decl node parent).
Proof. unfold generate_field_decl. step; [apply preserves_resolve | step]. Qed.

Lemma preserves_generate_map_field_decl node parent :
  preserves R (generate_map_field_decl node parent).
Proof.
  unfold generate_map_field_decl, generate_map_type.
  step; [|step]. step; [apply preserves_resolve | step].
Qed.

Lemma preserves_generate_enum_element node indent :
  preserves R (generate_enum_element node indent).
Proof.
  unfold generate_enum_element. step; [|step].
  destruct node; step.
Qed.

Lemma preserves_generate_enum_decl node indent :
  preserves R (generate_enum_decl node indent).
Proof.
  unfold generate_enum_decl. step; [apply preserves_resolve|].
  step; [apply preserves_determine_node_state|].
  step; [|step].
  apply (preserves_for_write R R_refl R_trans).
  apply Forall_forall; intros x _. apply preserves_generate_enum_element.
Qed.

Lemma preserves_generate_extension_element node indent parent :
  preserves R (generate_extension_element node indent parent).
Proof.
  unfold generate_extension_element. step; [|step].
  destruct node; [apply preserves_generate_field_decl | step].
Qed.

Lemma preserves_generate_extension_decl node indent :
  preserves R (generate_extension_decl node indent).
Proof.
  destruct node as [type_name elements]; simpl.
  step; [apply preserves_resolve|]. step; [|step].
  apply (preserves_for_write R R_refl R_trans).
  apply Forall_forall; intros x _. apply preserves_generate_extension_element.
Qed.
End Walk.

Section WalkMessages.
Variable pk : bool.
Variable N : list string.

Let R := frame pk N.

Ltac step := first
  [ apply (preserves_ret R (R_refl pk N))
  | apply (preserves_raise R (R_refl pk N))
  | apply (preserves_get R (R_refl pk N))
  | apply (preserves_bind R (R_trans pk N)); [|intros ?] ].

Ltac each_child lemma :=
  apply (preserves_for_write R (R_refl pk N) (R_trans pk N));
  match goal with
  | |- Forall _ ?els =>
      let go := fresh "go" in
      let x := fresh "x" in
      let rest := fresh "rest" in
      revert els; fix go 1; intros [|x rest];
      [apply Forall_nil | apply Forall_cons; [apply lemma | apply go]]
  end.

(** No walk below a message, group, oneof or extension touches a flag or
    the package. *)
Lemma preserves_generate_message_element :
  forall node indent parent, preserves R (generate_message_element node indent parent)
with preserves_generate_message_decl :
  forall node indent parent, preserves R (generate_message_decl node indent parent)
with preserves_generate_group_decl :
  forall node indent parent, preserves R (generate_group_decl node indent parent)
with preserves_generate_oneof_decl :
  forall node indent parent, preserves R (generate_oneof_decl node indent parent)
with preserves_generate_oneof_element :
  forall node indent parent, preserves R (generate_oneof_element node indent parent)
with preserves_generate_oneof_group_decl :
  forall node indent parent, preserves R (generate_oneof_group_decl node indent parent).
Proof.
  - intros node indent parent. destruct node; cbn [generate_message_element];
      try solve [step];
      (apply (preserves_bind R (R_trans pk N)); [|intros ?; step]).
    + apply preserves_generate_field_decl.
    + apply preserves_generate_group_decl.
    + apply preserves_generate_oneof_decl.
    + step; [apply preserves_generate_message_decl | step].
    + step; [apply preserves_generate_enum_decl | step].
    + apply preserves_generate_extension_decl.
    + apply preserves_generate_map_field_decl.
  - intros node indent parent. destruct node as [message_name elements];
      cbn [generate_message_decl].
    step; [apply preserves_resolve|].
    step; [apply preserves_determine_node_state|].
    step; [|step; [apply preserves_resolve | step]].
    each_child preserves_generate_message_element.
  - intros node indent parent.
    destruct node as [cardinality field_name field_number compact_options elements];
      cbn [generate_group_decl].
    step; [|step]. each_child preserves_generate_message_element.
  - intros node indent parent. destruct node as [oneof_name elements];
      cbn [generate_oneof_decl].
    step; [|step]. each_child preserves_generate_oneof_element.
  - intros node indent parent. destruct node; cbn [generate_oneof_element];
      try solve [step];
      (apply (preserves_bind R (R_trans pk N)); [|intros ?; step]).
    apply preserves_generate_oneof_group_decl.
  - intros node indent parent.
    destruct node as [field_name field_number compact_options elements];
      cbn [generate_oneof_group_decl].
    step; [|step]. each_child preserves_generate_message_element.
Qed.
End WalkMessages.

(** ** Results of runs *)

Lemma bind_ok {A B} (m : M A) (f : A -> M B) s b s' :
  bind m f s = (Ok b, s') ->
  exists a s1, m s = (Ok a, s1) /\ f a s1 = (Ok b, s').
Proof.
  unfold bind. destruct (m s) as [[a|e] s1]; intros H.
  - exists a, s1; auto.
  - discriminate.
Qed.

Lemma ret_ok {A} (a b : A) s s' : ret a s = (Ok b, s') -> a = b /\ s = s'.
Proof. unfold ret; intros H; inversion H; auto. Qed.

Lemma preserves_bind_returns {A B} R (m : M A) (f : A -> M B) (Q : A -> Prop) :
  (forall a b c, R a b -> R b c -> R a c) ->
  preserves R m -> returns m Q -> (forall a, Q a -> preserves R (f a)) ->
  preserves R (bind m f).
Proof.
  intros Tr Hm Hq Hf s. unfold bind.
  specialize (Hm s). specialize (Hq s).
  destruct (m s) as [[a|e] s1]; simpl in *.
  - eapply Tr; [exact Hm | apply Hf; eapply Hq; reflexivity].
  - exact Hm.
Qed.

Lemma filter_by_first_ok p parts s l s' :
  filter_by_first p parts s = (Ok l, s') ->
  s' = s /\
  l = filter (fun x => match first_char x with Some c => p c | None => false end) parts.
Proof.
  revert l s'. induction parts as [|x rest IH]; intros l s'; simpl.
  - intros H; apply ret_ok in H. destruct H; subst; auto.
  - destruct (first_char x) as [c|]; [|discriminate].
    intros H. apply bind_ok in H. destruct H as (r & s1 & H1 & H2).
    apply IH in H1. destruct H1 as [-> ->].
    apply ret_ok in H2. destruct H2 as [<- <-]. auto.
Qed.

Lemma resolve_in_table_ok p m parent kd s r s' :
  resolve_in_table p m parent kd s = (Ok r, s') -> r = Some (p, m).
Proof.
  unfold resolve_in_table. intros H.
  apply bind_ok in H. destruct H as (s0 & s1 & Hg & H).
  inversion Hg; subst s0 s1; clear Hg.
  destruct (usage_graph_creation_phase s).
  - apply bind_ok in H. destruct H as (? & s1 & _ & H).
    apply bind_ok in H. destruct H as (? & s2 & _ & H).
    apply ret_ok in H. destruct H; auto.
  - destruct (lookup (p, m) (usage_nodes s)); [|discriminate].
    apply ret_ok in H. destruct H; auto.
Qed.

Lemma create_usage_node_from_type_name_name depth type_name parent kd s k s' :
  create_usage_node_from_type_name depth type_name parent kd s = (Ok (Some k), s') ->
  snd k = resolved_name type_name.
Proof.
  destruct depth as [|d]; cbn [create_usage_node_from_type_name]; [discriminate|].
  unfold resolved_name.
  destruct (Py.str_in (last (Py.split_dot type_name) "") scalar_types).
  { intros H; apply ret_ok in H. destruct H; discriminate. }
  destruct (Nat.ltb 1 (Datatypes.length (Py.split_dot type_name))).
  - intros H.
    apply bind_ok in H. destruct H as (lows & s1 & H1 & H).
    apply bind_ok in H. destruct H as (ups & s2 & H2 & H).
    apply filter_by_first_ok in H2. destruct H2 as [-> ->].
    apply bind_ok in H. destruct H as (pkg & s3 & _ & H).
    apply bind_ok in H. destruct H as (par & s4 & _ & H).
    fold starts_upper in H.
    change (fun x : string => match first_char x with
                              | Some c => Py.isupper c
                              | None => false
                              end) with starts_upper in H.
    destruct (filter starts_upper (Py.split_dot type_name)) eqn:F; [discriminate|].
    apply resolve_in_table_ok in H. inversion H; reflexivity.
  - intros H. apply bind_ok in H. destruct H as (pkg & s1 & _ & H).
    apply resolve_in_table_ok in H. inversion H; reflexivity.
Qed.

(** ** Flags are assigned by method declarations only *)

Section WalkFile.
Variable pk : bool.
Variable N : list string.

Let R := frame pk N.

Ltac known := first
  [ apply preserves_resolve
  | apply preserves_determine_node_state
  | apply preserves_generate_option_decl
  | apply preserves_generate_enum_decl
  | apply preserves_generate_extension_decl
  | apply preserves_generate_message_decl ].

Ltac walk := repeat first
  [ known
  | match goal with
    | |- preserves _ (ret _) => apply (preserves_ret R (R_refl pk N))
    | |- preserves _ (raise _) => apply (preserves_raise R (R_refl pk N))
    | |- preserves _ get => apply (preserves_get R (R_refl pk N))
    | |- preserves _ (bind _ _) => apply (preserves_bind R (R_trans pk N))
    | |- forall _, preserves _ _ => intro
    | |- context [match ?x with pair _ _ => _ end] => is_var x; destruct x
    end ].

Lemma preserves_assign_should_render k b :
  In (snd k) N -> preserves R (assign_should_render (Some k) b).
Proof.
  intros Hk s. simpl. unfold modify_nodes, modify; simpl.
  apply frame_with_usage_nodes. split.
  - apply graph_le_update.
    intros n. destruct (node_le_set_should_render b n) as (P & Nm & _ & C).
    repeat split; auto.
  - apply well_formed_update_same_children. reflexivity.
Qed.

Lemma preserves_generate_message_type node parent :
  preserves R (generate_message_type node parent).
Proof. unfold generate_message_type. walk. Qed.

Lemma preserves_generate_method_element node indent :
  preserves R (generate_method_element node indent).
Proof. destruct node; simpl; walk. Qed.

Lemma preserves_generate_method_decl node indent :
  In (resolved_name (methodName node)) N ->
  preserves R (generate_method_decl node indent).
Proof.
  intros Hn. unfold generate_method_decl.
  apply preserves_bind_returns with
    (Q := fun r => forall k, r = Some k -> snd k = resolved_name (methodName node)).
  - apply R_trans.
  - apply preserves_resolve.
  - intros s [k|] s' H k' E; inversion E; subst.
    eapply create_usage_node_from_type_name_name; exact H.
  - intros usage_node Hk.
    apply (preserves_bind R (R_trans pk N)); [apply preserves_generate_message_type|].
    intros input_type.
    apply (preserves_bind R (R_trans pk N)); [apply preserves_generate_message_type|].
    intros output_type.
    apply (preserves_bind R (R_trans pk N)).
    + destruct (methodElement node) as [elements|]; [|walk].
      apply (preserves_bind R (R_trans pk N)); [|walk].
      apply (preserves_for_write_flag R (R_refl pk N) (R_trans pk N)).
      apply Forall_forall; intros x _. apply preserves_generate_method_element.
    + intros [body flag].
      apply (preserves_bind R (R_trans pk N)); [|walk].
      destruct usage_node as [k|]; [|apply (preserves_raise R (R_refl pk N))].
      apply preserves_assign_should_render. rewrite (Hk k eq_refl). exact Hn.
Qed.

Lemma preserves_generate_service_element node indent :
  (forall m, node = ServiceMethodDecl m -> In (resolved_name (methodName m)) N) ->
  preserves R (generate_service_element node indent).
Proof.
  intros Hn. destruct node; cbn [generate_service_element]; walk.
  apply preserves_generate_method_decl; auto.
Qed.

Lemma preserves_generate_service_decl node indent :
  incl (service_method_symbols node) N ->
  preserves R (generate_service_decl node indent).
Proof.
  intros Hn. unfold generate_service_decl.
  apply (preserves_bind R (R_trans pk N)); [|walk].
  apply (preserves_for_write_flag R (R_refl pk N) (R_trans pk N)).
  apply Forall_forall; intros x Hx. unfold write_if_rendered.
  apply (preserves_bind R (R_trans pk N)); [|walk].
  apply preserves_generate_service_element. intros m ->.
  apply Hn. unfold service_method_symbols. apply in_flat_map.
  exists (ServiceMethodDecl m); simpl; auto.
Qed.

Lemma preserves_generate_import_decl node : preserves R (generate_import_decl node).
Proof. unfold generate_import_decl. walk. Qed.

Lemma preserves_generate_package_decl p :
  pk = true -> preserves R (generate_package_decl p).
Proof.
  intros Hpk s. unfold generate_package_decl, bind, modify, ret; simpl.
  unfold R, frame; simpl.
  split; [reflexivity|]. split; [reflexivity|]. split; [reflexivity|].
  split; [congruence | apply graph_step_refl].
Qed.

Lemma preserves_generate_file_element node :
  (is_package_decl node = true -> pk = true) ->
  (forall sd, node = ServiceDeclContext sd -> incl (service_method_symbols sd) N) ->
  preserves R (generate_file_element node).
Proof.
  intros Hp Hn. destruct node; simpl.
  - apply (preserves_bind R (R_trans pk N));
      [apply preserves_generate_import_decl | walk].
  - apply (preserves_bind R (R_trans pk N));
      [apply preserves_generate_package_decl; auto | walk].
  - walk.
  - walk.
  - walk.
  - walk.
  - apply (preserves_bind R (R_trans pk N));
      [apply preserves_generate_service_decl; auto | walk].
  - walk.
Qed.

Lemma preserves_generate_file node :
  (has_package_decl node = true -> pk = true) ->
  incl (method_symbols node) N ->
  preserves R (generate_file node).
Proof.
  intros Hp Hn. unfold generate_file.
  apply (preserves_bind R (R_trans pk N)); [|walk].
  apply (preserves_for_write_flag R (R_refl pk N) (R_trans pk N)).
  apply Forall_forall; intros x Hx. apply preserves_generate_file_element.
  - intros E. apply Hp. unfold has_package_decl. apply existsb_exists.
    exists x; auto.
  - intros sd ->. intros y Hy. apply Hn. unfold method_symbols.
    apply in_flat_map. exists (ServiceDeclContext sd); auto.
Qed.
End WalkFile.

(** ** Unqualified names and builtin scalars *)

Lemma str_in_In x xs : Py.str_in x xs = true <-> In x xs.
Proof.
  unfold Py.str_in. rewrite existsb_exists. split.
  - intros (y & Hy & E). apply String.eqb_eq in E. now subst.
  - intros H. exists x. split; [exact H | apply String.eqb_refl].
Qed.

Lemma str_in_not_In x xs : Py.str_in x xs = false <-> ~ In x xs.
Proof.
  rewrite <- str_in_In. destruct (Py.str_in x xs); split; congruence.
Qed.

Lemma create_unqualified depth type_name parent kd s :
  Py.split_dot type_name = [type_name] ->
  ~ In type_name scalar_types ->
  create_usage_node_from_type_name (S depth) type_name parent kd s
  = match package_name s with
    | Some p => resolve_in_table p type_name parent kd s
    | None => (Raise AttributeError, s)
    end.
Proof.
  intros Hs Hn. cbn [create_usage_node_from_type_name]. rewrite Hs. cbn [last].
  apply str_in_not_In in Hn. rewrite Hn. cbn [Datatypes.length Nat.ltb Nat.leb].
  unfold bind, read_package_name, get. cbn.
  destruct (package_name s); reflexivity.
Qed.


Ltac in_list := simpl; repeat (first [left; reflexivity | right]).

(** C9. A type name whose last dotted segment is a builtin scalar keyword
    resolves to no symbol and leaves the modifier as it was: no symbol is
    created and no edge is appended to the enclosing symbol. *)
Theorem builtin_scalar_creates_nothing
    (depth : nat) (type_name : string) (usage_parent : option NodeRef)
    (kind : option UsageNodeKind) (s : ProtoModifier) :
  In (last (Py.split_dot type_name) "") scalar_types ->
  create_usage_node_from_type_name (S depth) type_name usage_parent kind s = (Ok None, s).
Proof.
  intros H. cbn [create_usage_node_from_type_name].
  apply str_in_In in H. rewrite H. reflexivity.
Qed.

Lemma builtin_scalar_creates_nothing_witness :
  In (last (Py.split_dot "foo.int32") "") scalar_types /\
  resolve "foo.int32" (Some ("p", "A")) None (with_phase true (init None))
  = (Ok None, with_phase true (init None)).
Proof.
  split.
  - in_list.
  - apply (builtin_scalar_creates_nothing 999 "foo.int32"). in_list.
Defined.

Lemma graph_step_create_usage_graph N tree s :
  incl (method_symbols tree) N ->
  graph_step N (usage_nodes s) (usage_nodes (snd (create_usage_graph tree false s))).
Proof.
  intros HN.
  pose proof (preserves_generate_file true N tree (fun _ => eq_refl) HN
                (with_phase true s)) as (_ & _ & _ & _ & G).
  unfold create_usage_graph, bind, modify, ret, get. cbn in *.
  destruct (generate_file tree (with_phase true s)) as [[r|e] s1]; exact G.
Qed.


(** ** Seeding *)

Lemma preserves_run {A} R (m : M A) s r s' :
  preserves R m -> m s = (r, s') -> R s s'.
Proof. intros H E. specialize (H s). rewrite E in H. exact H. Qed.

Lemma graph_le_lookup N g g' k :
  graph_le N g g' -> lookup k g <> None -> lookup k g' <> None.
Proof.
  intros [_ H] L. specialize (H k). destruct (lookup k g) as [n|]; [|congruence].
  destruct H as (n' & -> & _). congruence.
Qed.

Lemma generate_method_element_run e indent s :
  exists text,
    generate_method_element e indent s
    = (Ok (text, method_element_qualifies (include_rpc_with_option_names s) e), s).
Proof.
  destruct e as [o|]; cbn; eexists; reflexivity.
Qed.

Lemma for_write_flag_method_elements elements indent s :
  exists text,
    for_write_flag (fun child => generate_method_element child indent) elements s
    = (Ok (text, existsb (method_element_qualifies (include_rpc_with_option_names s))
                         elements), s).
Proof.
  induction elements as [|e rest IH]; cbn [for_write_flag existsb].
  - eexists; reflexivity.
  - destruct (generate_method_element_run e indent s) as (t1 & E1).
    destruct IH as (t2 & E2).
    unfold bind. rewrite E1. cbn. unfold bind. rewrite E2. cbn.
    eexists; reflexivity.
Qed.

Lemma existsb_method_options names node elements :
  methodElement node = Some elements ->
  existsb (method_element_qualifies names) elements
  = existsb (option_qualifies names) (method_options node).
Proof.
  intros E. unfold method_options. rewrite E. clear E.
  induction elements as [|e rest IH]; [reflexivity|].
  destruct e as [o|]; cbn; rewrite IH; reflexivity.
Qed.

Lemma create_ok_inv depth type_name parent kd s k s' :
  create_usage_node_from_type_name depth type_name parent kd s = (Ok (Some k), s') ->
  exists parent' s1,
    frame false [] s s1 /\
    resolve_in_table (fst k) (snd k) parent' kd s1 = (Ok (Some k), s').
Proof.
  destruct depth as [|d]; cbn [create_usage_node_from_type_name]; [discriminate|].
  destruct (Py.str_in (last (Py.split_dot type_name) "") scalar_types).
  { intros H; apply ret_ok in H. destruct H; discriminate. }
  destruct (Nat.ltb 1 (Datatypes.length (Py.split_dot type_name))).
  - intros H.
    apply bind_ok in H. destruct H as (lows & s1 & H1 & H).
    apply filter_by_first_ok in H1. destruct H1 as [-> _].
    apply bind_ok in H. destruct H as (ups & s2 & H2 & H).
    apply filter_by_first_ok in H2. destruct H2 as [-> _].
    apply bind_ok in H. destruct H as (pkg & s3 & H3 & H).
    apply bind_ok in H. destruct H as (par & s4 & H4 & H).
    assert (F3 : frame false [] s s3).
    { eapply preserves_run; [|exact H3].
      destruct (Nat.ltb 0 (Datatypes.length lows)).
      - apply preserves_ret, R_refl.
      - apply preserves_read_package_name. }
    assert (F4 : frame false [] s3 s4).
    { eapply preserves_run; [|exact H4].
      apply preserves_for_intermediate; [apply R_refl | apply R_trans|].
      intros x q. apply preserves_create_usage_node_from_type_name. }
    destruct ups as [|u ups]; [discriminate|].
    pose proof (resolve_in_table_ok _ _ _ _ _ _ _ H) as E. inversion E; subst k.
    exists par, s4. split; [eapply frame_trans; eauto | exact H].
  - intros H. apply bind_ok in H. destruct H as (pkg & s1 & H1 & H).
    assert (F1 : frame false [] s s1).
    { eapply preserves_run; [|exact H1]. apply preserves_read_package_name. }
    pose proof (resolve_in_table_ok _ _ _ _ _ _ _ H) as E. inversion E; subst k.
    exists parent, s1. split; [exact F1 | exact H].
Qed.

Lemma resolve_in_table_stored p m parent kd s r s' :
  resolve_in_table p m parent kd s = (Ok r, s') ->
  exists n, lookup (p, m) (usage_nodes s') = Some n /\
            (usage_graph_creation_phase s = true -> forall fk, kd = Some fk -> kind n = fk).
Proof.
  unfold resolve_in_table, bind, get, modify_nodes, modify, ret. cbn.
  destruct (usage_graph_creation_phase s) eqn:Ph.
  - destruct (lookup (p, m) (usage_nodes s)) as [n0|] eqn:L.
    + destruct kd as [fk|]; cbn; destruct parent as [par|]; cbn;
        intros H; inversion H; subst; cbn;
        repeat rewrite lookup_update; repeat rewrite NodeRef_eqb_refl; rewrite ?L; cbn.
      * destruct (NodeRef_eqb (p, m) par); cbn; eexists;
          (split; [reflexivity | intros _ fk' E; inversion E; reflexivity]).
      * eexists; split; [reflexivity | intros _ fk' E; inversion E; reflexivity].
      * destruct (NodeRef_eqb (p, m) par); cbn; eexists;
          (split; [reflexivity | intros _ fk' E; discriminate]).
      * eexists; split; [reflexivity | intros _ fk' E; discriminate].
    + cbn. destruct parent as [par|]; cbn; intros H; inversion H; subst; cbn;
        repeat rewrite lookup_update; rewrite lookup_insert_new, L, NodeRef_eqb_refl; cbn.
      * destruct (NodeRef_eqb (p, m) par); cbn; eexists;
          (split; [reflexivity | intros _ fk' E; subst kd; reflexivity]).
      * eexists; split; [reflexivity | intros _ fk' E; subst kd; reflexivity].
  - destruct (lookup (p, m) (usage_nodes s)) as [n0|] eqn:L; cbn; intros H; inversion H; subst.
    exists n0. split; [exact L | congruence].
Qed.

Lemma create_ok_stored depth type_name parent kd s k s' :
  create_usage_node_from_type_name depth type_name parent kd s = (Ok (Some k), s') ->
  lookup k (usage_nodes s') <> None.
Proof.
  intros H. apply create_ok_inv in H. destruct H as (par & s1 & _ & H).
  destruct k as [p m]. cbn [fst snd] in H. apply resolve_in_table_stored in H.
  destruct H as (n & L & _). congruence.
Qed.

Lemma alive_update_should_render k b g :
  lookup k g <> None -> alive (update k (set_should_render b) g) k = b.
Proof.
  intros L. unfold alive. rewrite lookup_update, NodeRef_eqb_refl.
  destruct (lookup k g); [reflexivity | congruence].
Qed.

Lemma generate_method_decl_ok node indent s text flag s' :
  generate_method_decl node indent s = (Ok (text, flag), s') ->
  flag = existsb (option_qualifies (include_rpc_with_option_names s)) (method_options node)
  /\ exists k, snd k = resolved_name (methodName node) /\
               lookup k (usage_nodes s') <> None /\
               alive (usage_nodes s') k = flag.
Proof.
  unfold generate_method_decl. intros H.
  apply bind_ok in H. destruct H as (usage_node & s1 & H0 & H).
  apply bind_ok in H. destruct H as (input_type & s2 & H1 & H).
  apply bind_ok in H. destruct H as (output_type & s3 & H2 & H).
  apply bind_ok in H. destruct H as ([body f] & s4 & H3 & H).
  apply bind_ok in H. destruct H as ([] & s5 & H4 & H).
  apply ret_ok in H. destruct H as [E <-]. inversion E; subst text flag; clear E.
  destruct usage_node as [k|]; [|discriminate].
  assert (F1 : frame false [] s s1) by (eapply preserves_run; [apply preserves_resolve | exact H0]).
  assert (F2 : frame false [] s1 s2)
    by (eapply preserves_run; [apply preserves_generate_message_type | exact H1]).
  assert (F3 : frame false [] s2 s3)
    by (eapply preserves_run; [apply preserves_generate_message_type | exact H2]).
  assert (F : frame false [] s s3) by (eapply frame_trans; [|eauto]; eapply frame_trans; eauto).
  assert (F13 : frame false [] s1 s3) by (eapply frame_trans; eauto).
  assert (E3 : s4 = s3 /\
               f = existsb (option_qualifies (include_rpc_with_option_names s3))
                           (method_options node)).
  { destruct (methodElement node) as [elements|] eqn:Em.
    - apply bind_ok in H3. destruct H3 as ([res f'] & s3' & H3 & H3').
      destruct (for_write_flag_method_elements elements (indent + 1) s3) as (t & Et).
      rewrite Et in H3. inversion H3; subst. apply ret_ok in H3'. destruct H3' as [E <-].
      inversion E; subst. split; [reflexivity|].
      apply existsb_method_options. exact Em.
    - apply ret_ok in H3. destruct H3 as [E <-]. inversion E; subst.
      split; [reflexivity|]. unfold method_options. rewrite Em. reflexivity. }
  destruct E3 as [-> Ef].
  destruct F as (Eo & _). rewrite Eo in Ef.
  split; [exact Ef|].
  exists k. split; [eapply create_usage_node_from_type_name_name; exact H0|].
  assert (L3 : lookup k (usage_nodes s3) <> None).
  { destruct F13 as (_ & _ & _ & _ & G & _). eapply graph_le_lookup; [exact G|].
    eapply create_ok_stored; exact H0. }
  cbn in H4. unfold modify_nodes, modify in H4. inversion H4; subst s5. cbn.
  split.
  - rewrite lookup_update, NodeRef_eqb_refl.
    destruct (lookup k (usage_nodes s3)); [cbn; congruence | congruence].
  - apply alive_update_should_render. exact L3.
Qed.


Lemma existsb_option_qualifies names options :
  existsb (option_qualifies names) options = true <->
  match names with
  | None | Some [] => exists o, In o options
  | Some l => exists o, In o options /\ In (Py.slice_1_m1 (optionName o)) l
  end.
Proof.
  rewrite existsb_exists. unfold option_qualifies.
  destruct names as [[|x l]|]; cbn.
  - split; [intros (o & H & _); eauto | intros (o & H); eauto].
  - split.
    + intros (o & H & Q). exists o. split; [exact H|].
      apply (str_in_In _ (x :: l)). exact Q.
    + intros (o & H & Q). exists o. split; [exact H|].
      apply (str_in_In _ (x :: l)). exact Q.
  - split; [intros (o & H & _); eauto | intros (o & H); eauto].
Qed.

(** ** One symbol per key *)

Lemma generate_message_decl_flag message_name elements indent parent s text flag s' p :
  package_name s = Some p ->
  Py.split_dot message_name = [message_name] ->
  generate_message_decl (mkMessageDecl message_name elements) indent parent s
  = (Ok (text, flag), s') ->
  flag = alive (usage_nodes s) (p, message_name).
Proof.
  intros Hp Hs H. cbn [generate_message_decl] in H.
  apply bind_ok in H. destruct H as (usage_node & s1 & H0 & H).
  apply bind_ok in H. destruct H as (flag0 & s2 & H1 & H).
  apply bind_ok in H. destruct H as (body & s3 & _ & H).
  apply bind_ok in H. destruct H as (? & s4 & _ & H).
  apply ret_ok in H. destruct H as [E _]. inversion E; subst flag0; clear E.
  assert (F : frame false [] s s1)
    by (eapply preserves_run; [apply preserves_resolve | exact H0]).
  destruct usage_node as [k|]; [|discriminate].
  cbn in H1. inversion H1; subst.
  assert (Ek : k = (p, message_name)).
  { unfold resolve, recursion_limit in H0.
    cbn [create_usage_node_from_type_name] in H0. rewrite Hs in H0. cbn [last] in H0.
    destruct (Py.str_in message_name scalar_types).
    - apply ret_ok in H0. destruct H0; discriminate.
    - cbn [Datatypes.length Nat.ltb Nat.leb] in H0.
      apply bind_ok in H0. destruct H0 as (pkg & s0 & Hpkg & H0).
      unfold read_package_name, bind, get in Hpkg. rewrite Hp in Hpkg.
      inversion Hpkg; subst pkg s0.
      apply resolve_in_table_ok in H0. congruence. }
  subst k. destruct F as (_ & _ & _ & _ & G & _).
  apply (graph_le_alive [] _ _ (p, message_name) G). simpl; tauto.
Qed.



(** ** Propagation *)

Lemma entry_grows_refl a : entry_grows a a.
Proof. repeat split; auto. Qed.

Lemma grows_refl g : grows g g.
Proof. induction g; constructor; auto using entry_grows_refl. Qed.

Lemma grows_trans a b c : grows a b -> grows b c -> grows a c.
Proof.
  intros H. revert c. induction H as [|x y l l' Hxy _ IH]; intros c Hc; inversion Hc; subst.
  - constructor.
  - constructor; [|apply IH; assumption].
    destruct Hxy as (A1 & A2 & A3 & A4 & A5 & A6).
    match goal with H : entry_grows y _ |- _ => destruct H as (B1 & B2 & B3 & B4 & B5 & B6) end.
    repeat split; try congruence. auto.
Qed.

Lemma grows_mark k g : grows g (mark k g).
Proof.
  unfold mark. induction g as [|[k0 n] rest IH]; simpl; [constructor|].
  destruct (NodeRef_eqb k k0).
  - constructor; [repeat split; auto | apply grows_refl].
  - constructor; [apply entry_grows_refl | exact IH].
Qed.

Lemma grows_lookup g g' k :
  grows g g' ->
  match lookup k g with
  | Some n => exists n', lookup k g' = Some n' /\ entry_grows (k, n) (k, n')
  | None => lookup k g' = None
  end.
Proof.
  induction 1 as [|[k1 n1] [k2 n2] l l' Hxy _ IH]; simpl; [reflexivity|].
  destruct Hxy as (A1 & A2 & A3 & A4 & A5 & A6). simpl in *. subst k2.
  destruct (NodeRef_eqb k k1); [|exact IH].
  exists n2. split; [reflexivity | repeat split; auto].
Qed.

Lemma grows_children g g' k : grows g g' -> children_of g' k = children_of g k.
Proof.
  intros H. pose proof (grows_lookup g g' k H) as L. unfold children_of.
  destruct (lookup k g) as [n|].
  - destruct L as (n' & -> & (_ & _ & _ & _ & C & _)). exact C.
  - rewrite L. reflexivity.
Qed.

Lemma grows_is_rpc g g' k : grows g g' -> is_rpc g' k = is_rpc g k.
Proof.
  intros H. pose proof (grows_lookup g g' k H) as L. unfold is_rpc, kind_of.
  destruct (lookup k g) as [n|].
  - destruct L as (n' & -> & (_ & K & _)). simpl in *. rewrite K. reflexivity.
  - rewrite L. reflexivity.
Qed.

Lemma grows_is_google_protobuf g g' k :
  grows g g' -> is_google_protobuf g' k = is_google_protobuf g k.
Proof.
  intros H. pose proof (grows_lookup g g' k H) as L. unfold is_google_protobuf, package_of.
  destruct (lookup k g) as [n|].
  - destruct L as (n' & -> & (_ & _ & P & _)). simpl in *. rewrite P. reflexivity.
  - rewrite L. reflexivity.
Qed.

Lemma grows_alive g g' k : grows g g' -> alive g k = true -> alive g' k = true.
Proof.
  intros H. pose proof (grows_lookup g g' k H) as L. unfold alive.
  destruct (lookup k g) as [n|]; [|discriminate].
  destruct L as (n' & -> & (_ & _ & _ & _ & _ & A)). exact A.
Qed.

Lemma grows_stored g g' k : grows g g' -> lookup k g <> None -> lookup k g' <> None.
Proof.
  intros H. pose proof (grows_lookup g g' k H) as L.
  destruct (lookup k g) as [n|]; [|congruence].
  destruct L as (n' & -> & _). congruence.
Qed.

Lemma grows_keys g g' : grows g g' -> map fst g' = map fst g.
Proof.
  induction 1 as [|x y l l' (E & _) _ IH]; simpl; [reflexivity|]. now rewrite E, IH.
Qed.

Lemma grows_edge g g' a b : grows g g' -> (edge g' a b <-> edge g a b).
Proof. intros H. unfold edge. rewrite (grows_children g g' a H). tauto. Qed.

Lemma grows_reach g g' a b : grows g g' -> (reach g' a b <-> reach g a b).
Proof.
  intros H. split; induction 1; try apply reach_here;
    (eapply reach_next; [apply (grows_edge g g' _ _ H); eassumption | assumption]).
Qed.

Lemma grows_well_formed g g' : grows g g' -> well_formed g -> well_formed g'.
Proof.
  intros H W a b E. apply (grows_edge g g' a b H) in E.
  eapply grows_stored; [exact H | eapply W; exact E].
Qed.

Lemma grows_full g g' k : grows g g' -> full g k -> full g' k.
Proof.
  intros H F c E. apply (grows_edge g g' k c H) in E.
  eapply grows_alive; [exact H | apply F; exact E].
Qed.

Lemma grows_dead_count g g' : grows g g' -> dead_count g' <= dead_count g.
Proof.
  unfold dead_count. induction 1 as [|[k1 n1] [k2 n2] l l' Hxy _ IH]; simpl; [lia|].
  destruct Hxy as (_ & _ & _ & _ & _ & A). simpl in A.
  destruct (should_render n1), (should_render n2); simpl; try lia;
    discriminate (A eq_refl).
Qed.

Lemma alive_mark k g : lookup k g <> None -> alive (mark k g) k = true.
Proof. apply alive_update_should_render. Qed.

Lemma alive_mark_other k k' g : k' <> k -> alive (mark k g) k' = alive g k'.
Proof.
  intros H. unfold alive, mark. rewrite lookup_update.
  apply NodeRef_eqb_neq in H. rewrite H. reflexivity.
Qed.

Lemma dead_count_mark k g :
  lookup k g <> None -> alive g k = false -> dead_count (mark k g) < dead_count g.
Proof.
  unfold alive, mark, dead_count.
  induction g as [|[k0 n] rest IH]; simpl; [congruence|].
  destruct (NodeRef_eqb k k0); simpl.
  - intros _ A. rewrite A. simpl. lia.
  - intros L A. specialize (IH L A). destruct (should_render n); simpl; lia.
Qed.

Lemma for_children_correct call d :
  (forall g u, well_formed g -> dead_count g < d ->
     exists g', call g u = Some g' /\ each_post g (children_of g u) g') ->
  forall cs g,
    well_formed g -> dead_count g <= d -> (forall c, In c cs -> lookup c g <> None) ->
    exists g', for_children call g cs = Some g' /\ each_post g cs g'.
Proof.
  intros Hcall. induction cs as [|c rest IH]; intros g W D L; cbn [for_children].
  - exists g. split; [reflexivity|]. split; [apply grows_refl|].
    split; [intros c []|]. intros k A A'. congruence.
  - destruct (alive g c) eqn:A.
    + destruct (IH g W D (fun x Hx => L x (or_intror Hx))) as (g' & E & G & C & Nw).
      exists g'. split; [exact E|]. split; [exact G|]. split.
      * intros x [<-|Hx]; [eapply grows_alive; eauto | auto].
      * intros k A0 A1. destruct (Nw k A0 A1) as (F & x & Hx & Rx).
        split; [exact F|]. exists x. split; [right; exact Hx | exact Rx].
    + assert (Lc : lookup c g <> None) by (apply L; left; reflexivity).
      pose proof (grows_mark c g) as G1.
      pose proof (dead_count_mark c g Lc A) as D1.
      destruct (Hcall (mark c g) c (grows_well_formed _ _ G1 W) ltac:(lia))
        as (g2 & E2 & G2 & C2 & N2).
      rewrite E2.
      pose proof (grows_dead_count _ _ G2) as D2.
      assert (G02 : grows g g2) by (eapply grows_trans; eauto).
      destruct (IH g2 (grows_well_formed _ _ G02 W) ltac:(lia)
                  (fun x Hx => grows_stored _ _ x G02 (L x (or_intror Hx))))
        as (g' & E & G & C & Nw).
      exists g'. split; [exact E|]. split; [eapply grows_trans; eauto|]. split.
      * intros x [<-|Hx]; [|auto].
        eapply grows_alive; [exact G|]. eapply grows_alive; [exact G2|].
        apply alive_mark; exact Lc.
      * intros k A0 A1. destruct (alive g2 k) eqn:Ak.
        -- destruct (NodeRef_eq_dec k c) as [->|Hk].
           ++ split.
              ** apply (grows_full g2 g' c G). intros x Ex. apply C2.
                 apply (grows_edge _ _ c x G2) in Ex. exact Ex.
              ** exists c. split; [left; reflexivity | apply reach_here].
           ++ assert (A1' : alive (mark c g) k = false)
                by (rewrite alive_mark_other; auto).
              destruct (N2 k A1' Ak) as (F & x & Hx & Rx).
              split; [apply (grows_full g2 g' k G); exact F|].
              exists c. split; [left; reflexivity|].
              eapply reach_next.
              ** unfold edge. rewrite <- (grows_children g (mark c g) c G1). exact Hx.
              ** apply (grows_reach g (mark c g) x k G1). exact Rx.
        -- destruct (Nw k Ak A1) as (F & x & Hx & Rx).
           split; [exact F|]. exists x. split; [right; exact Hx|].
           apply (grows_reach g g2 x k G02). exact Rx.
Qed.

Lemma each_correct depth :
  forall g u, well_formed g -> dead_count g < depth ->
    exists g', update_should_render_state_each depth g u = Some g' /\
               each_post g (children_of g u) g'.
Proof.
  induction depth as [|d IH]; intros g u W D; [lia|].
  cbn [update_should_render_state_each].
  apply (for_children_correct _ d IH); [exact W | lia|].
  intros c Hc. apply (W u c). exact Hc.
Qed.

Lemma reach_trans g a b c : reach g a b -> reach g b c -> reach g a c.
Proof.
  induction 1; [auto|]. intros H1. eapply reach_next; eauto.
Qed.

Lemma root_stored g k : root g k -> lookup k g <> None.
Proof.
  unfold root, is_rpc, is_google_protobuf, kind_of, package_of.
  destruct (lookup k g); [congruence|]. simpl. intros [[H _]|H]; discriminate.
Qed.

Lemma walk_from g0 done g u depth :
  well_formed g0 -> dead_count g0 < depth -> grows g0 g ->
  (forall k, alive g k = true -> k = u \/ alive g0 k = true \/ full g k) ->
  (forall k, In k done -> root g0 k -> alive g k = true /\ full g k) ->
  (forall k, alive g k = true -> alive g0 k = true \/ exists r, root g0 r /\ reach g0 r k) ->
  alive g u = true -> (exists r, root g0 r /\ reach g0 r u) ->
  exists g', update_should_render_state_each depth g u = Some g' /\
             loop_inv g0 done g' /\ full g' u /\ alive g' u = true.
Proof.
  intros W D G I2 I3 I4 Au (r & Hr & Rr).
  pose proof (grows_dead_count _ _ G) as Dg.
  destruct (each_correct depth g u (grows_well_formed _ _ G W) ltac:(lia))
    as (g' & E & G' & C & Nw).
  assert (Fu : full g' u).
  { intros c Ec. apply C. apply (grows_edge g g' u c G'). exact Ec. }
  exists g'. split; [exact E|]. split; [|split; [exact Fu | eapply grows_alive; eauto]].
  split; [eapply grows_trans; eauto|]. split; [|split].
  - intros k Ak. destruct (alive g k) eqn:Agk.
    + destruct (I2 k Agk) as [->|[H|H]]; [right; exact Fu | left; exact H|].
      right. eapply grows_full; eauto.
    + right. apply (Nw k Agk Ak).
  - intros k Hk Rk. destruct (I3 k Hk Rk) as [A F].
    split; [eapply grows_alive; eauto | eapply grows_full; eauto].
  - intros k Ak. destruct (alive g k) eqn:Agk; [apply I4; exact Agk|].
    right. destruct (Nw k Agk Ak) as (_ & c & Hc & Rc).
    exists r. split; [exact Hr|]. eapply reach_trans; [exact Rr|].
    eapply reach_next.
    + unfold edge. rewrite <- (grows_children g0 g u G). exact Hc.
    + apply (grows_reach g0 g c k G). exact Rc.
Qed.

Lemma update_should_render_state_node_correct g0 done g u depth :
  well_formed g0 -> dead_count g0 < depth -> loop_inv g0 done g ->
  exists g', update_should_render_state_node depth g u = Some g' /\
             loop_inv g0 (u :: done) g'.
Proof.
  intros W D (G & I2 & I3 & I4). unfold update_should_render_state_node.
  (* the RPC turn *)
  assert (S1 : exists g1,
             (if is_rpc g u && alive g u
              then update_should_render_state_each depth g u else Some g) = Some g1 /\
             loop_inv g0 done g1 /\
             (is_rpc g0 u = true -> alive g0 u = true -> alive g1 u = true /\ full g1 u)).
  { destruct (is_rpc g u && alive g u) eqn:B.
    - apply andb_true_iff in B. destruct B as [Br Ba].
      rewrite (grows_is_rpc g0 g u G) in Br.
      assert (J : exists r, root g0 r /\ reach g0 r u).
      { destruct (I4 u Ba) as [A0|J]; [|exact J].
        exists u. split; [left; auto | apply reach_here]. }
      destruct (walk_from g0 done g u depth W D G
                  (fun k Ak => or_intror (I2 k Ak)) I3 I4 Ba J)
        as (g1 & E & Inv & F & A).
      exists g1. split; [exact E|]. split; [exact Inv|]. auto.
    - exists g. split; [reflexivity|]. split; [exact (conj G (conj I2 (conj I3 I4)))|].
      intros Hr Ha. rewrite (grows_is_rpc g0 g u G), Hr in B.
      rewrite (grows_alive g0 g u G Ha) in B. discriminate. }
  destruct S1 as (g1 & -> & (G1 & J2 & J3 & J4) & R1).
  rewrite (grows_is_google_protobuf g0 g1 u G1).
  destruct (is_google_protobuf g0 u) eqn:Gp.
  - (* the google.protobuf turn *)
    assert (Ru : root g0 u) by (right; exact Gp).
    assert (Lu : lookup u g1 <> None)
      by (eapply grows_stored; [exact G1 | apply root_stored; exact Ru]).
    pose proof (grows_mark u g1) as Gm.
    assert (Am : forall k, alive (mark u g1) k = true -> k = u \/ alive g1 k = true).
    { intros k Ak. destruct (NodeRef_eq_dec k u) as [->|Hk]; [left; reflexivity|].
      right. rewrite alive_mark_other in Ak; auto. }
    destruct (walk_from g0 done (mark u g1) u depth W D (grows_trans _ _ _ G1 Gm))
      as (g2 & E & (G2 & K2 & K3 & K4) & F & A).
    + intros k Ak. destruct (Am k Ak) as [->|A1]; [left; reflexivity|].
      right. destruct (J2 k A1) as [H|H]; [left; exact H|].
      right. eapply grows_full; eauto.
    + intros k Hk Rk. destruct (J3 k Hk Rk) as [A F].
      split; [eapply grows_alive; eauto | eapply grows_full; eauto].
    + intros k Ak. destruct (Am k Ak) as [->|A1]; [|apply J4; exact A1].
      right. exists u. split; [exact Ru | apply reach_here].
    + apply alive_mark; exact Lu.
    + exists u. split; [exact Ru | apply reach_here].
    + exists g2. split; [exact E|]. split; [exact G2|]. split; [exact K2|].
      split; [|exact K4].
      intros k [<-|Hk] Rk; [split; assumption | apply K3; assumption].
  - exists g1. split; [reflexivity|]. split; [exact G1|]. split; [exact J2|].
    split; [|exact J4].
    intros k [<-|Hk] Rk; [|apply J3; assumption].
    destruct Rk as [[Hr Ha]|Hg]; [apply R1; assumption | congruence].
Qed.

Lemma update_should_render_state_loop_correct g0 depth :
  well_formed g0 -> dead_count g0 < depth ->
  forall nodes done g,
    loop_inv g0 done g ->
    exists g', update_should_render_state_loop depth g nodes = Some g' /\
               loop_inv g0 (rev nodes ++ done) g'.
Proof.
  intros W D. induction nodes as [|u rest IH]; intros done g Inv; simpl.
  - exists g. split; [reflexivity | exact Inv].
  - destruct (update_should_render_state_node_correct g0 done g u depth W D Inv)
      as (g1 & -> & Inv1).
    destruct (IH (u :: done) g1 Inv1) as (g' & E & Inv').
    exists g'. split; [exact E|]. rewrite <- app_assoc. exact Inv'.
Qed.

(** The propagation returns on every well-formed graph, given a call stack
    deeper than the number of nodes that are not rendered, and then: flags
    are only raised; every root is rendered with all its children; every
    rendered node was rendered before or has all its children rendered; and
    every rendered node was rendered before or is reachable from a root. *)
Lemma update_should_render_state_correct g0 depth :
  well_formed g0 -> dead_count g0 < depth ->
  exists g', update_should_render_state depth g0 = Some g' /\
             loop_inv g0 (map fst g0) g'.
Proof.
  intros W D. unfold update_should_render_state.
  destruct (update_should_render_state_loop_correct g0 depth W D (map fst g0) [] g0)
    as (g' & E & (G & I2 & I3 & I4)).
  - split; [apply grows_refl|]. split; [auto|]. split; [intros k []|auto].
  - exists g'. split; [exact E|]. split; [exact G|]. split; [exact I2|].
    split; [|exact I4].
    intros k Hk. apply I3. rewrite app_nil_r. apply in_rev in Hk. exact Hk.
Qed.

Lemma seeded_closed g0 g' :
  seeded g0 -> loop_inv g0 (map fst g0) g' ->
  forall a b, alive g' a = true -> reach g0 a b -> alive g' b = true.
Proof.
  intros S (G & I2 & I3 & I4) a b Aa R. induction R as [|a b c E R IH]; [exact Aa|].
  apply IH. assert (F : full g' a).
  { destruct (I2 a Aa) as [A0|F]; [|exact F].
    apply I3; [|apply S; exact A0].
    apply lookup_in_keys. apply root_stored. apply S. exact A0. }
  apply F. apply (grows_edge g0 g' a b G). exact E.
Qed.

Lemma for_children_grows call :
  (forall g u g', call g u = Some g' -> grows g g') ->
  forall cs g g', for_children call g cs = Some g' -> grows g g'.
Proof.
  intros Hc. induction cs as [|c rest IH]; intros g g'; cbn [for_children].
  - intros H; inversion H; apply grows_refl.
  - destruct (alive g c); [apply IH|].
    destruct (call (mark c g) c) as [g1|] eqn:E; [|discriminate].
    intros H. eapply grows_trans; [apply grows_mark|].
    eapply grows_trans; [eapply Hc; exact E | eapply IH; exact H].
Qed.

Lemma update_should_render_state_each_grows depth :
  forall g u g', update_should_render_state_each depth g u = Some g' -> grows g g'.
Proof.
  induction depth as [|d IH]; intros g u g'; cbn [update_should_render_state_each];
    [discriminate|].
  apply for_children_grows. exact IH.
Qed.

Lemma update_should_render_state_grows depth g g' :
  update_should_render_state depth g = Some g' -> grows g g'.
Proof.
  unfold update_should_render_state. generalize (map fst g) as nodes. intros nodes.
  revert g. induction nodes as [|u rest IH]; intros g; simpl.
  - intros H; inversion H; apply grows_refl.
  - unfold update_should_render_state_node.
    destruct (if is_rpc g u && alive g u
              then update_should_render_state_each depth g u else Some g) as [g1|] eqn:E1;
      [|discriminate].
    assert (G1 : grows g g1).
    { destruct (is_rpc g u && alive g u).
      - eapply update_should_render_state_each_grows; exact E1.
      - inversion E1; apply grows_refl. }
    destruct (if is_google_protobuf g1 u
              then update_should_render_state_each depth (mark u g1) u else Some g1)
      as [g2|] eqn:E2; [|discriminate].
    assert (G2 : grows g1 g2).
    { destruct (is_google_protobuf g1 u).
      - eapply grows_trans; [apply grows_mark|].
        eapply update_should_render_state_each_grows; exact E2.
      - inversion E2; apply grows_refl. }
    intros H. eapply grows_trans; [exact G1|].
    eapply grows_trans; [exact G2 | apply IH; exact H].
Qed.

(** The graphs that the driver builds are well formed and keyed uniquely,
    whatever the files are and whether or not the build raises. *)
Lemma build_graphs_well_formed files :
  forall s,
    well_formed (usage_nodes s) -> NoDup (map fst (usage_nodes s)) ->
    well_formed (usage_nodes (snd (build_graphs files s))) /\
    NoDup (map fst (usage_nodes (snd (build_graphs files s)))).
Proof.
  induction files as [|f rest IH]; intros s W D; cbn [build_graphs].
  - split; assumption.
  - destruct (graph_step_create_usage_graph (method_symbols (tree f)) (tree f) s
                (incl_refl _)) as [[D1 _] W1].
    unfold bind.
    destruct (create_usage_graph (tree f) false s) as [[g|e] s1]; cbn [snd] in *.
    + apply IH; auto.
    + split; auto.
Qed.

Lemma main_builds_well_formed option_name files :
  well_formed (usage_nodes (snd (build_graphs files (init option_name)))) /\
  NoDup (map fst (usage_nodes (snd (build_graphs files (init option_name))))).
Proof.
  apply build_graphs_well_formed; cbn.
  - intros a b E. destruct E.
  - constructor.
Qed.

(** ** The scenarios *)

Lemma lookup_In k g n : lookup k g = Some n -> In (k, n) g.
Proof.
  induction g as [|[k0 n0] rest IH]; simpl; [discriminate|].
  eqb_cases k k0.
  - intros H; inversion H; auto.
  - auto.
Qed.

Lemma well_formedb_sound g : well_formedb g = true -> well_formed g.
Proof.
  unfold well_formedb, well_formed, edge, children_of. intros H a b E.
  destruct (lookup a g) as [n|] eqn:L; [|contradiction].
  rewrite forallb_forall in H. specialize (H (a, n) (lookup_In _ _ _ L)).
  rewrite forallb_forall in H. specialize (H b E).
  destruct (lookup b g); congruence.
Qed.

Lemma seededb_sound g : seededb g = true -> seeded g.
Proof.
  unfold seededb, seeded, root, alive, is_rpc, is_google_protobuf, kind_of, package_of.
  intros H k A. destruct (lookup k g) as [n|] eqn:L; [|discriminate].
  rewrite forallb_forall in H. specialize (H (k, n) (lookup_In _ _ _ L)).
  simpl in *. rewrite A in H. simpl in H.
  destruct (kind n); simpl in H; auto.
Qed.

Lemma is_rpc_existsb g k :
  is_rpc g k = true -> existsb (fun e => UsageNodeKind_eqb (kind (snd e)) Rpc) g = true.
Proof.
  unfold is_rpc, kind_of. destruct (lookup k g) as [n|] eqn:L; [|discriminate].
  simpl. intros H. apply existsb_exists. exists (k, n).
  split; [apply lookup_In; exact L|]. simpl. destruct (kind n); simpl in *; congruence.
Qed.

(** C3 fails on the code.  The text of a service declaration is written to
    the output of the file whatever its flag, where the text of a message or
    of an enum is written only when its flag is raised: the service [T] of
    [two_services] has no rendered method and is in the written file. *)
Theorem service_is_written_without_rendered_method :
  (forall node s,
     fst (generate_file_element (ServiceDeclContext node) s)
     = match fst (generate_service_decl node 0 s) with
       | Ok (res, should_render) => Ok (res, should_render)
       | Raise e => Raise e
       end) /\
  (forall node s,
     fst (generate_file_element (FileMessageDeclContext node) s)
     = match fst (generate_message_decl node 0 None s) with
       | Ok (res, should_render) => Ok (if should_render then res else "", should_render)
       | Raise e => Raise e
       end) /\
  (let run := main (Some ["tracked"]) [mkSourceFile "api" "a.proto" Scenario.two_services] in
   exists self written output,
     run = Done self written /\
     alive (usage_nodes self) ("p", "Put") = false /\
     Scenario.written_as "api" "a.proto" run = Some output /\
     Py.str_contains ("service T {" ++ nl ++ "}" ++ nl) output = true).
Proof.
  split; [|split].
  - intros node s. cbn [generate_file_element]. unfold bind.
    destruct (generate_service_decl node 0 s) as [[[res sr]|e] s1]; reflexivity.
  - intros node s. cbn [generate_file_element]. unfold bind.
    destruct (generate_message_decl node 0 None s) as [[[res sr]|e] s1]; reflexivity.
  - eexists. eexists. eexists. split; [vm_compute; reflexivity|].
    split; [vm_compute; reflexivity|]. split; vm_compute; reflexivity.
Qed.

(** C6 fails on the code.  The two files lie directly in the source
    directory, so the walk of [main.py] hands them over with the relative path
    of the directory itself.  The imported file is written, and the import is
    missing from the importer: the path recorded for the imported file starts
    with the relative path of the directory and is not the path of the import
    statement.  One directory below, the recorded path is the path of the
    import statement and the import is kept. *)
Theorem import_of_rendered_top_level_file_is_dropped :
  (forall node s,
     exists text,
       generate_file_element (ImportDeclContext node) s
       = (Ok (if Py.str_in (Py.slice_1_m1 (importedFileName node)) (rendered_files s)
              then text else "", false), s)) /\
  (let run := main (Some ["tracked"])
                [ mkSourceFile "." "a.proto" Scenario.imported;
                  mkSourceFile "." "b.proto" (Scenario.importer "a.proto") ] in
   exists a b,
     Scenario.written_as "." "a.proto" run = Some a /\ a <> "" /\
     Scenario.written_as "." "b.proto" run = Some b /\
     Py.str_contains "import" b = false)
  /\
  (let run := main (Some ["tracked"])
                [ mkSourceFile "api" "a.proto" Scenario.imported;
                  mkSourceFile "api" "b.proto" (Scenario.importer "api/a.proto") ] in
   exists a b,
     Scenario.written_as "api" "a.proto" run = Some a /\ a <> "" /\
     Scenario.written_as "api" "b.proto" run = Some b /\
     Py.str_contains ("import " ++ quoted "api/a.proto" ++ ";" ++ nl) b = true).
Proof.
  split; [|split].
  - intros node s. eexists. cbn. reflexivity.
  - eexists. eexists. split; [vm_compute; reflexivity|]. split; [discriminate|].
    split; vm_compute; reflexivity.
  - eexists. eexists. split; [vm_compute; reflexivity|]. split; [discriminate|].
    split; vm_compute; reflexivity.
Qed.


(** * Further properties of the code *)

(** ** Splitting and joining dotted names *)

Lemma split_dot_nonempty s : Py.split_dot s <> [].
Proof.
  induction s as [|c rest IH]; simpl; [discriminate|].
  destruct (Ascii.eqb c "."); [discriminate|].
  destruct (Py.split_dot rest); [congruence | discriminate].
Qed.

Lemma split_dot_no_dot s : has_dot s = false -> Py.split_dot s = [s].
Proof.
  induction s as [|c rest IH]; simpl; [reflexivity|].
  destruct (Ascii.eqb c "."); simpl; [discriminate|].
  intros H. rewrite (IH H). reflexivity.
Qed.

Lemma split_dot_app a b :
  has_dot a = false -> Py.split_dot (a ++ "." ++ b) = a :: Py.split_dot b.
Proof.
  change ("." ++ b) with (String "."%char b).
  induction a as [|c rest IH]; intros H.
  - reflexivity.
  - cbn [has_dot] in H. apply orb_false_iff in H. destruct H as [Hc Hr].
    cbn [append Py.split_dot]. rewrite Hc, (IH Hr). reflexivity.
Qed.

Lemma join_dot_cons x y ys :
  Py.join_dot (x :: y :: ys) = x ++ "." ++ Py.join_dot (y :: ys).
Proof. reflexivity. Qed.

Lemma split_dot_join_dot parts :
  parts <> [] -> Forall (fun x => has_dot x = false) parts ->
  Py.split_dot (Py.join_dot parts) = parts.
Proof.
  induction parts as [|x rest IH]; [congruence|]. intros _ F.
  inversion F as [|? ? Hx Hrest]; subst.
  destruct rest as [|y ys].
  - simpl. apply split_dot_no_dot. exact Hx.
  - rewrite join_dot_cons, (split_dot_app x _ Hx), IH; [reflexivity | discriminate | exact Hrest].
Qed.

Lemma str_app_assoc (a b c : string) : (a ++ b) ++ c = a ++ (b ++ c).
Proof. induction a as [|x a IH]; simpl; [reflexivity | now rewrite IH]. Qed.

Lemma join_dot_snoc pk m :
  pk <> [] -> Py.join_dot (pk ++ [m]) = Py.join_dot pk ++ "." ++ m.
Proof.
  induction pk as [|x rest IH]; [congruence|]. intros _.
  destruct rest as [|y ys].
  - reflexivity.
  - change (Py.join_dot ((x :: y :: ys) ++ [m]))
      with (x ++ "." ++ Py.join_dot ((y :: ys) ++ [m])).
    rewrite IH by discriminate. rewrite join_dot_cons.
    rewrite !str_app_assoc. reflexivity.
Qed.

(** ** Symbol resolution on dotted names *)

Lemma isupper_not_islower c : Py.isupper c = true -> Py.islower c = false.
Proof.
  unfold Py.isupper, Py.islower. intros H.
  apply andb_true_iff in H. destruct H as [_ H]. apply Nat.leb_le in H.
  apply andb_false_iff. left. apply Nat.leb_gt. lia.
Qed.

Lemma islower_not_isupper c : Py.islower c = true -> Py.isupper c = false.
Proof.
  unfold Py.isupper, Py.islower. intros H.
  apply andb_true_iff in H. destruct H as [H _]. apply Nat.leb_le in H.
  apply andb_false_iff. right. apply Nat.leb_gt. lia.
Qed.

Lemma starts_upper_not_lower x : starts_upper x = true -> starts_lower x = false.
Proof.
  unfold starts_upper, starts_lower. destruct (first_char x); [|auto].
  apply isupper_not_islower.
Qed.

Lemma starts_lower_not_upper x : starts_lower x = true -> starts_upper x = false.
Proof.
  unfold starts_upper, starts_lower. destruct (first_char x); [|auto].
  apply islower_not_isupper.
Qed.

Lemma starts_upper_not_scalar x : starts_upper x = true -> ~ In x scalar_types.
Proof.
  intros H Hin. simpl in Hin.
  repeat (destruct Hin as [<-|Hin]; [vm_compute in H; discriminate H|]).
  exact Hin.
Qed.

Lemma starts_upper_nonempty x : starts_upper x = true -> x <> "".
Proof. intros H ->. discriminate H. Qed.

Lemma starts_lower_nonempty x : starts_lower x = true -> x <> "".
Proof. intros H ->. discriminate H. Qed.

Lemma filter_by_first_total p parts s :
  Forall (fun x => x <> "") parts ->
  filter_by_first p parts s
  = (Ok (filter (fun x => match first_char x with Some c => p c | None => false end) parts),
     s).
Proof.
  induction 1 as [|x rest Hx _ IH]; simpl; [reflexivity|].
  destruct x as [|c x']; [congruence|]. simpl.
  unfold bind. rewrite IH. reflexivity.
Qed.

(** The step of [create_usage_node_from_type_name] on a name of several
    segments, none of them empty, whose last segment is no scalar keyword. *)
Lemma create_dotted depth type_name parent kd s :
  Forall (fun x => x <> "") (Py.split_dot type_name) ->
  ~ In (last (Py.split_dot type_name) "") scalar_types ->
  1 < List.length (Py.split_dot type_name) ->
  create_usage_node_from_type_name (S depth) type_name parent kd s
  = (let lows := filter starts_lower (Py.split_dot type_name) in
     let ups := filter starts_upper (Py.split_dot type_name) in
     do package_name <-
       (if Nat.ltb 0 (List.length lows) then ret (Py.join_dot lows) else read_package_name);
     do usage_parent' <-
       for_intermediate
         (fun message_name par =>
            create_usage_node_from_type_name depth (package_name ++ "." ++ message_name)
                                             par kd)
         (removelast ups) parent;
     match ups with
     | [] => raise IndexError
     | _ => resolve_in_table package_name (last ups "") usage_parent' kd
     end) s.
Proof.
  intros Hne Hns Hlen. cbn [create_usage_node_from_type_name].
  apply str_in_not_In in Hns. rewrite Hns.
  apply Nat.ltb_lt in Hlen. rewrite Hlen.
  unfold bind at 1. rewrite (filter_by_first_total _ _ _ Hne).
  unfold bind at 1. rewrite (filter_by_first_total _ _ _ Hne).
  reflexivity.
Qed.

Lemma filter_package_then_message pk m :
  Forall package_segment pk -> message_segment m ->
  filter starts_lower (pk ++ [m]) = pk /\ filter starts_upper (pk ++ [m]) = [m].
Proof.
  intros Hpk [_ Hm]. induction Hpk as [|x rest [_ Hx] _ IH]; simpl.
  - rewrite Hm, (starts_upper_not_lower m Hm). auto.
  - rewrite Hx, (starts_lower_not_upper x Hx). destruct IH as [-> ->]. auto.
Qed.

Lemma package_then_message_nonempty pk m :
  Forall package_segment pk -> message_segment m ->
  Forall (fun x => x <> "") (pk ++ [m]) /\
  Forall (fun x => has_dot x = false) (pk ++ [m]).
Proof.
  intros Hpk [Hd Hm]. split; apply Forall_app; split.
  - eapply Forall_impl; [|exact Hpk]. intros x [_ Hx]. apply starts_lower_nonempty; auto.
  - constructor; [apply starts_upper_nonempty; auto | constructor].
  - eapply Forall_impl; [|exact Hpk]. intros x [Hx _]. exact Hx.
  - constructor; [exact Hd | constructor].
Qed.

Lemma create_qualified
    (depth : nat) (pk : list string) (m : string) (usage_parent : option NodeRef)
    (kind : option UsageNodeKind) (s : ProtoModifier) :
  pk <> [] -> Forall package_segment pk -> message_segment m ->
  create_usage_node_from_type_name (S depth) (Py.join_dot (pk ++ [m])) usage_parent kind s
  = resolve_in_table (Py.join_dot pk) m usage_parent kind s.
Proof.
  intros Hne Hpk Hm.
  destruct (package_then_message_nonempty pk m Hpk Hm) as [Hn Hd].
  assert (Hsplit : Py.split_dot (Py.join_dot (pk ++ [m])) = (pk ++ [m])%list).
  { apply split_dot_join_dot; [|exact Hd]. destruct pk; discriminate. }
  rewrite create_dotted; rewrite Hsplit; try exact Hn.
  - destruct (filter_package_then_message pk m Hpk Hm) as [-> ->].
    cbn zeta. destruct pk as [|x rest]; [congruence|].
    cbn [Datatypes.length Nat.ltb Nat.leb removelast for_intermediate last].
    reflexivity.
  - rewrite last_last. apply starts_upper_not_scalar. apply Hm.
  - rewrite length_app. simpl. destruct pk; [congruence | simpl; lia].
Qed.

(** A name qualified by package segments is looked up under the package it
    spells, whatever the current package is, set or not. *)
Theorem qualified_name_resolves_under_its_own_package
    (depth : nat) (pk : list string) (m : string) (usage_parent : option NodeRef)
    (kind : option UsageNodeKind) (s : ProtoModifier) :
  pk <> [] -> Forall package_segment pk -> message_segment m ->
  create_usage_node_from_type_name (S depth) (Py.join_dot (pk ++ [m])) usage_parent kind s
  = resolve_in_table (Py.join_dot pk) m usage_parent kind s.
Proof. exact (create_qualified depth pk m usage_parent kind s). Qed.

Lemma for_intermediate_ext call1 call2 names :
  (forall x p s, In x names -> call1 x p s = call2 x p s) ->
  forall p s, for_intermediate call1 names p s = for_intermediate call2 names p s.
Proof.
  induction names as [|x rest IH]; intros H p s; cbn [for_intermediate]; [reflexivity|].
  unfold bind. rewrite (H x p s (or_introl eq_refl)).
  destruct (call2 x p s) as [[a|e] s1]; [|reflexivity].
  apply IH. intros y q t Hy. apply H. right. exact Hy.
Qed.

Lemma in_removelast {A} (x : A) l : In x (removelast l) -> In x l.
Proof.
  induction l as [|y rest IH]; simpl; [auto|].
  destruct rest as [|z rest']; [intros []|].
  intros [->|H]; [left; reflexivity | right; apply IH; exact H].
Qed.

Lemma message_segments_facts ups :
  Forall message_segment ups ->
  Forall (fun x => x <> "") ups /\ Forall (fun x => has_dot x = false) ups /\
  filter starts_lower ups = [] /\ filter starts_upper ups = ups.
Proof.
  induction 1 as [|x rest [Hd Hx] _ (I1 & I2 & I3 & I4)]; simpl.
  - repeat split; constructor.
  - rewrite Hx, (starts_upper_not_lower x Hx), I3, I4.
    repeat split; try constructor; auto. apply starts_upper_nonempty; exact Hx.
Qed.

(** A name of several capitalised segments is resolved segment by segment
    under the current package: each segment but the last is resolved as a
    child of the one before it, the first as a child of the enclosing symbol,
    and the last segment as a child of the last but one. *)
Theorem nested_name_chains_its_segments
    (depth : nat) (pk ups : list string) (usage_parent : option NodeRef)
    (kind : option UsageNodeKind) (s : ProtoModifier) :
  pk <> [] -> Forall package_segment pk -> package_name s = Some (Py.join_dot pk) ->
  Forall message_segment ups -> 2 <= List.length ups ->
  create_usage_node_from_type_name (S (S depth)) (Py.join_dot ups) usage_parent kind s
  = (do parent <-
       for_intermediate (fun m par => resolve_in_table (Py.join_dot pk) m par kind)
                        (removelast ups) usage_parent;
     resolve_in_table (Py.join_dot pk) (last ups "") parent kind) s.
Proof.
  intros Hne Hpk Hp Hups Hlen.
  destruct (message_segments_facts ups Hups) as (Hn & Hd & Hl & Hu).
  assert (Hsplit : Py.split_dot (Py.join_dot ups) = ups).
  { apply split_dot_join_dot; [|exact Hd]. destruct ups; [simpl in Hlen; lia | discriminate]. }
  rewrite create_dotted; rewrite Hsplit; try exact Hn.
  - rewrite Hl, Hu. cbn zeta. cbn [Datatypes.length Nat.ltb Nat.leb].
    unfold bind at 1. unfold read_package_name, bind at 1, get. rewrite Hp.
    unfold ret at 1. unfold bind.
    rewrite (for_intermediate_ext _
               (fun m par => resolve_in_table (Py.join_dot pk) m par kind)).
    + destruct (for_intermediate _ (removelast ups) usage_parent s) as [[par|e] s1];
        [|reflexivity].
      destruct ups; [simpl in Hlen; lia | reflexivity].
    + intros x p t Hx. rewrite <- (join_dot_snoc pk x Hne).
      apply create_qualified; auto.
      apply in_removelast in Hx. rewrite Forall_forall in Hups. apply Hups; exact Hx.
  - destruct ups as [|u rest]; [simpl in Hlen; lia|].
    apply starts_upper_not_scalar.
    assert (Hin : In (last (u :: rest) "") (u :: rest))
      by (clear; generalize u; induction rest as [|y r IH]; intros v;
          [left; reflexivity | right; apply (IH y)]).
    rewrite Forall_forall in Hups. apply (Hups _ Hin).
  - lia.
Qed.

(** With a package that is one capitalised segment, a name of several
    capitalised segments is never resolved: the recursion on its first
    segment repeats itself until the call stack is used up, whatever its
    depth, and the modifier is left as it was. *)
Theorem capitalised_package_exhausts_the_stack
    (depth : nat) (P : string) (ups : list string) (usage_parent : option NodeRef)
    (kind : option UsageNodeKind) (s : ProtoModifier) :
  message_segment P -> package_name s = Some P ->
  Forall message_segment ups -> 2 <= List.length ups ->
  create_usage_node_from_type_name depth (Py.join_dot ups) usage_parent kind s
  = (Raise RecursionError, s).
Proof.
  intros HP Hp Hups Hlen.
  assert (Loop : forall d u par, message_segment u ->
            create_usage_node_from_type_name d (P ++ "." ++ u) par kind s
            = (Raise RecursionError, s)).
  { induction d as [|d IH]; intros u par Hu; [reflexivity|].
    assert (F : Forall message_segment [P; u])
      by (constructor; [exact HP | constructor; [exact Hu | constructor]]).
    destruct (message_segments_facts _ F) as (Hn & Hd & Hl & Hup).
    assert (Hsplit : Py.split_dot (P ++ "." ++ u) = [P; u]).
    { rewrite split_dot_app by apply HP. rewrite split_dot_no_dot by apply Hu. reflexivity. }
    rewrite create_dotted; rewrite Hsplit; try exact Hn.
    - rewrite Hl, Hup. cbn zeta. cbn [Datatypes.length Nat.ltb Nat.leb].
      unfold bind at 1. unfold read_package_name, bind at 1, get. rewrite Hp.
      unfold ret at 1. cbn [removelast for_intermediate]. unfold bind.
      rewrite (IH P par HP). reflexivity.
    - cbn [last]. apply starts_upper_not_scalar. apply Hu.
    - simpl. lia. }
  destruct depth as [|d]; [reflexivity|].
  destruct (message_segments_facts ups Hups) as (Hn & Hd & Hl & Hu).
  assert (Hsplit : Py.split_dot (Py.join_dot ups) = ups).
  { apply split_dot_join_dot; [|exact Hd]. destruct ups; [simpl in Hlen; lia | discriminate]. }
  destruct ups as [|u1 [|u2 rest]]; try (simpl in Hlen; lia).
  rewrite create_dotted; rewrite Hsplit; try exact Hn.
  - rewrite Hl, Hu. cbn zeta. cbn [Datatypes.length Nat.ltb Nat.leb].
    unfold bind at 1. unfold read_package_name, bind at 1, get. rewrite Hp.
    unfold ret at 1.
    change (removelast (u1 :: u2 :: rest)) with (u1 :: removelast (u2 :: rest)).
    cbn [for_intermediate]. unfold bind.
    rewrite (Loop d u1 usage_parent); [reflexivity|].
    inversion Hups; assumption.
  - apply starts_upper_not_scalar.
    assert (Hin : In (last (u1 :: u2 :: rest) "") (u1 :: u2 :: rest))
      by (generalize (u2 :: rest) as l, u1; clear;
          induction l as [|y r IH]; intros v; [left; reflexivity | right; apply (IH y)]).
    rewrite Forall_forall in Hups. apply (Hups _ Hin).
  - simpl. lia.
Qed.

(** A name that starts with a dot has an empty first segment: resolving it
    raises an [IndexError] and leaves the modifier as it was. *)
Theorem leading_dot_raises
    (depth : nat) (rest : string) (usage_parent : option NodeRef)
    (kind : option UsageNodeKind) (s : ProtoModifier) :
  ~ In (last (Py.split_dot rest) "") scalar_types ->
  create_usage_node_from_type_name (S depth) ("." ++ rest) usage_parent kind s
  = (Raise IndexError, s).
Proof.
  intros Hn. cbn [create_usage_node_from_type_name].
  change (Py.split_dot ("." ++ rest)) with (EmptyString :: Py.split_dot rest).
  pose proof (split_dot_nonempty rest) as Hne.
  destruct (Py.split_dot rest) as [|x xs] eqn:E; [congruence|].
  change (last (EmptyString :: x :: xs) "") with (last (x :: xs) "").
  apply str_in_not_In in Hn. rewrite Hn. reflexivity.
Qed.

(** ** Walks under any invariant *)

Section AnyInvariant.
Variable R : ProtoModifier -> ProtoModifier -> Prop.
Hypothesis R_refl' : forall s, R s s.
Hypothesis R_trans' : forall a b c, R a b -> R b c -> R a c.
Hypothesis R_resolve : forall type_name parent kd, preserves R (resolve type_name parent kd).
Hypothesis R_assign : forall usage_node b, preserves R (assign_should_render usage_node b).
Hypothesis R_package : forall p, preserves R (generate_package_decl p).

Ltac go := repeat first
  [ apply R_resolve
  | apply R_assign
  | apply R_package
  | match goal with
    | |- preserves _ (ret _) => apply (preserves_ret R R_refl')
    | |- preserves _ (raise _) => apply (preserves_raise R R_refl')
    | |- preserves _ get => apply (preserves_get R R_refl')
    | |- preserves _ (bind _ _) => apply (preserves_bind R R_trans')
    | |- forall _, preserves _ _ => intro
    | |- context [match ?x with pair _ _ => _ end] => is_var x; destruct x
    end ].

Ltac children lemma :=
  apply (preserves_for_write R R_refl' R_trans');
  match goal with
  | |- Forall _ ?els =>
      let rec_ := fresh "rec_" in
      let x := fresh "x" in
      let rest := fresh "rest" in
      revert els; fix rec_ 1; intros [|x rest];
      [apply Forall_nil | apply Forall_cons; [apply lemma | apply rec_]]
  end.

Lemma any_determine_node_state usage_node : preserves R (determine_node_state usage_node).
Proof. destruct usage_node; cbn [determine_node_state]; go. Qed.

Lemma any_generate_option_decl node indent : preserves R (generate_option_decl node indent).
Proof. unfold generate_option_decl. go. Qed.

Lemma any_generate_field_decl node parent : preserves R (generate_field_decl node parent).
Proof. unfold generate_field_decl. go. Qed.

Lemma any_generate_map_field_decl node parent :
  preserves R (generate_map_field_decl node parent).
Proof. unfold generate_map_field_decl, generate_map_type. go. Qed.

Lemma any_generate_enum_element node indent : preserves R (generate_enum_element node indent).
Proof.
  unfold generate_enum_element. destruct node; go. apply any_generate_option_decl.
Qed.

Lemma any_generate_enum_decl node indent : preserves R (generate_enum_decl node indent).
Proof.
  unfold generate_enum_decl. go; try apply any_determine_node_state.
  apply (preserves_for_write R R_refl' R_trans').
  apply Forall_forall; intros x _. apply any_generate_enum_element.
Qed.

Lemma any_generate_extension_decl node indent :
  preserves R (generate_extension_decl node indent).
Proof.
  destruct node as [type_name elements]; cbn [generate_extension_decl]. go.
  apply (preserves_for_write R R_refl' R_trans').
  apply Forall_forall; intros x _. unfold generate_extension_element.
  destruct x; go. apply any_generate_field_decl.
Qed.

Lemma any_generate_message_element :
  forall node indent parent, preserves R (generate_message_element node indent parent)
with any_generate_message_decl :
  forall node indent parent, preserves R (generate_message_decl node indent parent)
with any_generate_group_decl :
  forall node indent parent, preserves R (generate_group_decl node indent parent)
with any_generate_oneof_decl :
  forall node indent parent, preserves R (generate_oneof_decl node indent parent)
with any_generate_oneof_element :
  forall node indent parent, preserves R (generate_oneof_element node indent parent)
with any_generate_oneof_group_decl :
  forall node indent parent, preserves R (generate_oneof_group_decl node indent parent).
Proof.
  - intros node indent parent. destruct node; cbn [generate_message_element]; go.
    + apply any_generate_field_decl.
    + apply any_generate_group_decl.
    + apply any_generate_oneof_decl.
    + apply any_generate_option_decl.
    + apply any_generate_message_decl.
    + apply any_generate_enum_decl.
    + apply any_generate_extension_decl.
    + apply any_generate_map_field_decl.
  - intros node indent parent. destruct node as [message_name elements];
      cbn [generate_message_decl]. go; try apply any_determine_node_state.
    children any_generate_message_element.
  - intros node indent parent.
    destruct node as [cardinality field_name field_number compact_options elements];
      cbn [generate_group_decl]. go.
    children any_generate_message_element.
  - intros node indent parent. destruct node as [oneof_name elements];
      cbn [generate_oneof_decl]. go.
    children any_generate_oneof_element.
  - intros node indent parent. destruct node; cbn [generate_oneof_element]; go.
    + apply any_generate_option_decl.
    + apply any_generate_oneof_group_decl.
  - intros node indent parent.
    destruct node as [field_name field_number compact_options elements];
      cbn [generate_oneof_group_decl]. go.
    children any_generate_message_element.
Qed.

Lemma any_generate_method_decl node indent : preserves R (generate_method_decl node indent).
Proof.
  unfold generate_method_decl, generate_input_type, generate_output_type,
    generate_message_type. go.
  destruct (methodElement node) as [elements|]; go.
  apply (preserves_for_write_flag R R_refl' R_trans').
  apply Forall_forall; intros x _. destruct x; cbn [generate_method_element]; go.
  apply any_generate_option_decl.
Qed.

Lemma any_generate_service_decl node indent : preserves R (generate_service_decl node indent).
Proof.
  unfold generate_service_decl. go.
  apply (preserves_for_write_flag R R_refl' R_trans').
  apply Forall_forall; intros x _. unfold write_if_rendered. go.
  destruct x; cbn [generate_service_element]; go.
  - apply any_generate_option_decl.
  - apply any_generate_method_decl.
Qed.

Lemma any_generate_file node : preserves R (generate_file node).
Proof.
  unfold generate_file. go.
  apply (preserves_for_write_flag R R_refl' R_trans').
  apply Forall_forall; intros x _. destruct x; cbn [generate_file_element]; go.
  - unfold generate_import_decl. go.
  - apply any_generate_option_decl.
  - apply any_generate_message_decl.
  - apply any_generate_enum_decl.
  - apply any_generate_extension_decl.
  - apply any_generate_service_decl.
Qed.
End AnyInvariant.

(** ** Once the graph is built *)

Lemma read_only_refl s : read_only s s.
Proof. intros _. reflexivity. Qed.

Lemma read_only_trans a b c : read_only a b -> read_only b c -> read_only a c.
Proof. intros H1 H2 Ph. rewrite <- (H1 Ph). apply H2. rewrite (H1 Ph). exact Ph. Qed.

Lemma read_only_resolve_in_table p m parent kd :
  preserves read_only (resolve_in_table p m parent kd).
Proof.
  intros s Ph. unfold resolve_in_table, bind, get. cbn. rewrite Ph.
  destruct (lookup (p, m) (usage_nodes s)); reflexivity.
Qed.

Lemma read_only_create depth :
  forall type_name parent kd,
    preserves read_only (create_usage_node_from_type_name depth type_name parent kd).
Proof.
  induction depth as [|d IH]; intros type_name parent kd;
    cbn [create_usage_node_from_type_name].
  - apply preserves_raise, read_only_refl.
  - destruct (Py.str_in (last (Py.split_dot type_name) "") scalar_types);
      [apply preserves_ret, read_only_refl|].
    assert (Hr : preserves read_only read_package_name).
    { intros s _. unfold read_package_name, bind, get. cbn.
      destruct (package_name s); reflexivity. }
    destruct (Nat.ltb 1 (Datatypes.length (Py.split_dot type_name))).
    + apply (preserves_bind _ read_only_trans);
        [apply (preserves_filter_by_first _ read_only_refl read_only_trans)|intros lows].
      apply (preserves_bind _ read_only_trans);
        [apply (preserves_filter_by_first _ read_only_refl read_only_trans)|intros ups].
      apply (preserves_bind _ read_only_trans).
      { destruct (Nat.ltb 0 (Datatypes.length lows));
          [apply preserves_ret, read_only_refl | exact Hr]. }
      intros pkg. apply (preserves_bind _ read_only_trans).
      { apply (preserves_for_intermediate _ read_only_refl read_only_trans).
        intros x q. apply IH. }
      intros par. destruct ups; [apply preserves_raise, read_only_refl|].
      apply read_only_resolve_in_table.
    + apply (preserves_bind _ read_only_trans); [exact Hr | intros pkg].
      apply read_only_resolve_in_table.
Qed.

(** Once the graph is built, the resolution of a type name, whatever the name
    and whether it returns or raises, leaves the modifier as it was: no
    symbol is created, no edge appended, no kind changed. *)
Theorem resolution_after_the_build_is_read_only
    (depth : nat) (type_name : string) (usage_parent : option NodeRef)
    (kind : option UsageNodeKind) (s : ProtoModifier) :
  usage_graph_creation_phase s = false ->
  snd (create_usage_node_from_type_name depth type_name usage_parent kind s) = s.
Proof. intros Ph. apply (read_only_create depth type_name usage_parent kind s Ph). Qed.

(** Once the graph is built, an unqualified name that is no scalar keyword
    resolves to the symbol stored under the current package and the name, and
    raises a [KeyError] when there is none; a forced kind is ignored. *)
Theorem lookup_of_a_missing_symbol_raises
    (depth : nat) (type_name p : string) (usage_parent : option NodeRef)
    (kind : option UsageNodeKind) (s : ProtoModifier) :
  usage_graph_creation_phase s = false ->
  package_name s = Some p ->
  Py.split_dot type_name = [type_name] ->
  ~ In type_name scalar_types ->
  create_usage_node_from_type_name (S depth) type_name usage_parent kind s
  = (match lookup (p, type_name) (usage_nodes s) with
     | Some _ => Ok (Some (p, type_name))
     | None => Raise KeyError
     end, s).
Proof.
  intros Ph Hp Hs Hn. rewrite (create_unqualified depth _ _ _ _ Hs Hn), Hp.
  unfold resolve_in_table, bind, get. cbn. rewrite Ph.
  destruct (lookup (p, type_name) (usage_nodes s)); reflexivity.
Qed.

Lemma same_shape_refl g : same_shape g g.
Proof. induction g; constructor; [repeat split | assumption]. Qed.

Lemma same_shape_trans a b c : same_shape a b -> same_shape b c -> same_shape a c.
Proof.
  intros H. revert c. induction H as [|x y l l' Hxy _ IH]; intros c Hc; inversion Hc; subst.
  - constructor.
  - constructor; [|apply IH; assumption].
    destruct Hxy as (A1 & A2 & A3 & A4 & A5).
    match goal with H : entry_same_shape y _ |- _ => destruct H as (B1 & B2 & B3 & B4 & B5) end.
    repeat split; congruence.
Qed.

Lemma same_shape_set_should_render k b g :
  same_shape g (update k (set_should_render b) g).
Proof.
  induction g as [|[k0 n] rest IH]; simpl; [constructor|].
  destruct (NodeRef_eqb k k0).
  - constructor; [repeat split | apply same_shape_refl].
  - constructor; [repeat split | exact IH].
Qed.

Lemma same_shape_keys g g' : same_shape g g' -> map fst g' = map fst g.
Proof.
  induction 1 as [|x y l l' (E & _) _ IH]; simpl; [reflexivity|]. now rewrite E, IH.
Qed.

Lemma same_shape_lookup g g' k :
  same_shape g g' ->
  match lookup k g with
  | Some n => exists n', lookup k g' = Some n' /\ kind n' = kind n /\
                         package n' = package n /\ name n' = name n /\
                         children n' = children n
  | None => lookup k g' = None
  end.
Proof.
  induction 1 as [|[k1 n1] [k2 n2] l l' Hxy _ IH]; simpl; [reflexivity|].
  destruct Hxy as (A1 & A2 & A3 & A4 & A5). simpl in *. subst k2.
  destruct (NodeRef_eqb k k1); [|exact IH].
  exists n2. auto.
Qed.

Lemma frozen_refl s : frozen s s.
Proof. intros Ph. repeat split; auto. apply same_shape_refl. Qed.

Lemma frozen_trans a b c : frozen a b -> frozen b c -> frozen a c.
Proof.
  intros H1 H2 Ph. destruct (H1 Ph) as (P1 & O1 & F1 & S1).
  destruct (H2 P1) as (P2 & O2 & F2 & S2).
  split; [exact P2|]. split; [congruence|]. split; [congruence|].
  eapply same_shape_trans; eauto.
Qed.

Lemma frozen_generate_file node : preserves frozen (generate_file node).
Proof.
  apply any_generate_file.
  - apply frozen_refl.
  - apply frozen_trans.
  - intros type_name parent kd s Ph. unfold resolve.
    rewrite (read_only_create recursion_limit type_name parent kd s Ph).
    apply frozen_refl. exact Ph.
  - intros [k|] b s Ph; cbn; [|apply frozen_refl; exact Ph].
    split; [exact Ph|]. split; [reflexivity|]. split; [reflexivity|].
    apply same_shape_set_should_render.
  - intros p s Ph. cbn. split; [exact Ph|]. split; [reflexivity|].
    split; [reflexivity | apply same_shape_refl].
Qed.

(** Rendering a file once the graph is built, whether it returns or raises,
    keeps the symbols of the graph, in their order, with their kind and their
    edges: it creates no symbol and no edge.  It also keeps the list of the
    recorded files and the phase. *)
Theorem rendering_keeps_the_graph_shape (tree : File) (s : ProtoModifier) :
  usage_graph_creation_phase s = false ->
  let s' := snd (regenerate_file tree s) in
  usage_graph_creation_phase s' = false /\
  rendered_files s' = rendered_files s /\
  map fst (usage_nodes s') = map fst (usage_nodes s) /\
  forall k, children_of (usage_nodes s') k = children_of (usage_nodes s) k /\
            kind_of (usage_nodes s') k = kind_of (usage_nodes s) k.
Proof.
  intros Ph s'. subst s'. unfold regenerate_file.
  destruct (frozen_generate_file tree s Ph) as (P & _ & F & Sh).
  split; [exact P|]. split; [exact F|]. split; [apply same_shape_keys; exact Sh|].
  intros k. pose proof (same_shape_lookup _ _ k Sh) as L.
  unfold children_of, kind_of.
  destruct (lookup k (usage_nodes s)) as [n|].
  - destruct L as (n' & -> & K & _ & _ & C). simpl. rewrite K, C. auto.
  - rewrite L. auto.
Qed.

(** ** Walks that never return *)

Lemma raises_bind_left {A B} (m : M A) (f : A -> M B) : raises m -> raises (bind m f).
Proof.
  intros H s. destruct (H s) as (e & E). exists e. unfold bind.
  destruct (m s) as [[a|e'] s1]; simpl in *; [discriminate | congruence].
Qed.

Lemma raises_bind_right {A B} (m : M A) (f : A -> M B) :
  (forall a, raises (f a)) -> raises (bind m f).
Proof.
  intros H s. unfold bind. destruct (m s) as [[a|e] s1].
  - apply H.
  - exists e. reflexivity.
Qed.

Lemma raises_for_write {A} (f : A -> M string) xs x :
  In x xs -> raises (f x) -> raises (for_write f xs).
Proof.
  intros Hin Hx. induction xs as [|y rest IH]; [destruct Hin|].
  cbn [for_write]. destruct Hin as [->|Hin].
  - apply raises_bind_left. exact Hx.
  - apply raises_bind_right. intros a. apply raises_bind_left. apply IH. exact Hin.
Qed.

Lemma raises_for_write_flag {A} (f : A -> M (string * bool)) xs x :
  In x xs -> raises (f x) -> raises (for_write_flag f xs).
Proof.
  intros Hin Hx. induction xs as [|y rest IH]; [destruct Hin|].
  cbn [for_write_flag]. destruct Hin as [->|Hin].
  - apply raises_bind_left. exact Hx.
  - apply raises_bind_right. intros a. destruct a.
    apply raises_bind_left. apply IH. exact Hin.
Qed.

Lemma enum_elements_raise_type_error elements indent o s :
  In (EnumOptionDecl o) elements ->
  for_write (fun child => generate_enum_element child indent) elements s
  = (Raise TypeError, s).
Proof.
  induction elements as [|x rest IH]; intros Hin; [destruct Hin|].
  cbn [for_write]. destruct x as [o'|text|text|].
  - reflexivity.
  - destruct Hin as [E|Hin]; [discriminate|]. unfold bind at 1. cbn.
    unfold bind. rewrite (IH Hin). reflexivity.
  - destruct Hin as [E|Hin]; [discriminate|]. unfold bind at 1. cbn.
    unfold bind. rewrite (IH Hin). reflexivity.
  - destruct Hin as [E|Hin]; [discriminate|]. unfold bind at 1. cbn.
    unfold bind. rewrite (IH Hin). reflexivity.
Qed.

(** An enum with an option declaration in its body is never rendered: once
    its name is resolved, with the symbol created or re-kinded in the graph
    build, the walk raises a [TypeError] at the option and leaves the modifier
    as the resolution left it. *)
Theorem enum_with_an_option_raises
    (node : EnumDecl) (o : OptionDecl) (indent : nat) (s s1 : ProtoModifier) (k : NodeRef) :
  In (EnumOptionDecl o) (enumElement node) ->
  resolve (enumName node) None (Some Enum) s = (Ok (Some k), s1) ->
  generate_enum_decl node indent s = (Raise TypeError, s1).
Proof.
  intros Hin Hr. unfold generate_enum_decl. unfold bind at 1. rewrite Hr.
  unfold bind at 1. cbn [determine_node_state]. unfold bind at 1, get, ret.
  unfold bind. rewrite (enum_elements_raise_type_error _ _ o s1 Hin). reflexivity.
Qed.

Lemma raises_generate_enum_decl node o indent :
  In (EnumOptionDecl o) (enumElement node) -> raises (generate_enum_decl node indent).
Proof.
  intros Hin. unfold generate_enum_decl.
  apply raises_bind_right; intros usage_node.
  apply raises_bind_right; intros flag.
  apply raises_bind_left.
  intros s. exists TypeError. rewrite (enum_elements_raise_type_error _ _ o s Hin).
  reflexivity.
Qed.

Lemma raises_generate_extension_decl type_name elements g indent :
  In (ExtensionGroup g) elements ->
  raises (generate_extension_decl (mkExtensionDecl type_name elements) indent).
Proof.
  intros Hin. cbn [generate_extension_decl].
  apply raises_bind_right; intros usage_node.
  apply raises_bind_left.
  apply (raises_for_write _ _ _ Hin).
  intros s. exists TypeError. reflexivity.
Qed.

Lemma raises_generate_file node e :
  In e (fileElement node) -> aborts_walk e -> raises (generate_file node).
Proof.
  intros Hin Ha. unfold generate_file. apply raises_bind_left.
  apply (raises_for_write_flag _ _ _ Hin).
  destruct Ha as [(en & o & -> & Ho)|(tn & els & g & -> & Hg)];
    cbn [generate_file_element]; apply raises_bind_left.
  - apply (raises_generate_enum_decl en o 0 Ho).
  - apply (raises_generate_extension_decl tn els g 0 Hg).
Qed.

Lemma raises_build_graphs files f :
  In f files -> raises (create_usage_graph (tree f) false) -> raises (build_graphs files).
Proof.
  intros Hin Hf. induction files as [|x rest IH]; [destruct Hin|].
  cbn [build_graphs]. destruct Hin as [->|Hin].
  - apply raises_bind_left. exact Hf.
  - apply raises_bind_right. intros a. apply IH. exact Hin.
Qed.

(** A run over files one of which has, at its top level, an enum with an
    option declaration or an extension with a group, aborts in the graph
    build: nothing is rendered and nothing is written, for any file. *)
Theorem run_aborts_on_enum_option_or_extension_group
    (option_name : option (list string)) (files : list SourceFile)
    (f : SourceFile) (e : FileElement) :
  In f files -> In e (fileElement (tree f)) -> aborts_walk e ->
  exists err self, main option_name files = Crashed err self.
Proof.
  intros Hf He Ha.
  assert (Hc : raises (create_usage_graph (tree f) false)).
  { unfold create_usage_graph.
    apply raises_bind_right; intros ?. apply raises_bind_right; intros ?.
    apply raises_bind_left. eapply raises_generate_file; eauto. }
  destruct (raises_build_graphs files f Hf Hc (init option_name)) as (err & E).
  unfold main. destruct (build_graphs files (init option_name)) as [[a|e'] self];
    simpl in E; [discriminate|].
  exists e', self. reflexivity.
Qed.

(** ** Oneof members *)

Lemma harmless_for_write {A} (f : A -> M string) xs :
  (forall x, In x xs -> harmless (f x)) -> harmless (for_write f xs).
Proof.
  induction xs as [|x rest IH]; intros H s; cbn [for_write].
  - eexists; reflexivity.
  - destruct (H x (or_introl eq_refl) s) as (a & Ea).
    destruct (IH (fun y Hy => H y (or_intror Hy)) s) as (b & Eb).
    unfold bind. rewrite Ea. unfold bind. rewrite Eb. eexists; reflexivity.
Qed.

(** The walk of a oneof without groups resolves no type: it returns its text
    and leaves the modifier as it was, so the types of the members of the
    oneof get no symbol and no edge from it. *)
Theorem oneof_members_are_not_resolved
    (oneof_name : string) (elements : list OneofElement) (indent : nat)
    (usage_parent : option NodeRef) (s : ProtoModifier) :
  forallb (fun e => negb (is_oneof_group e)) elements = true ->
  exists text,
    generate_oneof_decl (mkOneofDecl oneof_name elements) indent usage_parent s
    = (Ok text, s).
Proof.
  intros H. cbn [generate_oneof_decl].
  destruct (harmless_for_write
              (fun child => generate_oneof_element child (indent + 1) usage_parent)
              elements) with (s := s) as (body & E).
  - intros x Hx t. rewrite forallb_forall in H. specialize (H x Hx).
    destruct x; cbn [generate_oneof_element]; try discriminate H;
      eexists; reflexivity.
  - unfold bind. rewrite E. eexists; reflexivity.
Qed.

(** ** The phase flag *)

(** [create_usage_graph] ends outside the build phase when the walk returns,
    and stays in the build phase when the walk raises. *)
Theorem build_phase_survives_an_exception (tree : File) (s : ProtoModifier) :
  match create_usage_graph tree false s with
  | (Ok g, s') => usage_graph_creation_phase s' = false /\ g = usage_nodes s'
  | (Raise _, s') => usage_graph_creation_phase s' = true
  end.
Proof.
  pose proof (preserves_generate_file true (method_symbols tree) tree
                (fun _ => eq_refl) (incl_refl _) (with_phase true s)) as (_ & Ph & _).
  unfold create_usage_graph, bind, modify, ret, get. cbn in *.
  destruct (generate_file tree (with_phase true s)) as [[r|e] s1]; cbn in *.
  - split; reflexivity.
  - exact Ph.
Qed.

(** ** Names between brackets and between quotes *)

Lemma substring_0_app (x y : string) : substring 0 (String.length x) (x ++ y) = x.
Proof.
  induction x as [|c x IH]; simpl.
  - destruct y; reflexivity.
  - rewrite IH. reflexivity.
Qed.

Lemma length_snoc (x : string) (c : ascii) :
  String.length (x ++ String c "") = S (String.length x).
Proof. induction x as [|d x IH]; simpl; [reflexivity | rewrite IH; reflexivity]. Qed.

Lemma slice_1_m1_wrapped (a b : ascii) (x : string) :
  Py.slice_1_m1 (String a (x ++ String b "")) = x.
Proof.
  unfold Py.slice_1_m1. cbn [String.length]. rewrite length_snoc.
  replace (S (S (String.length x)) - 2) with (String.length x) by lia.
  cbn [substring]. apply substring_0_app.
Qed.

Lemma length_substring_le (a b : nat) (s : string) : String.length (substring a b s) <= b.
Proof.
  revert a b. induction s as [|c s IH]; intros a b.
  - destruct a, b; simpl; lia.
  - destruct a as [|a]; simpl.
    + destruct b as [|b]; simpl; [lia|]. specialize (IH 0 b). lia.
    + apply IH.
Qed.

Lemma slice_1_m1_shorter (s : string) : s <> "" -> Py.slice_1_m1 s <> s.
Proof.
  intros Hs E. unfold Py.slice_1_m1 in E.
  pose proof (length_substring_le 1 (String.length s - 2) s) as L. rewrite E in L.
  destruct s; [congruence|]. simpl in L. lia.
Qed.

(** An option whose name is [x] in brackets counts for its rpc exactly when
    no filter is set or [x] is among the names of the filter: the brackets are
    what the slice takes off. *)
Theorem bracketed_option_matches_its_name
    (x : string) (value : OptionValue) (indent : nat) (s : ProtoModifier) :
  exists text flag,
    generate_option_decl (mkOptionDecl ("(" ++ x ++ ")") value) indent s
    = (Ok (text, flag), s) /\
    (flag = true <->
     match include_rpc_with_option_names s with
     | None | Some [] => True
     | Some names => In x names
     end).
Proof.
  unfold generate_option_decl, bind, get, ret. cbn [optionName optionValue].
  do 2 eexists. split; [reflexivity|].
  change ("(" ++ x ++ ")") with (String "("%char (x ++ String ")"%char "")).
  rewrite slice_1_m1_wrapped.
  destruct (include_rpc_with_option_names s) as [[|n names]|]; simpl; try tauto.
  change (Py.str_in x (n :: names) = true <-> In x (n :: names)).
  apply str_in_In.
Qed.

(** A filter name is compared with the option name less its first and its
    last character, so an option does not count under its own full name: with
    the filter [[n]], the option named [n] is never a match. *)
Theorem option_never_matches_its_full_name
    (n : string) (value : OptionValue) (indent : nat) (s : ProtoModifier) :
  n <> "" ->
  include_rpc_with_option_names s = Some [n] ->
  exists text, generate_option_decl (mkOptionDecl n value) indent s = (Ok (text, false), s).
Proof.
  intros Hn Hf. unfold generate_option_decl, bind, get, ret. cbn [optionName optionValue].
  rewrite Hf. cbn [no_option_names in_option_names Py.str_in existsb orb].
  destruct (String.eqb (Py.slice_1_m1 n) n) eqn:E.
  - apply String.eqb_eq in E. destruct (slice_1_m1_shorter n Hn E).
  - eexists; reflexivity.
Qed.

(** The text of an import of the quoted path [x] is kept exactly when [x] is
    among the recorded files, and an import never makes its file count as
    rendered. *)
Theorem import_is_kept_iff_recorded
    (weak public : bool) (x : string) (s : ProtoModifier) :
  exists text,
    text <> "" /\
    generate_file_element (ImportDeclContext (mkImportDecl weak public (quoted x))) s
    = (Ok (if Py.str_in x (rendered_files s) then text else "", false), s).
Proof.
  cbn [generate_file_element]. unfold generate_import_decl, bind, get, ret.
  cbn [importedFileName WEAK PUBLIC]. unfold quoted.
  change (String (ascii_of_nat 34) x ++ String (ascii_of_nat 34) "")
    with (String (ascii_of_nat 34) (x ++ String (ascii_of_nat 34) "")).
  rewrite slice_1_m1_wrapped. eexists. split; [|reflexivity]. discriminate.
Qed.

(** ** Files that declare nothing to render *)

Lemma generate_file_element_no_flag e s text flag s' :
  raises_no_flag e = true ->
  generate_file_element e s = (Ok (text, flag), s') -> flag = false.
Proof.
  intros He H. destruct e; try discriminate He; cbn [generate_file_element] in H.
  - apply bind_ok in H as ([res sr] & s1 & _ & H). apply ret_ok in H as [H _].
    congruence.
  - apply bind_ok in H as (res & s1 & _ & H). apply ret_ok in H as [H _]. congruence.
  - apply bind_ok in H as (res & s1 & _ & H). apply ret_ok in H as [H _]. congruence.
  - apply bind_ok in H as (res & s1 & _ & H). apply ret_ok in H as [H _]. congruence.
  - apply ret_ok in H as [H _]. congruence.
Qed.

Lemma for_write_flag_no_flag elements s text flag s' :
  forallb raises_no_flag elements = true ->
  for_write_flag generate_file_element elements s = (Ok (text, flag), s') -> flag = false.
Proof.
  revert s text flag s'. induction elements as [|e rest IH]; intros s text flag s' Ha H.
  - apply ret_ok in H as [H _]. congruence.
  - cbn [forallb] in Ha. apply andb_true_iff in Ha as [He Hr].
    cbn [for_write_flag] in H.
    apply bind_ok in H as ([res sr] & s1 & H1 & H).
    apply bind_ok in H as ([out srt] & s2 & H2 & H).
    apply ret_ok in H as [H _].
    apply (generate_file_element_no_flag _ _ _ _ _ He) in H1.
    apply (IH _ _ _ _ Hr) in H2. subst. inversion H. reflexivity.
Qed.

(** A file with no message, no enum and no service at its top level (only
    imports, a package, options, extensions, empty declarations) is never
    written and never recorded as rendered, in the dry pass or the final one,
    whatever the graph says. *)
Theorem file_without_declarations_is_dropped
    (dry_run : bool) (f : SourceFile) (self : ProtoModifier) (written : Written) :
  forallb raises_no_flag (fileElement (tree f)) = true ->
  let st' := regenerate_files dry_run f (self, written) in
  snd st' = written /\ rendered_files (fst st') = rendered_files self.
Proof.
  intros Ha st'. subst st'. unfold regenerate_files.
  pose proof (preserves_generate_file true (method_symbols (tree f)) (tree f)
                (fun _ => eq_refl) (incl_refl _) self) as (_ & _ & Rf & _).
  unfold regenerate_file.
  destruct (generate_file (tree f) self) as [[[output flag]|e] self'] eqn:E;
    cbn [snd fst] in *; [|split; [reflexivity | exact Rf]].
  assert (flag = false) as ->.
  { unfold generate_file in E. apply bind_ok in E as ([body srt] & s1 & H1 & H).
    apply ret_ok in H as [H _]. inversion H; subst.
    eapply for_write_flag_no_flag; eauto. }
  cbn. split; [reflexivity | exact Rf].
Qed.

(** ** The two output passes *)

Lemma regenerate_file_rendered_files tree s :
  rendered_files (snd (regenerate_file tree s)) = rendered_files s.
Proof.
  pose proof (preserves_generate_file true (method_symbols tree) tree
                (fun _ => eq_refl) (incl_refl _) s) as (_ & _ & Rf & _).
  exact Rf.
Qed.

Lemma regenerate_files_dry f self written :
  let st' := regenerate_files true f (self, written) in
  snd st' = written /\
  (rendered_files (fst st') = rendered_files self \/
   rendered_files (fst st')
   = (rendered_files self ++ [Py.os_path_join (relative_path f) (file f)])%list).
Proof.
  cbn zeta. unfold regenerate_files.
  pose proof (regenerate_file_rendered_files (tree f) self) as Rf.
  destruct (regenerate_file (tree f) self) as [[[output flag]|e] self']; cbn [snd] in Rf.
  - destruct flag; cbn.
    + split; [reflexivity|]. right. rewrite Rf. reflexivity.
    + split; [reflexivity|]. left. exact Rf.
  - cbn. split; [reflexivity|]. left. exact Rf.
Qed.

Lemma regenerate_files_final f self written :
  let st' := regenerate_files false f (self, written) in
  rendered_files (fst st') = rendered_files self /\
  (snd st' = written \/
   exists output, snd st' = (written ++ [(relative_path f, file f, output)])%list).
Proof.
  cbn zeta. unfold regenerate_files.
  pose proof (regenerate_file_rendered_files (tree f) self) as Rf.
  destruct (regenerate_file (tree f) self) as [[[output flag]|e] self']; cbn [snd] in Rf.
  - destruct flag; cbn.
    + split; [exact Rf|]. right. exists output. reflexivity.
    + split; [exact Rf|]. left. reflexivity.
  - cbn. split; [exact Rf|]. left. reflexivity.
Qed.

Lemma output_processor_dry files : forall st,
  let st' := output_processor true files st in
  snd st' = snd st /\
  exists recorded,
    rendered_files (fst st') = (rendered_files (fst st) ++ recorded)%list /\
    length recorded <= length files /\
    forall x, In x recorded ->
      exists f, In f files /\ x = Py.os_path_join (relative_path f) (file f).
Proof.
  induction files as [|f rest IH]; intros [self written]; cbn zeta.
  - cbn. split; [reflexivity|]. exists []. rewrite app_nil_r.
    split; [reflexivity|]. split; [simpl; lia|]. intros x [].
  - unfold output_processor. cbn [fold_left].
    pose proof (regenerate_files_dry f self written) as (W & Rf). cbn zeta in W, Rf.
    destruct (regenerate_files true f (self, written)) as [self1 written1].
    cbn [fst snd] in W, Rf. subst written1.
    destruct (IH (self1, written)) as (W2 & recorded & E & L & Hrec).
    unfold output_processor in W2, E. cbn [fst snd] in *.
    split; [exact W2|].
    destruct Rf as [Rf|Rf]; rewrite Rf in E.
    + exists recorded. split; [exact E|]. split; [simpl; lia|].
      intros x Hx. destruct (Hrec x Hx) as (f' & Hf' & Ex). exists f'.
        split; [right; exact Hf' | exact Ex].
    + exists (Py.os_path_join (relative_path f) (file f) :: recorded).
      split; [rewrite E, <- app_assoc; reflexivity|]. split; [simpl; lia|].
      intros x [<-|Hx].
      * exists f. split; [left; reflexivity | reflexivity].
      * destruct (Hrec x Hx) as (f' & Hf' & Ex). exists f'.
        split; [right; exact Hf' | exact Ex].
Qed.

Lemma output_processor_final files : forall st,
  let st' := output_processor false files st in
  rendered_files (fst st') = rendered_files (fst st) /\
  exists added,
    snd st' = (snd st ++ added)%list /\
    length added <= length files /\
    forall w, In w added ->
      exists f, In f files /\ fst w = (relative_path f, file f).
Proof.
  induction files as [|f rest IH]; intros [self written]; cbn zeta.
  - cbn. split; [reflexivity|]. exists []. rewrite app_nil_r.
    split; [reflexivity|]. split; [simpl; lia|]. intros x [].
  - unfold output_processor. cbn [fold_left].
    pose proof (regenerate_files_final f self written) as (Rf & W). cbn zeta in W, Rf.
    destruct (regenerate_files false f (self, written)) as [self1 written1].
    cbn [fst snd] in W, Rf.
    destruct W as [->|(output & ->)];
      [destruct (IH (self1, written)) as (Rf2 & added & E & L & Hadd)
      |destruct (IH (self1, (written ++ [(relative_path f, file f, output)])%list))
         as (Rf2 & added & E & L & Hadd)];
      unfold output_processor in Rf2, E; cbn [fst snd] in *;
      (split; [exact (eq_trans Rf2 Rf)|]).
    + exists added. split; [exact E|]. split; [simpl; lia|].
      intros x Hx. destruct (Hadd x Hx) as (f' & Hf' & Ex). exists f'.
        split; [right; exact Hf' | exact Ex].
    + exists ((relative_path f, file f, output) :: added).
      split; [etransitivity; [exact E|]; rewrite <- app_assoc; reflexivity|]. split; [simpl; lia|].
      intros x [<-|Hx].
      * exists f. split; [left; reflexivity | reflexivity].
      * destruct (Hadd x Hx) as (f' & Hf' & Ex). exists f'.
        split; [right; exact Hf' | exact Ex].
Qed.

Lemma create_usage_graph_rendered_files tree s :
  rendered_files (snd (create_usage_graph tree false s)) = rendered_files s.
Proof.
  pose proof (preserves_generate_file true (method_symbols tree) tree
                (fun _ => eq_refl) (incl_refl _) (with_phase true s)) as (_ & _ & Rf & _).
  unfold create_usage_graph, bind, modify, ret, get. cbn in *.
  destruct (generate_file tree (with_phase true s)) as [[r|e] s1]; cbn in *; exact Rf.
Qed.

Lemma build_graphs_rendered_files files : forall s,
  rendered_files (snd (build_graphs files s)) = rendered_files s.
Proof.
  induction files as [|f rest IH]; intros s; cbn [build_graphs].
  - reflexivity.
  - pose proof (create_usage_graph_rendered_files (tree f) s) as Rf.
    unfold bind. destruct (create_usage_graph (tree f) false s) as [[g|e] s1];
      cbn [snd] in *.
    + rewrite IH. exact Rf.
    + exact Rf.
Qed.

(** A run that completes writes at most one file for each input file, each
    at the relative path and name of an input file, and the recorded files it
    ends with are joined paths of input files, at most one for each. *)
Theorem run_writes_only_input_paths
    (option_name : option (list string)) (files : list SourceFile)
    (self : ProtoModifier) (written : Written) :
  main option_name files = Done self written ->
  length written <= length files /\
  (forall w, In w written ->
     exists f, In f files /\ fst w = (relative_path f, file f)) /\
  length (rendered_files self) <= length files /\
  (forall x, In x (rendered_files self) ->
     exists f, In f files /\ x = Py.os_path_join (relative_path f) (file f)).
Proof.
  unfold main.
  pose proof (build_graphs_rendered_files files (init option_name)) as Rb.
  destruct (build_graphs files (init option_name)) as [[u|e] s0]; [|discriminate].
  cbn [snd] in Rb.
  destruct (update_should_render_state propagation_stack (usage_nodes s0)) as [g|];
    [|discriminate].
  pose proof (output_processor_dry files (with_usage_nodes g s0, []))
    as (W1 & recorded & E1 & L1 & H1).
  cbn zeta in *.
  destruct (output_processor true files (with_usage_nodes g s0, [])) as [s1 w1].
  cbn [fst snd] in *. subst w1.
  match goal with
  | |- context [output_processor false files ?st] =>
      pose proof (output_processor_final files st) as (Rf2 & added & E2 & L2 & H2);
      cbn zeta in *;
      destruct (output_processor false files st) as [s2 w2]
  end.
  cbn [fst snd] in *.
  intros H. injection H as <- <-.
  cbn [with_usage_nodes rendered_files] in E1. rewrite Rb in E1.
  cbn [init rendered_files app] in E1, E2. subst w2. rewrite Rf2, E1.
  split; [exact L2|]. split; [exact H2|]. split; [exact L1 | exact H1].
Qed.

(** ** Propagation, again *)

Lemma mark_alive k g : alive g k = true -> mark k g = g.
Proof.
  unfold alive, mark. induction g as [|[k0 n] rest IH]; simpl; [reflexivity|].
  eqb_cases k k0.
  - intros H. destruct n; simpl in *. subst. reflexivity.
  - intros H. rewrite (IH H). reflexivity.
Qed.

Lemma for_children_all_alive call g cs :
  (forall c, In c cs -> alive g c = true) -> for_children call g cs = Some g.
Proof.
  induction cs as [|c rest IH]; intros H; simpl; [reflexivity|].
  rewrite (H c (or_introl eq_refl)). apply IH. intros c' Hc'. apply H. right. exact Hc'.
Qed.

Lemma each_of_full depth g u :
  full g u -> update_should_render_state_each (S depth) g u = Some g.
Proof.
  intros F. cbn [update_should_render_state_each]. apply for_children_all_alive. exact F.
Qed.

Lemma loop_of_closed depth g nodes :
  (forall r, root g r -> alive g r = true /\ full g r) ->
  update_should_render_state_loop (S depth) g nodes = Some g.
Proof.
  intros C. induction nodes as [|u rest IH]; [reflexivity|].
  cbn [update_should_render_state_loop]. unfold update_should_render_state_node.
  assert (E1 : (if is_rpc g u && alive g u
                then update_should_render_state_each (S depth) g u else Some g) = Some g).
  { destruct (is_rpc g u && alive g u) eqn:E; [|reflexivity].
    apply andb_true_iff in E as [E1 E2]. apply each_of_full. apply C. left. auto. }
  rewrite E1.
  destruct (is_google_protobuf g u) eqn:E2.
  - destruct (C u (or_intror E2)) as [A F].
    rewrite (mark_alive u g A), (each_of_full depth g u F). exact IH.
  - exact IH.
Qed.

(** Propagation is idempotent: on a graph whose children are all symbols of
    the graph, with a stack deeper than the number of symbols that are not
    rendered, it returns, and a second propagation over its result returns
    that result unchanged. *)
Theorem propagation_is_idempotent (g : UsageNodes) (depth : nat) :
  well_formed g -> dead_count g < depth ->
  exists g', update_should_render_state depth g = Some g' /\
             update_should_render_state depth g' = Some g'.
Proof.
  intros W D.
  destruct (update_should_render_state_correct g depth W D) as (g' & E & G & I2 & I3 & I4).
  exists g'. split; [exact E|].
  destruct depth as [|d]; [lia|].
  unfold update_should_render_state. apply loop_of_closed.
  intros r Hr.
  assert (Hr0 : root g r \/ (alive g' r = true /\ full g' r)).
  { destruct Hr as [[K A]|P].
    - rewrite (grows_is_rpc g g' r G) in K.
      destruct (I2 r A) as [A0|F]; [left; left; auto | right; auto].
    - rewrite (grows_is_google_protobuf g g' r G) in P. left. right. exact P. }
  destruct Hr0 as [Hr0|H]; [|exact H].
  apply I3; [|exact Hr0].
  apply lookup_in_keys. apply root_stored. exact Hr0.
Qed.

Lemma for_children_deeper call1 call2 :
  (forall g u g', call1 g u = Some g' -> call2 g u = Some g') ->
  forall cs g g', for_children call1 g cs = Some g' -> for_children call2 g cs = Some g'.
Proof.
  intros H cs. induction cs as [|c rest IH]; intros g g'; simpl; [auto|].
  destruct (alive g c); [apply IH|].
  destruct (call1 (mark c g) c) as [g1|] eqn:E; [|discriminate].
  rewrite (H _ _ _ E). apply IH.
Qed.

Lemma each_deeper d : forall g u g',
  update_should_render_state_each d g u = Some g' ->
  update_should_render_state_each (S d) g u = Some g'.
Proof.
  induction d as [|d IH]; intros g u g' H; [discriminate|].
  cbn [update_should_render_state_each] in H.
  change (for_children (update_should_render_state_each (S d)) g (children_of g u)
          = Some g').
  eapply for_children_deeper; [|exact H]. exact IH.
Qed.

Lemma each_deeper_le d d' g u g' :
  d <= d' ->
  update_should_render_state_each d g u = Some g' ->
  update_should_render_state_each d' g u = Some g'.
Proof.
  intros L. induction L as [|d' L IH]; [auto|]. intros H. apply each_deeper. auto.
Qed.

(** What propagation returns does not depend on how deep the stack is: when
    it returns with a stack of [d] frames, it returns the same graph with any
    deeper stack. *)
Theorem propagation_result_is_independent_of_the_stack
    (d d' : nat) (g g' : UsageNodes) :
  d <= d' ->
  update_should_render_state d g = Some g' ->
  update_should_render_state d' g = Some g'.
Proof.
  intros L. unfold update_should_render_state. generalize (map fst g) as nodes.
  intros nodes. revert g. induction nodes as [|u rest IH]; intros g; [auto|].
  cbn [update_should_render_state_loop]. unfold update_should_render_state_node.
  destruct (is_rpc g u && alive g u).
  - destruct (update_should_render_state_each d g u) as [g1|] eqn:E1; [|discriminate].
    rewrite (each_deeper_le d d' g u g1 L E1).
    destruct (is_google_protobuf g1 u).
    + destruct (update_should_render_state_each d (mark u g1) u) as [g2|] eqn:E2;
        [|discriminate].
      rewrite (each_deeper_le d d' _ u g2 L E2). apply IH.
    + apply IH.
  - destruct (is_google_protobuf g u).
    + destruct (update_should_render_state_each d (mark u g) u) as [g2|] eqn:E2;
        [|discriminate].
      rewrite (each_deeper_le d d' _ u g2 L E2). apply IH.
    + apply IH.
Qed.

(** Propagation only raises flags: the graph it returns has the same symbols
    in the same order, each with the kind, the package, the name and the
    children it had. *)
Theorem propagation_keeps_the_graph_shape (depth : nat) (g g' : UsageNodes) :
  update_should_render_state depth g = Some g' ->
  map fst g' = map fst g /\
  forall k, kind_of g' k = kind_of g k /\
            package_of g' k = package_of g k /\
            children_of g' k = children_of g k.
Proof.
  intros H. apply update_should_render_state_grows in H.
  split; [apply grows_keys; exact H|].
  intros k. pose proof (grows_lookup g g' k H) as L.
  split; [|split].
  - unfold kind_of. destruct (lookup k g) as [n|].
    + destruct L as (n' & -> & _ & K & _). simpl in *. f_equal. exact K.
    + rewrite L. reflexivity.
  - unfold package_of. destruct (lookup k g) as [n|].
    + destruct L as (n' & -> & _ & _ & P & _). simpl in *. f_equal. exact P.
    + rewrite L. reflexivity.
  - apply grows_children. exact H.
Qed.

(** ** The edges of the graph *)

Lemma edge_update k f g a b :
  (forall n, incl (children n) (children (f n))) ->
  edge g a b -> edge (update k f g) a b.
Proof.
  intros Hf. unfold edge. rewrite children_of_update. unfold children_of.
  destruct (NodeRef_eqb a k); [|auto]. destruct (lookup a g); [|auto]. apply Hf.
Qed.

Lemma edge_insert_new k n g a b : edge g a b -> edge (insert_new k n g) a b.
Proof.
  unfold edge, children_of. rewrite lookup_insert_new.
  destruct (lookup a g); [auto | intros []].
Qed.

Lemma stored_insert_new k n g x :
  lookup x g <> None -> lookup x (insert_new k n g) <> None.
Proof. rewrite lookup_insert_new. destruct (lookup x g); congruence. Qed.

Lemma kind_of_update k f g x :
  (forall n, kind (f n) = kind n) -> kind_of (update k f g) x = kind_of g x.
Proof.
  intros Hf. unfold kind_of. rewrite lookup_update.
  destruct (NodeRef_eqb x k); [|reflexivity].
  destruct (lookup x g); simpl; [rewrite Hf|]; reflexivity.
Qed.

Lemma kind_of_insert_new k n g x :
  lookup x g <> None -> kind_of (insert_new k n g) x = kind_of g x.
Proof.
  unfold kind_of. rewrite lookup_insert_new. destruct (lookup x g); congruence.
Qed.

Lemma incl_add_child c n : incl (children n) (children (add_child c n)).
Proof. destruct n; simpl. apply incl_appl, incl_refl. Qed.

Lemma registers_parent key parent kd g g1 :
  lookup key g1 <> None ->
  (forall x, lookup x g <> None -> lookup x g1 <> None) ->
  (forall a b, edge g a b -> edge g1 a b) ->
  match kd with
  | Some k => kind_of g1 key = Some k
  | None => forall x, lookup x g <> None -> kind_of g1 x = kind_of g x
  end ->
  registers key parent kd g
    (match parent with
     | Some q => update q (add_child key) g1
     | None => g1
     end).
Proof.
  intros St Keep Ed Kd. destruct parent as [q|].
  - split; [apply lookup_update_stored; exact St|].
    split; [intros x Hx; apply lookup_update_stored; auto|].
    split; [intros a b H; apply edge_update; [apply incl_add_child | auto]|].
    split.
    + intros q' E Hq. injection E as <-. unfold edge. rewrite children_of_update.
      rewrite NodeRef_eqb_refl. specialize (Keep q Hq).
      destruct (lookup q g1) as [n|]; [|congruence].
      destruct n; simpl. apply in_or_app. right. left. reflexivity.
    + destruct kd as [k|].
      * rewrite kind_of_update; [exact Kd | intros n; destruct n; reflexivity].
      * intros x Hx. rewrite kind_of_update; [auto | intros n; destruct n; reflexivity].
  - split; [exact St|]. split; [exact Keep|]. split; [exact Ed|].
    split; [intros q E; discriminate | exact Kd].
Qed.

Lemma resolve_in_table_registers p m parent kd s :
  usage_graph_creation_phase s = true ->
  exists s',
    resolve_in_table p m parent kd s = (Ok (Some (p, m)), s') /\
    usage_graph_creation_phase s' = true /\
    package_name s' = package_name s /\
    include_rpc_with_option_names s' = include_rpc_with_option_names s /\
    registers (p, m) parent kd (usage_nodes s) (usage_nodes s').
Proof.
  intros Ph. unfold resolve_in_table, bind, get. cbn. rewrite Ph.
  destruct (lookup (p, m) (usage_nodes s)) as [n|] eqn:L; [destruct kd as [k|]|];
    destruct parent as [q|];
    (eexists; split; [reflexivity|]; split; [exact Ph|];
     split; [reflexivity|]; split; [reflexivity|]);
    cbn [usage_nodes with_usage_nodes].
  - apply (registers_parent (p, m) (Some q) (Some k)).
    + apply lookup_update_stored. congruence.
    + intros x Hx. apply lookup_update_stored. exact Hx.
    + intros a b H. apply edge_update; [intros x; destruct x; apply incl_refl | exact H].
    + unfold kind_of. rewrite lookup_update, NodeRef_eqb_refl, L. reflexivity.
  - apply (registers_parent (p, m) None (Some k)).
    + apply lookup_update_stored. congruence.
    + intros x Hx. apply lookup_update_stored. exact Hx.
    + intros a b H. apply edge_update; [intros x; destruct x; apply incl_refl | exact H].
    + unfold kind_of. rewrite lookup_update, NodeRef_eqb_refl, L. reflexivity.
  - apply (registers_parent (p, m) (Some q) None); auto. congruence.
  - apply (registers_parent (p, m) None None); auto. congruence.
  - apply (registers_parent (p, m) (Some q) kd).
    + rewrite lookup_insert_new, L, NodeRef_eqb_refl. discriminate.
    + intros x. apply stored_insert_new.
    + intros a b. apply edge_insert_new.
    + destruct kd as [k|].
      * unfold kind_of. rewrite lookup_insert_new, L, NodeRef_eqb_refl. reflexivity.
      * intros x. apply kind_of_insert_new.
  - apply (registers_parent (p, m) None kd).
    + rewrite lookup_insert_new, L, NodeRef_eqb_refl. discriminate.
    + intros x. apply stored_insert_new.
    + intros a b. apply edge_insert_new.
    + destruct kd as [k|].
      * unfold kind_of. rewrite lookup_insert_new, L, NodeRef_eqb_refl. reflexivity.
      * intros x. apply kind_of_insert_new.
Qed.

Lemma resolve_registers type_name parent kd s p :
  usage_graph_creation_phase s = true ->
  package_name s = Some p ->
  simple_name type_name ->
  exists s',
    resolve type_name parent kd s = (Ok (Some (p, type_name)), s') /\
    usage_graph_creation_phase s' = true /\
    package_name s' = Some p /\
    include_rpc_with_option_names s' = include_rpc_with_option_names s /\
    registers (p, type_name) parent kd (usage_nodes s) (usage_nodes s').
Proof.
  intros Ph Pk [Hs Hn]. unfold resolve, recursion_limit.
  rewrite (create_unqualified 999 type_name parent kd s Hs Hn), Pk.
  destruct (resolve_in_table_registers p type_name parent kd s Ph)
    as (s' & E & Ph' & Pk' & In' & R).
  exists s'. rewrite Pk' . auto.
Qed.

(** In the graph build, a field and a map field make their type a child of
    the enclosing message: with a package declared, a type name without a dot
    that is no scalar keyword, and the enclosing symbol in the graph, the
    walk returns and leaves the type stored under the package, with an edge
    from the enclosing symbol to it. *)
Theorem field_type_becomes_a_child
    (field : FieldDecl) (map_field : MapFieldDecl) (parent : NodeRef)
    (p : string) (s : ProtoModifier) :
  usage_graph_creation_phase s = true ->
  package_name s = Some p ->
  lookup parent (usage_nodes s) <> None ->
  (simple_name (fd_typeName field) ->
   exists text s',
     generate_field_decl field (Some parent) s = (Ok text, s') /\
     lookup (p, fd_typeName field) (usage_nodes s') <> None /\
     edge (usage_nodes s') parent (p, fd_typeName field)) /\
  (simple_name (mf_typeName map_field) ->
   exists text s',
     generate_map_field_decl map_field (Some parent) s = (Ok text, s') /\
     lookup (p, mf_typeName map_field) (usage_nodes s') <> None /\
     edge (usage_nodes s') parent (p, mf_typeName map_field)).
Proof.
  intros Ph Pk St. split; intros Hn.
  - destruct (resolve_registers _ (Some parent) None s p Ph Pk Hn)
      as (s' & E & _ & _ & _ & (A & _ & _ & B & _)).
    unfold generate_field_decl, bind. rewrite E. cbn.
    do 2 eexists. split; [reflexivity|]. split; [exact A | exact (B parent eq_refl St)].
  - destruct (resolve_registers _ (Some parent) None s p Ph Pk Hn)
      as (s' & E & _ & _ & _ & (A & _ & _ & B & _)).
    unfold generate_map_field_decl, generate_map_type, bind. rewrite E. cbn.
    do 2 eexists. split; [reflexivity|]. split; [exact A | exact (B parent eq_refl St)].
Qed.

(** In the graph build, a method declaration stores its symbol with the kind
    [Rpc] and makes its request and its response type children of it: with a
    package declared and names without dots that are no scalar keywords, the
    walk returns, and propagation from the method reaches both types. *)
Theorem rpc_types_become_children
    (node : MethodDecl) (indent : nat) (p : string) (s : ProtoModifier) :
  usage_graph_creation_phase s = true ->
  package_name s = Some p ->
  simple_name (methodName node) ->
  simple_name (mt_typeName (inputType node)) ->
  simple_name (mt_typeName (outputType node)) ->
  exists text flag s',
    generate_method_decl node indent s = (Ok (text, flag), s') /\
    kind_of (usage_nodes s') (p, methodName node) = Some Rpc /\
    alive (usage_nodes s') (p, methodName node) = flag /\
    edge (usage_nodes s') (p, methodName node) (p, mt_typeName (inputType node)) /\
    edge (usage_nodes s') (p, methodName node) (p, mt_typeName (outputType node)) /\
    lookup (p, mt_typeName (inputType node)) (usage_nodes s') <> None /\
    lookup (p, mt_typeName (outputType node)) (usage_nodes s') <> None.
Proof.
  intros Ph Pk Hm Hi Ho.
  set (rpc := (p, methodName node)).
  destruct (resolve_registers _ None (Some Rpc) s p Ph Pk Hm)
    as (s1 & E1 & Ph1 & Pk1 & _ & (A1 & _ & _ & _ & K1)).
  destruct (resolve_registers _ (Some rpc) None s1 p Ph1 Pk1 Hi)
    as (s2 & E2 & Ph2 & Pk2 & _ & (A2 & S2 & _ & B2 & K2)).
  destruct (resolve_registers _ (Some rpc) None s2 p Ph2 Pk2 Ho)
    as (s3 & E3 & Ph3 & Pk3 & _ & (A3 & S3 & D3 & B3 & K3)).
  fold rpc in A1, K1.
  assert (F : forall flag,
            let g' := update rpc (set_should_render flag) (usage_nodes s3) in
            kind_of g' rpc = Some Rpc /\
            alive g' rpc = flag /\
            edge g' rpc (p, mt_typeName (inputType node)) /\
            edge g' rpc (p, mt_typeName (outputType node)) /\
            lookup (p, mt_typeName (inputType node)) g' <> None /\
            lookup (p, mt_typeName (outputType node)) g' <> None).
  { intros flag g'. subst g'.
    assert (Hset : forall n, incl (children n) (children (set_should_render flag n)))
      by (intros n; destruct n; apply incl_refl).
    split; [|split; [|split; [|split; [|split]]]].
    - rewrite kind_of_update by (intros n; destruct n; reflexivity).
      rewrite (K3 rpc (S2 rpc A1)), (K2 rpc A1). exact K1.
    - apply alive_update_should_render. auto.
    - apply edge_update; [exact Hset|]. apply D3. exact (B2 rpc eq_refl A1).
    - apply edge_update; [exact Hset|]. exact (B3 rpc eq_refl (S2 rpc A1)).
    - apply lookup_update_stored. auto.
    - apply lookup_update_stored. exact A3. }
  subst rpc.
  unfold generate_method_decl, generate_input_type, generate_output_type,
    generate_message_type.
  unfold bind at 1. rewrite E1. cbv beta iota.
  unfold bind at 1. unfold bind at 1. rewrite E2. unfold ret at 1. cbv beta iota.
  unfold bind at 1. unfold bind at 1. rewrite E3. unfold ret at 1. cbv beta iota.
  destruct (methodElement node) as [elements|].
  - destruct (for_write_flag_method_elements elements (indent + 1) s3) as (t & Et).
    unfold bind at 1. unfold bind at 1. rewrite Et. cbv beta iota.
    unfold ret at 1. cbv beta iota.
    unfold bind, assign_should_render, modify_nodes, modify, ret.
    do 3 eexists. split; [reflexivity|]. cbn [snd usage_nodes with_usage_nodes]. apply F.
  - unfold bind, assign_should_render, modify_nodes, modify, ret.
    do 3 eexists. split; [reflexivity|]. cbn [snd usage_nodes with_usage_nodes]. apply F.
Qed.

(** In the graph build, a message declared inside another symbol becomes a
    child of it: when the walk of the declaration returns, the message is
    stored under the package, with an edge from the enclosing symbol, and the
    flag the walk returns is the one the message had before the walk. *)
Theorem nested_message_becomes_a_child
    (message_name : string) (elements : list MessageElement) (indent : nat)
    (parent : NodeRef) (p : string) (s s' : ProtoModifier) (text : string) (flag : bool) :
  usage_graph_creation_phase s = true ->
  package_name s = Some p ->
  simple_name message_name ->
  lookup parent (usage_nodes s) <> None ->
  generate_message_decl (mkMessageDecl message_name elements) indent (Some parent) s
  = (Ok (text, flag), s') ->
  lookup (p, message_name) (usage_nodes s') <> None /\
  edge (usage_nodes s') parent (p, message_name) /\
  flag = alive (usage_nodes s) (p, message_name).
Proof.
  intros Ph Pk Hn St H.
  pose proof (generate_message_decl_flag _ _ _ _ _ _ _ _ _ Pk (proj1 Hn) H) as Fl.
  cbn [generate_message_decl] in H.
  apply bind_ok in H as (usage_node & s1 & H0 & H).
  apply bind_ok in H as (flag0 & s2 & H1 & H).
  apply bind_ok in H as (body & s3 & H2 & H).
  apply bind_ok in H as (r & s4 & H3 & H).
  apply ret_ok in H as [_ <-].
  assert (F : frame false [] s s3).
  { apply (frame_trans false [] s s1 s3);
      [eapply preserves_run; [apply preserves_resolve | exact H0]|].
    apply (frame_trans false [] s1 s2 s3);
      [eapply preserves_run; [apply preserves_determine_node_state | exact H1]|].
    eapply preserves_run; [|exact H2].
    apply preserves_for_write; [apply frame_refl | apply frame_trans |].
    apply Forall_forall. intros x _.
    apply preserves_generate_message_element. }
  destruct F as (_ & Ph3 & _ & Pk3 & G & _).
  rewrite Ph in Ph3. rewrite <- (Pk3 eq_refl) in Pk.
  destruct (resolve_registers message_name (Some parent) None s3 p Ph3 Pk Hn)
    as (s4' & E & _ & _ & _ & (A & _ & _ & B & _)).
  rewrite E in H3. injection H3 as _ <-.
  split; [exact A|]. split; [|exact Fl].
  apply (B parent eq_refl). apply (graph_le_lookup [] _ _ parent G St).
Qed.

(** ** Services *)

Lemma generate_service_element_flag e indent s text flag s' :
  write_if_rendered (generate_service_element e indent) s = (Ok (text, flag), s') ->
  include_rpc_with_option_names s' = include_rpc_with_option_names s /\
  flag = match e with
         | ServiceMethodDecl m =>
             existsb (option_qualifies (include_rpc_with_option_names s)) (method_options m)
         | _ => false
         end.
Proof.
  unfold write_if_rendered. intros H.
  apply bind_ok in H as ([res sr] & s1 & H1 & H). apply ret_ok in H as [E <-].
  injection E as _ <-.
  destruct e as [o|m|]; cbn [generate_service_element] in H1.
  - apply bind_ok in H1 as (r & s2 & H1 & H). apply ret_ok in H as [E <-].
    injection E as _ <-. unfold generate_option_decl, bind, get, ret in H1.
    injection H1 as _ <-. auto.
  - apply bind_ok in H1 as ([res' sr'] & s2 & H1 & H). apply ret_ok in H as [E <-].
    injection E as _ <-. rewrite orb_false_r.
    split.
    + pose proof (preserves_run _ _ _ _ _
                    (preserves_generate_method_decl false [resolved_name (methodName m)]
                       m indent (or_introl eq_refl)) H1) as (I & _).
      exact I.
    + apply (generate_method_decl_ok _ _ _ _ _ _ H1).
  - apply ret_ok in H1 as [E <-]. injection E as _ <-. auto.
Qed.

(** The flag of a service, on which its file counts as rendered, is raised
    exactly when one of its methods is retained: when the body of a method of
    the service has an option that counts under the filter. *)
Theorem service_is_flagged_iff_a_method_is_retained
    (node : ServiceDecl) (indent : nat) (s s' : ProtoModifier) (text : string) (flag : bool) :
  generate_service_decl node indent s = (Ok (text, flag), s') ->
  (flag = true <->
   exists m, In (ServiceMethodDecl m) (serviceElement node) /\
             existsb (option_qualifies (include_rpc_with_option_names s))
                     (method_options m) = true).
Proof.
  unfold generate_service_decl. intros H.
  apply bind_ok in H as ([body srt] & s1 & H1 & H). apply ret_ok in H as [E _].
  injection E as _ <-. clear text.
  revert s body srt s1 H1. generalize (serviceElement node) as elements.
  induction elements as [|e rest IH]; intros s body srt s1 H.
  - apply ret_ok in H as [E _]. injection E as _ <-.
    split; [discriminate | intros (m & [] & _)].
  - cbn [for_write_flag] in H.
    apply bind_ok in H as ([res sr] & s2 & H1 & H).
    apply bind_ok in H as ([out srt'] & s3 & H2 & H).
    apply ret_ok in H as [E _]. injection E as _ <-.
    destruct (generate_service_element_flag _ _ _ _ _ _ H1) as (I & F).
    specialize (IH _ _ _ _ H2). rewrite I in IH.
    rewrite orb_true_iff, IH. split.
    + intros [A|(m & Hin & Hm)].
      * destruct e as [o|m|]; subst sr; try discriminate.
        exists m. split; [left; reflexivity | exact A].
      * exists m. split; [right; exact Hin | exact Hm].
    + intros (m & [->|Hin] & Hm).
      * left. subst sr. exact Hm.
      * right. exists m. auto.
Qed.

(** ** Enums and extensions in the graph build *)

Lemma enum_elements_run elements indent s :
  forallb (fun e => negb (is_enum_option e)) elements = true ->
  exists body,
    for_write (fun child => generate_enum_element child indent) elements s = (Ok body, s).
Proof.
  induction elements as [|e rest IH]; cbn [forallb for_write]; intros H.
  - eexists; reflexivity.
  - apply andb_true_iff in H as [He Hr]. destruct (IH Hr) as (b & Eb).
    destruct e; try discriminate He; cbn; unfold bind; rewrite Eb; eexists; reflexivity.
Qed.

(** In the graph build, the declaration of an enum without options takes
    over the symbol of its name: whatever kind the symbol had, a method for
    one, it is an [Enum] afterwards; its flag and the edges of the graph stay,
    and the flag is what the walk returns. *)
Theorem enum_declaration_takes_over_the_symbol
    (node : EnumDecl) (indent : nat) (p : string) (s : ProtoModifier) :
  usage_graph_creation_phase s = true ->
  package_name s = Some p ->
  simple_name (enumName node) ->
  forallb (fun e => negb (is_enum_option e)) (enumElement node) = true ->
  exists text s',
    generate_enum_decl node indent s
    = (Ok (text, alive (usage_nodes s) (p, enumName node)), s') /\
    kind_of (usage_nodes s') (p, enumName node) = Some Enum /\
    alive (usage_nodes s') (p, enumName node) = alive (usage_nodes s) (p, enumName node) /\
    forall a b, edge (usage_nodes s) a b -> edge (usage_nodes s') a b.
Proof.
  intros Ph Pk Hn He.
  destruct (resolve_registers _ None (Some Enum) s p Ph Pk Hn)
    as (s1 & E1 & _ & _ & _ & (_ & _ & D & _ & K)).
  assert (A : alive (usage_nodes s1) (p, enumName node)
              = alive (usage_nodes s) (p, enumName node)).
  { pose proof (preserves_run _ _ _ _ _ (preserves_resolve false [] _ None (Some Enum)) E1)
      as (_ & _ & _ & _ & G & _).
    apply (graph_le_alive [] _ _ _ G). simpl; tauto. }
  destruct (enum_elements_run (enumElement node) (indent + 1) s1 He) as (body & Eb).
  unfold generate_enum_decl. unfold bind at 1. rewrite E1. cbv beta iota.
  unfold bind at 1. cbn [determine_node_state]. unfold bind at 1. unfold get at 1.
  cbv beta iota. unfold ret at 1. cbv beta iota.
  unfold bind at 1. rewrite Eb. cbv beta iota. unfold ret.
  rewrite A. do 2 eexists. split; [reflexivity|]. split; [exact K|]. split; [exact A | exact D].
Qed.

Lemma for_write_cons {A} (f : A -> M string) x rest s :
  for_write f (x :: rest) s
  = match f x s with
    | (Ok a, s1) =>
        match for_write f rest s1 with
        | (Ok b, s2) => (Ok (a ++ b), s2)
        | (Raise e, s2) => (Raise e, s2)
        end
    | (Raise e, s1) => (Raise e, s1)
    end.
Proof.
  cbn [for_write]. unfold bind. destruct (f x s) as [[a|e] s1]; [|reflexivity].
  destruct (for_write f rest s1) as [[b|e] s2]; reflexivity.
Qed.

Lemma extension_fields_run k p indent elements : forall s,
  usage_graph_creation_phase s = true ->
  package_name s = Some p ->
  lookup k (usage_nodes s) <> None ->
  Forall simple_extension_field elements ->
  exists body s',
    for_write (fun child => generate_extension_element child indent (Some k)) elements s
    = (Ok body, s') /\
    (forall x, lookup x (usage_nodes s) <> None -> lookup x (usage_nodes s') <> None) /\
    (forall a b, edge (usage_nodes s) a b -> edge (usage_nodes s') a b) /\
    forall f, In (ExtensionField f) elements ->
      edge (usage_nodes s') k (p, fd_typeName f) /\
      lookup (p, fd_typeName f) (usage_nodes s') <> None.
Proof.
  induction elements as [|e rest IH]; intros s Ph Pk St Hel.
  - exists "", s. split; [reflexivity|]. split; [auto|]. split; [auto|]. intros f [].
  - inversion Hel as [|e' rest' (f & -> & Hf) Hrest]; subst.
    destruct (resolve_registers _ (Some k) None s p Ph Pk Hf)
      as (s1 & E1 & Ph1 & Pk1 & _ & (A1 & S1 & D1 & B1 & _)).
    destruct (IH s1 Ph1 Pk1 (S1 k St) Hrest) as (body & s' & E2 & S2 & D2 & F2).
    assert (Eh : exists t,
               generate_extension_element (ExtensionField f) indent (Some k) s
               = (Ok t, s1)).
    { unfold generate_extension_element, generate_field_decl, bind.
      rewrite E1. eexists; reflexivity. }
    destruct Eh as (t & Eh).
    rewrite for_write_cons, Eh, E2.
    do 2 eexists. split; [reflexivity|].
    split; [intros x Hx; apply S2, S1, Hx|].
    split; [intros a b H; apply D2, D1, H|].
    intros f' [E|Hin].
    + injection E as <-. split; [apply D2; exact (B1 k eq_refl St) | apply S2; exact A1].
    + apply F2. exact Hin.
Qed.

(** In the graph build, an extension makes the types of its fields children
    of the symbol it extends: once the extended name is resolved, with fields
    of types with simple names and a package declared, the walk returns and
    each field type is stored under the package, with an edge from the
    extended symbol. *)
Theorem extension_field_types_become_children
    (type_name : string) (elements : list ExtensionElement) (indent : nat)
    (p : string) (k : NodeRef) (s s1 : ProtoModifier) :
  usage_graph_creation_phase s = true ->
  package_name s = Some p ->
  resolve type_name None (Some Extend) s = (Ok (Some k), s1) ->
  Forall simple_extension_field elements ->
  exists text s',
    generate_extension_decl (mkExtensionDecl type_name elements) indent s = (Ok text, s') /\
    forall f, In (ExtensionField f) elements ->
      edge (usage_nodes s') k (p, fd_typeName f) /\
      lookup (p, fd_typeName f) (usage_nodes s') <> None.
Proof.
  intros Ph Pk E1 Hel.
  pose proof (preserves_run _ _ _ _ _ (preserves_resolve false [] _ None (Some Extend)) E1)
    as (_ & Ph1 & _ & Pk1 & _).
  rewrite Ph in Ph1.
  assert (Pk' : package_name s1 = Some p) by (rewrite (Pk1 eq_refl); exact Pk).
  pose proof (create_ok_stored _ _ _ _ _ _ _ E1) as St.
  destruct (extension_fields_run k p (indent + 1) elements s1 Ph1 Pk' St Hel)
    as (body & s' & E2 & _ & _ & F).
  cbn [generate_extension_decl]. unfold bind at 1. rewrite E1. cbv beta iota.
  unfold bind at 1. rewrite E2. cbv beta iota. unfold ret.
  do 2 eexists. split; [reflexivity | exact F].
Qed.

(** ** The further properties at work *)

Lemma qualified_name_resolves_under_its_own_package_witness :
  create_usage_node_from_type_name 1 "a.b.Msg" None None Scenario.building_p
  = resolve_in_table "a.b" "Msg" None None Scenario.building_p /\
  fst (create_usage_node_from_type_name 1 "a.b.Msg" None None Scenario.building_p)
  = Ok (Some ("a.b", "Msg")).
Proof.
  split; [|reflexivity].
  apply (qualified_name_resolves_under_its_own_package
           0 ["a"; "b"] "Msg" None None Scenario.building_p).
  - discriminate.
  - repeat constructor.
  - split; reflexivity.
Defined.

Lemma nested_name_chains_its_segments_witness :
  let s' := snd (create_usage_node_from_type_name 2 "A.B" None None Scenario.building_p) in
  create_usage_node_from_type_name 2 "A.B" None None Scenario.building_p
  = (do parent <-
       for_intermediate (fun m par => resolve_in_table "p" m par None) ["A"] None;
     resolve_in_table "p" "B" parent None) Scenario.building_p /\
  children_of (usage_nodes s') ("p", "A") = [("p", "B")].
Proof.
  split; [|reflexivity].
  apply (nested_name_chains_its_segments 0 ["p"] ["A"; "B"] None None Scenario.building_p).
  - discriminate.
  - repeat constructor.
  - reflexivity.
  - repeat constructor.
  - simpl; lia.
Defined.

Lemma capitalised_package_exhausts_the_stack_witness :
  let s := with_package_name "Foo" (with_phase true (init None)) in
  create_usage_node_from_type_name recursion_limit "X.Y" None None s
  = (Raise RecursionError, s).
Proof.
  apply (capitalised_package_exhausts_the_stack
           recursion_limit "Foo" ["X"; "Y"] None None
           (with_package_name "Foo" (with_phase true (init None)))).
  - split; reflexivity.
  - reflexivity.
  - repeat constructor.
  - simpl; lia.
Defined.

Lemma leading_dot_raises_witness :
  resolve ".foo.Bar" None None Scenario.building_p = (Raise IndexError, Scenario.building_p).
Proof.
  apply (leading_dot_raises 999 "foo.Bar" None None Scenario.building_p).
  apply str_in_not_In. reflexivity.
Defined.

Lemma resolution_after_the_build_is_read_only_witness :
  usage_graph_creation_phase Scenario.propagated = false /\
  snd (resolve "A" (Some ("p", "C")) (Some Enum) Scenario.propagated) = Scenario.propagated.
Proof.
  split; [reflexivity|].
  apply (resolution_after_the_build_is_read_only
           recursion_limit "A" (Some ("p", "C")) (Some Enum) Scenario.propagated).
  reflexivity.
Defined.

Lemma lookup_of_a_missing_symbol_raises_witness :
  resolve "Missing" None None Scenario.propagated = (Raise KeyError, Scenario.propagated) /\
  resolve "A" None None Scenario.propagated = (Ok (Some ("p", "A")), Scenario.propagated).
Proof.
  split.
  - apply (lookup_of_a_missing_symbol_raises 999 "Missing" "p" None None Scenario.propagated);
      [reflexivity | reflexivity | reflexivity | apply str_in_not_In; reflexivity].
  - apply (lookup_of_a_missing_symbol_raises 999 "A" "p" None None Scenario.propagated);
      [reflexivity | reflexivity | reflexivity | apply str_in_not_In; reflexivity].
Defined.

Lemma rendering_keeps_the_graph_shape_witness :
  let s' := snd (regenerate_file Scenario.tree Scenario.propagated) in
  usage_graph_creation_phase Scenario.propagated = false /\
  map fst (usage_nodes s') = map fst (usage_nodes Scenario.propagated) /\
  children_of (usage_nodes s') ("p", "Get")
  = children_of (usage_nodes Scenario.propagated) ("p", "Get").
Proof.
  destruct (rendering_keeps_the_graph_shape Scenario.tree Scenario.propagated eq_refl)
    as (_ & _ & K & C).
  split; [reflexivity|]. split; [exact K | exact (proj1 (C ("p", "Get")))].
Defined.

Lemma enum_with_an_option_raises_witness :
  let node := mkEnumDecl "E" [EnumValueDecl "X = 0;"; EnumOptionDecl Scenario.tracked] in
  let s1 := snd (resolve "E" None (Some Enum) Scenario.building_p) in
  generate_enum_decl node 0 Scenario.building_p = (Raise TypeError, s1) /\
  kind_of (usage_nodes s1) ("p", "E") = Some Enum.
Proof.
  split; [|reflexivity].
  apply (enum_with_an_option_raises
           (mkEnumDecl "E" [EnumValueDecl "X = 0;"; EnumOptionDecl Scenario.tracked])
           Scenario.tracked 0 Scenario.building_p _ ("p", "E")).
  - simpl. right. left. reflexivity.
  - vm_compute. reflexivity.
Defined.

Lemma run_aborts_on_enum_option_or_extension_group_witness :
  let broken :=
    mkFile "" [] [ PackageDeclContext "q";
                   FileEnumDeclContext (mkEnumDecl "E" [EnumOptionDecl Scenario.tracked]) ] in
  exists err self,
    main (Some ["tracked"])
         [ mkSourceFile "." "a.proto" Scenario.tree; mkSourceFile "." "b.proto" broken ]
    = Crashed err self.
Proof.
  apply (run_aborts_on_enum_option_or_extension_group
           (Some ["tracked"]) _
           (mkSourceFile "." "b.proto"
              (mkFile "" [] [ PackageDeclContext "q";
                              FileEnumDeclContext
                                (mkEnumDecl "E" [EnumOptionDecl Scenario.tracked]) ]))
           (FileEnumDeclContext (mkEnumDecl "E" [EnumOptionDecl Scenario.tracked]))).
  - simpl. right. left. reflexivity.
  - simpl. right. left. reflexivity.
  - left. exists (mkEnumDecl "E" [EnumOptionDecl Scenario.tracked]), Scenario.tracked.
    split; [reflexivity | simpl; left; reflexivity].
Defined.

Lemma oneof_members_are_not_resolved_witness :
  exists text,
    generate_oneof_decl
      (mkOneofDecl "choice" [ OneofField (mkOneofFieldDecl "Unseen" "u" "1" None);
                              OneofOptionDecl Scenario.tracked ])
      1 (Some ("p", "A")) Scenario.building_p
    = (Ok text, Scenario.building_p).
Proof.
  apply (oneof_members_are_not_resolved
           "choice" [ OneofField (mkOneofFieldDecl "Unseen" "u" "1" None);
                      OneofOptionDecl Scenario.tracked ]
           1 (Some ("p", "A")) Scenario.building_p).
  reflexivity.
Defined.

Lemma option_never_matches_its_full_name_witness :
  exists text,
    generate_option_decl (mkOptionDecl "tracked" (ScalarValue "true")) 0
                         (init (Some ["tracked"]))
    = (Ok (text, false), init (Some ["tracked"])).
Proof.
  apply (option_never_matches_its_full_name
           "tracked" (ScalarValue "true") 0 (init (Some ["tracked"]))).
  - discriminate.
  - reflexivity.
Defined.

Lemma file_without_declarations_is_dropped_witness :
  let f := mkSourceFile "." "options.proto"
             (mkFile "" [] [ PackageDeclContext "p";
                             FileOptionDeclContext Scenario.tracked;
                             FileEmptyDeclContext ]) in
  snd (regenerate_files false f (Scenario.propagated, [])) = [] /\
  rendered_files (fst (regenerate_files true f (Scenario.propagated, []))) = [].
Proof.
  split.
  - apply (file_without_declarations_is_dropped false
             (mkSourceFile "." "options.proto"
                (mkFile "" [] [ PackageDeclContext "p";
                                FileOptionDeclContext Scenario.tracked;
                                FileEmptyDeclContext ]))
             Scenario.propagated []).
    reflexivity.
  - apply (file_without_declarations_is_dropped true
             (mkSourceFile "." "options.proto"
                (mkFile "" [] [ PackageDeclContext "p";
                                FileOptionDeclContext Scenario.tracked;
                                FileEmptyDeclContext ]))
             Scenario.propagated []).
    reflexivity.
Defined.

Lemma run_writes_only_input_paths_witness :
  let files := [ mkSourceFile "api" "a.proto" Scenario.tree;
                 mkSourceFile "api" "b.proto" Scenario.no_package ] in
  exists self written,
    main (Some ["tracked"]) files = Done self written /\
    List.length written <= 2 /\
    List.length (rendered_files self) <= 2.
Proof.
  cbn zeta.
  destruct (main (Some ["tracked"])
              [ mkSourceFile "api" "a.proto" Scenario.tree;
                mkSourceFile "api" "b.proto" Scenario.no_package ])
    as [self written|e self] eqn:E; [|vm_compute in E; discriminate].
  exists self, written. split; [reflexivity|].
  destruct (run_writes_only_input_paths _ _ _ _ E) as (L1 & _ & L2 & _).
  split; [exact L1 | exact L2].
Defined.

Lemma propagation_is_idempotent_witness :
  let g := Scenario.graph_of Scenario.cycle in
  well_formed g /\ dead_count g < recursion_limit /\
  exists g', update_should_render_state recursion_limit g = Some g' /\
             update_should_render_state recursion_limit g' = Some g'.
Proof.
  assert (W : well_formed (Scenario.graph_of Scenario.cycle))
    by (apply well_formedb_sound; vm_compute; reflexivity).
  assert (D : dead_count (Scenario.graph_of Scenario.cycle) < recursion_limit)
    by (apply Nat.ltb_lt; vm_compute; reflexivity).
  split; [exact W|]. split; [exact D|].
  exact (propagation_is_idempotent _ _ W D).
Defined.

Lemma propagation_result_is_independent_of_the_stack_witness :
  let g := Scenario.graph_of Scenario.cycle in
  exists g', update_should_render_state 3 g = Some g' /\
             update_should_render_state recursion_limit g = Some g'.
Proof.
  cbn zeta.
  destruct (update_should_render_state 3 (Scenario.graph_of Scenario.cycle))
    as [g'|] eqn:E; [|vm_compute in E; discriminate].
  exists g'. split; [reflexivity|].
  apply (propagation_result_is_independent_of_the_stack 3 recursion_limit _ g');
    [apply Nat.leb_le; vm_compute; reflexivity | exact E].
Defined.

Lemma propagation_keeps_the_graph_shape_witness :
  let g := Scenario.graph_of Scenario.cycle in
  exists g', update_should_render_state recursion_limit g = Some g' /\
             map fst g' = map fst g /\
             children_of g' ("p", "A") = children_of g ("p", "A").
Proof.
  cbn zeta.
  destruct (update_should_render_state recursion_limit (Scenario.graph_of Scenario.cycle))
    as [g'|] eqn:E; [|vm_compute in E; discriminate].
  exists g'. split; [reflexivity|].
  destruct (propagation_keeps_the_graph_shape _ _ _ E) as (K & C).
  split; [exact K | exact (proj2 (proj2 (C ("p", "A"))))].
Defined.

Lemma field_type_becomes_a_child_witness :
  let s := Scenario.after_forward_reference in
  exists text s',
    generate_field_decl (mkFieldDecl None "B" "b" "2" None) (Some ("p", "A")) s
    = (Ok text, s') /\
    lookup ("p", "B") (usage_nodes s') <> None /\
    edge (usage_nodes s') ("p", "A") ("p", "B").
Proof.
  destruct (field_type_becomes_a_child
              (mkFieldDecl None "B" "b" "2" None)
              (mkMapFieldDecl "string" "B" "m" "3" None)
              ("p", "A") "p" Scenario.after_forward_reference)
    as (F & _).
  - reflexivity.
  - reflexivity.
  - vm_compute. discriminate.
  - apply F. split; [reflexivity | apply str_in_not_In; reflexivity].
Defined.

Lemma rpc_types_become_children_witness :
  exists text flag s',
    generate_method_decl Scenario.Get 1 Scenario.building_p = (Ok (text, flag), s') /\
    kind_of (usage_nodes s') ("p", "Get") = Some Rpc /\
    edge (usage_nodes s') ("p", "Get") ("p", "A") /\
    edge (usage_nodes s') ("p", "Get") ("p", "B").
Proof.
  destruct (rpc_types_become_children Scenario.Get 1 "p" Scenario.building_p)
    as (text & flag & s' & E & K & _ & E1 & E2 & _).
  - reflexivity.
  - reflexivity.
  - split; [reflexivity | apply str_in_not_In; reflexivity].
  - split; [reflexivity | apply str_in_not_In; reflexivity].
  - split; [reflexivity | apply str_in_not_In; reflexivity].
  - exists text, flag, s'. split; [exact E|]. split; [exact K|]. split; [exact E1 | exact E2].
Defined.

Lemma nested_message_becomes_a_child_witness :
  let s := Scenario.after_forward_reference in
  let inner := mkMessageDecl "Inner" [Scenario.field "int32" "x" "1"] in
  exists r s',
    generate_message_decl inner 1 (Some ("p", "A")) s = (Ok r, s') /\
    edge (usage_nodes s') ("p", "A") ("p", "Inner").
Proof.
  cbn zeta.
  destruct (generate_message_decl (mkMessageDecl "Inner" [Scenario.field "int32" "x" "1"])
              1 (Some ("p", "A")) Scenario.after_forward_reference)
    as [[[text flag]|e] s'] eqn:E; [|vm_compute in E; discriminate].
  exists (text, flag), s'. split; [reflexivity|].
  apply (nested_message_becomes_a_child
           "Inner" [Scenario.field "int32" "x" "1"] 1 ("p", "A") "p"
           Scenario.after_forward_reference s' text flag).
  - reflexivity.
  - reflexivity.
  - split; [reflexivity | apply str_in_not_In; reflexivity].
  - vm_compute. discriminate.
  - exact E.
Defined.

Lemma service_is_flagged_iff_a_method_is_retained_witness :
  let node := mkServiceDecl "S" [ Scenario.rpc "Put" "A" "A" None;
                                  ServiceMethodDecl Scenario.Get ] in
  exists text s',
    generate_service_decl node 0 Scenario.building_p = (Ok (text, true), s').
Proof.
  cbn zeta.
  destruct (generate_service_decl
              (mkServiceDecl "S" [ Scenario.rpc "Put" "A" "A" None;
                                   ServiceMethodDecl Scenario.Get ])
              0 Scenario.building_p)
    as [[[text flag]|e] s'] eqn:E; [|vm_compute in E; discriminate].
  exists text, s'.
  assert (F : flag = true).
  { apply (service_is_flagged_iff_a_method_is_retained _ _ _ _ _ _ E).
    exists Scenario.Get. split; [simpl; right; left; reflexivity | reflexivity]. }
  rewrite F. reflexivity.
Defined.

Lemma enum_declaration_takes_over_the_symbol_witness :
  let s := snd (generate_method_decl Scenario.Get 1 Scenario.building_p) in
  let node := mkEnumDecl "Get" [EnumValueDecl "X = 0;"] in
  kind_of (usage_nodes s) ("p", "Get") = Some Rpc /\
  exists text s',
    generate_enum_decl node 0 s = (Ok (text, true), s') /\
    kind_of (usage_nodes s') ("p", "Get") = Some Enum /\
    alive (usage_nodes s') ("p", "Get") = true.
Proof.
  cbn zeta. split; [reflexivity|].
  destruct (enum_declaration_takes_over_the_symbol
              (mkEnumDecl "Get" [EnumValueDecl "X = 0;"]) 0 "p"
              (snd (generate_method_decl Scenario.Get 1 Scenario.building_p)))
    as (text & s' & E & K & A & _).
  - reflexivity.
  - reflexivity.
  - split; [reflexivity | apply str_in_not_In; reflexivity].
  - reflexivity.
  - exists text, s'. split; [exact E|]. split; [exact K|]. exact (eq_trans A eq_refl).
Defined.

Lemma extension_field_types_become_children_witness :
  let elements := [ExtensionField (mkFieldDecl (Some "optional") "MyOpt" "tracked" "50001" None)] in
  exists text s',
    generate_extension_decl (mkExtensionDecl "google.protobuf.MethodOptions" elements) 0
                            Scenario.building_p
    = (Ok text, s') /\
    edge (usage_nodes s') ("google.protobuf", "MethodOptions") ("p", "MyOpt").
Proof.
  cbn zeta.
  destruct (extension_field_types_become_children
              "google.protobuf.MethodOptions"
              [ExtensionField (mkFieldDecl (Some "optional") "MyOpt" "tracked" "50001" None)]
              0 "p" ("google.protobuf", "MethodOptions") Scenario.building_p
              (snd (resolve "google.protobuf.MethodOptions" None (Some Extend)
                      Scenario.building_p)))
    as (text & s' & E & F).
  - reflexivity.
  - reflexivity.
  - vm_compute. reflexivity.
  - constructor; [|constructor]. eexists. split; [reflexivity|].
    split; [reflexivity | apply str_in_not_In; reflexivity].
  - exists text, s'. split; [exact E|].
    exact (proj1 (F (mkFieldDecl (Some "optional") "MyOpt" "tracked" "50001" None)
                    (or_introl eq_refl))).
Defined.

(** * Whole runs *)

(** ** Dotted names, again *)

Lemma split_dot_append (x y : string) :
  Py.split_dot (x ++ "." ++ y) = (Py.split_dot x ++ Py.split_dot y)%list.
Proof.
  change ("." ++ y) with (String "."%char y).
  induction x as [|c x IH]; [reflexivity|].
  cbn [append Py.split_dot]. rewrite IH.
  destruct (Ascii.eqb c "."%char); [reflexivity|].
  destruct (Py.split_dot x) as [|q qs] eqn:E; [destruct (split_dot_nonempty x E)|].
  reflexivity.
Qed.

Lemma split_dot_parts_no_dot (s : string) :
  Forall (fun x => has_dot x = false) (Py.split_dot s).
Proof.
  induction s as [|c s IH]; cbn [Py.split_dot].
  - constructor; [reflexivity | constructor].
  - destruct (Ascii.eqb c "."%char) eqn:E.
    + constructor; [reflexivity | exact IH].
    + destruct (Py.split_dot s) as [|q qs]; [constructor; [|constructor]|].
      * cbn [has_dot]. rewrite E. reflexivity.
      * inversion IH; subst. constructor; [|assumption].
        cbn [has_dot]. rewrite E. assumption.
Qed.

Lemma last_split_dot_qualified (x n : string) :
  has_dot n = false -> last (Py.split_dot (x ++ "." ++ n)) "" = n.
Proof.
  intros H. rewrite split_dot_append, (split_dot_no_dot n H). apply last_last.
Qed.

Lemma names_a_symbol_qualified (x n : string) :
  has_dot n = false -> starts_upper n = true -> names_a_symbol (x ++ "." ++ n).
Proof.
  intros H U. unfold names_a_symbol. rewrite (last_split_dot_qualified x n H).
  apply starts_upper_not_scalar. exact U.
Qed.

(** ** Edges last *)

Lemma reach_mono g g' a b :
  (forall x y, edge g x y -> edge g' x y) -> reach g a b -> reach g' a b.
Proof.
  intros H R. induction R as [a|a b c E _ IH]; [apply reach_here|].
  eapply reach_next; [apply H; exact E | exact IH].
Qed.

Lemma reach_step g a b c : reach g a b -> edge g b c -> reach g a c.
Proof.
  intros R E. eapply reach_trans; [exact R|].
  eapply reach_next; [exact E | apply reach_here].
Qed.

Lemma graph_le_edge N g g' a b : graph_le N g g' -> edge g a b -> edge g' a b.
Proof.
  intros [_ H]. specialize (H a). unfold edge, children_of.
  destruct (lookup a g) as [n|]; [|intros []].
  destruct H as (n' & -> & _ & _ & _ & (l & ->)). intros E. apply in_or_app. left. exact E.
Qed.

Lemma frame_edge pk N s s' a b :
  frame pk N s s' -> edge (usage_nodes s) a b -> edge (usage_nodes s') a b.
Proof. intros (_ & _ & _ & _ & G & _). apply (graph_le_edge N _ _ a b G). Qed.

Lemma frame_stored pk N s s' k :
  frame pk N s s' -> lookup k (usage_nodes s) <> None -> lookup k (usage_nodes s') <> None.
Proof. intros (_ & _ & _ & _ & G & _). apply (graph_le_lookup N _ _ k G). Qed.

Lemma frame_reach pk N s s' a b :
  frame pk N s s' -> reach (usage_nodes s) a b -> reach (usage_nodes s') a b.
Proof. intros F. apply reach_mono. intros x y. apply (frame_edge pk N s s' x y F). Qed.

Lemma frame_phase pk N s s' :
  frame pk N s s' -> usage_graph_creation_phase s' = usage_graph_creation_phase s.
Proof. intros (_ & P & _). exact P. Qed.

Lemma frame_package N s s' : frame false N s s' -> package_name s' = package_name s.
Proof. intros (_ & _ & _ & P & _). exact (P eq_refl). Qed.

(** ** What a resolution in the graph build returns *)

Lemma create_some depth type_name parent kd s r s' :
  create_usage_node_from_type_name depth type_name parent kd s = (Ok r, s') ->
  names_a_symbol type_name ->
  exists k, r = Some k.
Proof.
  destruct depth as [|d]; cbn [create_usage_node_from_type_name]; [discriminate|].
  intros H Hn. apply str_in_not_In in Hn. rewrite Hn in H.
  destruct (Nat.ltb 1 (Datatypes.length (Py.split_dot type_name))).
  - apply bind_ok in H as (lows & s1 & _ & H).
    apply bind_ok in H as (ups & s2 & _ & H).
    apply bind_ok in H as (pkg & s3 & _ & H).
    apply bind_ok in H as (par & s4 & _ & H).
    destruct ups; [discriminate|].
    apply resolve_in_table_ok in H. eauto.
  - apply bind_ok in H as (pkg & s1 & _ & H).
    apply resolve_in_table_ok in H. eauto.
Qed.

Lemma create_scalar depth type_name parent kd s k s' :
  create_usage_node_from_type_name depth type_name parent kd s = (Ok (Some k), s') ->
  names_a_symbol type_name.
Proof.
  destruct depth as [|d]; cbn [create_usage_node_from_type_name]; [discriminate|].
  intros H. unfold names_a_symbol. apply str_in_not_In.
  destruct (Py.str_in (last (Py.split_dot type_name) "") scalar_types); [|reflexivity].
  apply ret_ok in H as [H _]. discriminate.
Qed.

Lemma read_package_name_ok s p s' :
  read_package_name s = (Ok p, s') -> package_name s = Some p /\ s' = s.
Proof.
  unfold read_package_name, bind, get. cbn.
  destruct (package_name s) as [q|]; [|discriminate].
  intros H. apply ret_ok in H as [-> ->]. auto.
Qed.

Lemma resolve_in_table_build p m parent kd s r s' :
  usage_graph_creation_phase s = true ->
  resolve_in_table p m parent kd s = (Ok r, s') ->
  r = Some (p, m) /\
  usage_graph_creation_phase s' = true /\
  package_name s' = package_name s /\
  registers (p, m) parent kd (usage_nodes s) (usage_nodes s').
Proof.
  intros Ph H.
  destruct (resolve_in_table_registers p m parent kd s Ph) as (s1 & E & Ph1 & Pk1 & _ & R).
  rewrite E in H. injection H as <- <-. auto.
Qed.

Lemma intermediate_build (call : string -> option NodeRef -> M (option NodeRef))
    (names : list string) :
  (forall n par s r s',
     In n names -> usage_graph_creation_phase s = true ->
     call n par s = (Ok r, s') ->
     frame false [] s s' /\
     exists k, r = Some k /\ lookup k (usage_nodes s') <> None /\
               forall q, par = Some q -> lookup q (usage_nodes s) <> None ->
                         reach (usage_nodes s') q k) ->
  forall par s par' s',
    usage_graph_creation_phase s = true ->
    for_intermediate call names par s = (Ok par', s') ->
    frame false [] s s' /\
    forall q, par = Some q -> lookup q (usage_nodes s) <> None ->
      exists q', par' = Some q' /\ lookup q' (usage_nodes s') <> None /\
                 reach (usage_nodes s') q q'.
Proof.
  induction names as [|n rest IH]; intros Hcall par s par' s' Ph H.
  - apply ret_ok in H as [<- <-]. split; [apply frame_refl|].
    intros q -> St. exists q. split; [reflexivity|]. split; [exact St | apply reach_here].
  - cbn [for_intermediate] in H. apply bind_ok in H as (r1 & s1 & H1 & H).
    destruct (Hcall n par s r1 s1 (or_introl eq_refl) Ph H1) as (F1 & k1 & -> & St1 & R1).
    assert (Ph1 : usage_graph_creation_phase s1 = true)
      by (rewrite (frame_phase _ _ _ _ F1); exact Ph).
    destruct (IH (fun n' par0 s0 r0 s0' Hin => Hcall n' par0 s0 r0 s0' (or_intror Hin))
                 (Some k1) s1 par' s' Ph1 H) as (F2 & R2).
    split; [eapply frame_trans; eauto|].
    intros q -> St. destruct (R2 k1 eq_refl St1) as (q' & -> & St' & R').
    exists q'. split; [reflexivity|]. split; [exact St'|].
    eapply reach_trans; [|exact R'].
    apply (frame_reach _ _ _ _ _ _ F2). exact (R1 q eq_refl St).
Qed.

(** In the graph build, a resolution that returns a symbol returns the one of
    the key [resolved_key] gives, and leaves it reachable from a stored
    parent. *)
Lemma create_build depth : forall type_name parent kd s k s',
  usage_graph_creation_phase s = true ->
  create_usage_node_from_type_name depth type_name parent kd s = (Ok (Some k), s') ->
  resolved_key (package_name s) type_name = Some k /\
  forall q, parent = Some q -> lookup q (usage_nodes s) <> None ->
            reach (usage_nodes s') q k.
Proof.
  induction depth as [|d IH]; intros type_name parent kd s k s' Ph H; [discriminate|].
  pose proof (create_usage_node_from_type_name_name _ _ _ _ _ _ _ H) as Hname.
  cbn [create_usage_node_from_type_name] in H.
  unfold resolved_key, resolved_package.
  destruct (Py.str_in (last (Py.split_dot type_name) "") scalar_types).
  { apply ret_ok in H as [H _]. discriminate. }
  destruct (Nat.ltb 1 (Datatypes.length (Py.split_dot type_name))) eqn:Hlen.
  - apply bind_ok in H as (lows & s1 & H1 & H).
    apply filter_by_first_ok in H1 as [-> ->].
    apply bind_ok in H as (ups & s2 & H2 & H).
    apply filter_by_first_ok in H2 as [-> ->].
    apply bind_ok in H as (pkg & s3 & H3 & H).
    apply bind_ok in H as (par & s4 & H4 & H).
    change (fun x : string => match first_char x with
                              | Some c => Py.islower c
                              | None => false
                              end) with starts_lower in *.
    change (fun x : string => match first_char x with
                              | Some c => Py.isupper c
                              | None => false
                              end) with starts_upper in *.
    assert (Hpkg : match filter starts_lower (Py.split_dot type_name) with
                   | [] => package_name s
                   | _ :: _ => Some (Py.join_dot (filter starts_lower (Py.split_dot type_name)))
                   end = Some pkg /\ s3 = s).
    { destruct (filter starts_lower (Py.split_dot type_name)) as [|l ls]; cbn in H3.
      - apply read_package_name_ok in H3. exact H3.
      - apply ret_ok in H3 as [<- <-]. auto. }
    destruct Hpkg as [Hpkg ->].
    assert (Hups : Forall (fun n => has_dot n = false /\ starts_upper n = true)
                          (filter starts_upper (Py.split_dot type_name))).
    { apply Forall_forall. intros n Hin. apply filter_In in Hin as [Hin U].
      pose proof (split_dot_parts_no_dot type_name) as F. rewrite Forall_forall in F.
      split; [apply F; exact Hin | exact U]. }
    destruct (intermediate_build
                (fun message_name parent0 =>
                   create_usage_node_from_type_name d (pkg ++ "." ++ message_name) parent0 kd)
                (removelast (filter starts_upper (Py.split_dot type_name))))
      with (par := parent) (s := s) (par' := par) (s' := s4) as (F4 & R4); auto.
    { intros n par0 s0 r0 s0' Hin Ph0 H0.
      apply in_removelast in Hin. rewrite Forall_forall in Hups.
      destruct (Hups n Hin) as [Hd Hu].
      split; [eapply preserves_run;
              [apply (preserves_create_usage_node_from_type_name false []) | exact H0]|].
      destruct (create_some _ _ _ _ _ _ _ H0 (names_a_symbol_qualified pkg n Hd Hu))
        as (k0 & ->).
      exists k0. split; [reflexivity|].
      split; [exact (create_ok_stored _ _ _ _ _ _ _ H0)|].
      intros q -> St. exact (proj2 (IH _ _ _ _ _ _ Ph0 H0) q eq_refl St). }
    assert (Ph4 : usage_graph_creation_phase s4 = true)
      by (rewrite (frame_phase _ _ _ _ F4); exact Ph).
    destruct (filter starts_upper (Py.split_dot type_name)) as [|u us] eqn:Eu;
      [discriminate|].
    destruct (resolve_in_table_build _ _ _ _ _ _ _ Ph4 H) as (Ek & _ & _ & Rg).
    injection Ek as ->. split.
    + destruct (filter starts_lower (Py.split_dot type_name));
        rewrite Hpkg; cbn [option_map]; rewrite <- Hname; reflexivity.
    + intros q -> St. destruct (R4 q eq_refl St) as (q' & -> & St' & R').
      destruct Rg as (_ & _ & Ed & New & _).
      eapply reach_step; [apply (reach_mono _ _ _ _ Ed); exact R' | exact (New q' eq_refl St')].
  - apply bind_ok in H as (pkg & s1 & H1 & H).
    apply read_package_name_ok in H1 as [Pk ->].
    destruct (resolve_in_table_build _ _ _ _ _ _ _ Ph H) as (Ek & _ & _ & Rg).
    injection Ek as ->. split.
    + rewrite Pk. cbn [option_map]. rewrite <- Hname. reflexivity.
    + intros q -> St. destruct Rg as (_ & _ & _ & New & _).
      eapply reach_next; [exact (New q eq_refl St) | apply reach_here].
Qed.

(** ** Where an element of a walk runs *)

Lemma keeps_refl g : keeps g g.
Proof. split; auto. Qed.

Lemma keeps_trans a b c : keeps a b -> keeps b c -> keeps a c.
Proof. intros [S1 E1] [S2 E2]. split; auto. Qed.

Lemma frame_keeps pk N s s' : frame pk N s s' -> keeps (usage_nodes s) (usage_nodes s').
Proof.
  intros F. split.
  - intros k. apply (frame_stored pk N s s' k F).
  - intros a b. apply (frame_edge pk N s s' a b F).
Qed.

Lemma keeps_reach g g' a b : keeps g g' -> reach g a b -> reach g' a b.
Proof. intros [_ E]. apply reach_mono. exact E. Qed.

Lemma declared_keeps c g g' a : keeps g g' -> declared c g a -> declared c g' a.
Proof.
  intros K (k & E & St). exists k. split; [exact E | apply (proj1 K); exact St].
Qed.

Lemma linked_keeps c g g' a t : keeps g g' -> linked c g a t -> linked c g' a t.
Proof.
  intros K (ka & kt & Ea & Et & Sa & St & R). exists ka, kt.
  split; [exact Ea|]. split; [exact Et|].
  split; [apply (proj1 K); exact Sa|]. split; [apply (proj1 K); exact St|].
  apply (keeps_reach g g'); assumption.
Qed.

Section At.
Variable R : ProtoModifier -> ProtoModifier -> Prop.
Hypothesis R_refl : forall s, R s s.
Hypothesis R_trans : forall a b c, R a b -> R b c -> R a c.

Lemma for_write_at {A} (f : A -> M string) (xs : list A) (x : A) :
  (forall y, In y xs -> preserves R (f y)) -> In x xs ->
  forall s b s', for_write f xs s = (Ok b, s') ->
  exists sa a sb, R s sa /\ f x sa = (Ok a, sb) /\ R sb s'.
Proof.
  induction xs as [|y rest IH]; intros Hf Hin s b s' H; [destruct Hin|].
  cbn [for_write] in H.
  apply bind_ok in H as (a & s1 & H1 & H).
  apply bind_ok in H as (b' & s2 & H2 & H).
  apply ret_ok in H as [_ <-].
  destruct Hin as [->|Hin].
  - exists s, a, s1. split; [apply R_refl|]. split; [exact H1|].
    eapply preserves_run; [|exact H2].
    apply (preserves_for_write R R_refl R_trans). apply Forall_forall.
    intros z Hz. apply Hf. right. exact Hz.
  - destruct (IH (fun z Hz => Hf z (or_intror Hz)) Hin s1 b' s2 H2)
      as (sa & a' & sb & Ra & Ha & Rb).
    exists sa, a', sb. split; [|auto].
    eapply R_trans; [|exact Ra].
    eapply preserves_run; [apply (Hf y); left; reflexivity | exact H1].
Qed.

Lemma for_write_flag_at {A} (f : A -> M (string * bool)) (xs : list A) (x : A) :
  (forall y, In y xs -> preserves R (f y)) -> In x xs ->
  forall s b s', for_write_flag f xs s = (Ok b, s') ->
  exists sa a sb, R s sa /\ f x sa = (Ok a, sb) /\ R sb s'.
Proof.
  induction xs as [|y rest IH]; intros Hf Hin s b s' H; [destruct Hin|].
  cbn [for_write_flag] in H.
  apply bind_ok in H as ([a fa] & s1 & H1 & H).
  apply bind_ok in H as ([b' fb] & s2 & H2 & H).
  apply ret_ok in H as [_ <-].
  destruct Hin as [->|Hin].
  - exists s, (a, fa), s1. split; [apply R_refl|]. split; [exact H1|].
    eapply preserves_run; [|exact H2].
    apply (preserves_for_write_flag R R_refl R_trans). apply Forall_forall.
    intros z Hz. apply Hf. right. exact Hz.
  - destruct (IH (fun z Hz => Hf z (or_intror Hz)) Hin s1 (b', fb) s2 H2)
      as (sa & a' & sb & Ra & Ha & Rb).
    exists sa, a', sb. split; [|auto].
    eapply R_trans; [|exact Ra].
    eapply preserves_run; [apply (Hf y); left; reflexivity | exact H1].
Qed.

End At.

(** ** The dependencies of a message *)

Lemma message_elements_at (x : MessageElement) els indent parent s b s' :
  In x els ->
  for_write (fun child => generate_message_element child indent parent) els s = (Ok b, s') ->
  exists sa a sb,
    frame false [] s sa /\ generate_message_element x indent parent sa = (Ok a, sb) /\
    frame false [] sb s'.
Proof.
  intros Hin H.
  apply (for_write_at (frame false []) (frame_refl false []) (frame_trans false [])
           (fun child => generate_message_element child indent parent) els x
           (fun y _ => preserves_generate_message_element false [] y indent parent)
           Hin s b s' H).
Qed.

Lemma message_decl_run m els indent parent s r s' :
  generate_message_decl (mkMessageDecl m els) indent parent s = (Ok r, s') ->
  exists km s1 body s3,
    resolve m parent None s = (Ok (Some km), s1) /\
    for_write (fun child => generate_message_element child (indent + 1) (Some km)) els s1
    = (Ok body, s3) /\
    frame false [] s3 s'.
Proof.
  intros H. cbn [generate_message_decl] in H.
  apply bind_ok in H as (usage_node & s1 & H0 & H).
  apply bind_ok in H as (flag0 & s2 & H1 & H).
  apply bind_ok in H as (body & s3 & H2 & H).
  apply bind_ok in H as (r2 & s4 & H3 & H).
  apply ret_ok in H as [_ <-].
  destruct usage_node as [km|]; [|discriminate].
  unfold determine_node_state, bind, get, ret in H1. injection H1 as _ <-.
  exists km, s1, body, s3. split; [exact H0|]. split; [exact H2|].
  eapply preserves_run; [apply (preserves_resolve false []) | exact H3].
Qed.

Lemma resolve_links c type_name parent kd s r sb q :
  usage_graph_creation_phase s = true ->
  package_name s = c ->
  lookup q (usage_nodes s) <> None ->
  parent = Some q ->
  resolve type_name parent kd s = (Ok r, sb) ->
  names_a_symbol type_name ->
  exists kt, r = Some kt /\ resolved_key c type_name = Some kt /\
             lookup kt (usage_nodes sb) <> None /\ reach (usage_nodes sb) q kt.
Proof.
  intros Ph Pk St -> H Hn.
  destruct (create_some _ _ _ _ _ _ _ H Hn) as (kt & ->).
  destruct (create_build _ _ _ _ _ _ _ Ph H) as (Ek & Rk).
  exists kt. split; [reflexivity|]. split; [rewrite <- Pk; exact Ek|].
  split; [exact (create_ok_stored _ _ _ _ _ _ _ H) | exact (Rk q eq_refl St)].
Qed.

Lemma body_depends m els a t :
  depends_in m els a t ->
  forall c km indent s b s',
    usage_graph_creation_phase s = true ->
    package_name s = c ->
    resolved_key c m = Some km ->
    lookup km (usage_nodes s) <> None ->
    for_write (fun child => generate_message_element child indent (Some km)) els s
    = (Ok b, s') ->
    names_a_symbol t ->
    linked c (usage_nodes s') a t.
Proof.
  induction 1 as [m els f Hin|m els f Hin|m els cd n num o gels a t Hin D IH
                 |m els m' els' Hin|m els m' els' a t Hin D IH];
    intros c km indent s b s' Ph Pk Ekm St H Hn;
    destruct (message_elements_at _ _ _ _ _ _ _ Hin H) as (sa & r & sb & Fa & Ha & Fb);
    assert (Pha : usage_graph_creation_phase sa = true)
      by (rewrite (frame_phase _ _ _ _ Fa); exact Ph);
    assert (Pka : package_name sa = c)
      by (rewrite (frame_package _ _ _ Fa); exact Pk);
    assert (Sta : lookup km (usage_nodes sa) <> None)
      by (apply (frame_stored _ _ _ _ _ Fa); exact St);
    apply (linked_keeps c (usage_nodes sb) _ _ _ (frame_keeps _ _ _ _ Fb));
    cbn [generate_message_element] in Ha;
    apply bind_ok in Ha as (body & s1 & H1 & Hr); apply ret_ok in Hr as [_ <-].
  - unfold generate_field_decl in H1.
    apply bind_ok in H1 as (r1 & s2 & H1 & Hr). apply ret_ok in Hr as [_ <-].
    destruct (resolve_links c _ _ _ _ _ _ km Pha Pka Sta eq_refl H1 Hn)
      as (kt & _ & Et & Stt & Rt).
    exists km, kt. split; [exact Ekm|]. split; [exact Et|].
    split; [|split; [exact Stt | exact Rt]].
    apply (frame_stored false [] sa s2); [|exact Sta].
    eapply preserves_run; [apply (preserves_resolve false []) | exact H1].
  - unfold generate_map_field_decl, generate_map_type in H1.
    apply bind_ok in H1 as (r0 & s2 & H1 & Hr). apply ret_ok in Hr as [_ <-].
    apply bind_ok in H1 as (r1 & s3 & H1 & Hr). apply ret_ok in Hr as [_ <-].
    destruct (resolve_links c _ _ _ _ _ _ km Pha Pka Sta eq_refl H1 Hn)
      as (kt & _ & Et & Stt & Rt).
    exists km, kt. split; [exact Ekm|]. split; [exact Et|].
    split; [|split; [exact Stt | exact Rt]].
    apply (frame_stored false [] sa s3); [|exact Sta].
    eapply preserves_run; [apply (preserves_resolve false []) | exact H1].
  - cbn [generate_group_decl] in H1.
    apply bind_ok in H1 as (gbody & s2 & H1 & Hr). apply ret_ok in Hr as [_ <-].
    exact (IH c km (indent + 1) sa gbody s2 Pha Pka Ekm Sta H1 Hn).
  - apply bind_ok in H1 as (rm & s2 & H1 & Hr). apply ret_ok in Hr as [_ <-].
    destruct (message_decl_run _ _ _ _ _ _ _ H1) as (km' & s3 & mbody & s4 & R0 & Hb & F4).
    destruct (resolve_links c _ _ _ _ _ _ km Pha Pka Sta eq_refl R0 Hn)
      as (kt & Ek & Et & Stt & Rt).
    injection Ek as <-.
    assert (F3 : frame false [] s3 s2).
    { eapply frame_trans; [|exact F4]. eapply preserves_run; [|exact Hb].
      apply (preserves_for_write _ (frame_refl false []) (frame_trans false [])).
      apply Forall_forall. intros y _. apply preserves_generate_message_element. }
    apply (linked_keeps c (usage_nodes s3) _ _ _ (frame_keeps _ _ _ _ F3)).
    exists km, km'. split; [exact Ekm|]. split; [exact Et|].
    split; [|split; [exact Stt | exact Rt]].
    apply (frame_stored false [] sa s3); [|exact Sta].
    eapply preserves_run; [apply (preserves_resolve false []) | exact R0].
  - apply bind_ok in H1 as (rm & s2 & H1 & Hr). apply ret_ok in Hr as [_ <-].
    destruct (message_decl_run _ _ _ _ _ _ _ H1) as (km' & s3 & mbody & s4 & R0 & Hb & F4).
    assert (F0 : frame false [] sa s3)
      by (eapply preserves_run; [apply (preserves_resolve false []) | exact R0]).
    assert (Ph3 : usage_graph_creation_phase s3 = true)
      by (rewrite (frame_phase _ _ _ _ F0); exact Pha).
    assert (Pk3 : package_name s3 = c)
      by (rewrite (frame_package _ _ _ F0); exact Pka).
    destruct (create_build _ _ _ _ _ _ _ Pha R0) as (Ek' & _).
    rewrite Pka in Ek'.
    apply (linked_keeps c (usage_nodes s4) _ _ _ (frame_keeps _ _ _ _ F4)).
    exact (IH c km' (indent + 1) s3 mbody s4 Ph3 Pk3 Ek'
              (create_ok_stored _ _ _ _ _ _ _ R0) Hb Hn).
Qed.

(** ** The dependencies of a method *)

Lemma assign_keeps un b s r s' :
  assign_should_render un b s = (Ok r, s') ->
  exists km, un = Some km /\
    usage_graph_creation_phase s' = usage_graph_creation_phase s /\
    package_name s' = package_name s /\
    keeps (usage_nodes s) (usage_nodes s').
Proof.
  destruct un as [km|]; [|discriminate].
  unfold assign_should_render, modify_nodes, modify. intros H. injection H as _ <-.
  exists km. split; [reflexivity|]. split; [reflexivity|]. split; [reflexivity|].
  cbn [usage_nodes with_usage_nodes]. split.
  - intros k. apply lookup_update_stored.
  - intros a b0. apply edge_update. intros n. destruct n; apply incl_refl.
Qed.

Lemma method_body_run (node : MethodDecl) indent s r s' :
  match methodElement node with
  | None => ret (";" ++ nl, false)
  | Some elements =>
      do '(res, should_render_this) <-
        for_write_flag (fun child => generate_method_element child (indent + 1)) elements;
      ret ("{" ++ (match elements with [] => "" | _ => nl end)
           ++ res ++ Py.indentation indent ++ "}" ++ nl,
           should_render_this)
  end s = (Ok r, s') -> s' = s.
Proof.
  destruct (methodElement node) as [elements|].
  - destruct (for_write_flag_method_elements elements (indent + 1) s) as (t & Et).
    unfold bind. rewrite Et. intros H. apply ret_ok in H as [_ <-]. reflexivity.
  - intros H. apply ret_ok in H as [_ <-]. reflexivity.
Qed.

Lemma method_links c node indent s r s' :
  usage_graph_creation_phase s = true ->
  package_name s = c ->
  generate_method_decl node indent s = (Ok r, s') ->
  forall t, t = mt_typeName (inputType node) \/ t = mt_typeName (outputType node) ->
    names_a_symbol t -> linked c (usage_nodes s') (methodName node) t.
Proof.
  intros Ph Pk H. unfold generate_method_decl in H.
  apply bind_ok in H as (un & s1 & H0 & H).
  apply bind_ok in H as (it & s2 & H1 & H).
  apply bind_ok in H as (ot & s3 & H2 & H).
  apply bind_ok in H as ([body flag] & s4 & H3 & H).
  apply bind_ok in H as (u & s5 & H4 & H).
  apply ret_ok in H as [_ <-].
  apply method_body_run in H3. subst s4.
  destruct (assign_keeps _ _ _ _ _ H4) as (km & -> & _ & _ & K5).
  unfold generate_input_type, generate_message_type in H1.
  apply bind_ok in H1 as (r1 & s2' & H1 & Hr). apply ret_ok in Hr as [_ <-].
  unfold generate_output_type, generate_message_type in H2.
  apply bind_ok in H2 as (r2 & s3' & H2 & Hr). apply ret_ok in Hr as [_ <-].
  assert (F0 : frame false [] s s1)
    by (eapply preserves_run; [apply (preserves_resolve false []) | exact H0]).
  assert (F1 : frame false [] s1 s2')
    by (eapply preserves_run; [apply (preserves_resolve false []) | exact H1]).
  assert (F2 : frame false [] s2' s3')
    by (eapply preserves_run; [apply (preserves_resolve false []) | exact H2]).
  assert (Ph1 : usage_graph_creation_phase s1 = true)
    by (rewrite (frame_phase _ _ _ _ F0); exact Ph).
  assert (Pk1 : package_name s1 = c) by (rewrite (frame_package _ _ _ F0); exact Pk).
  assert (Ph2 : usage_graph_creation_phase s2' = true)
    by (rewrite (frame_phase _ _ _ _ F1); exact Ph1).
  assert (Pk2 : package_name s2' = c) by (rewrite (frame_package _ _ _ F1); exact Pk1).
  destruct (create_build _ _ _ _ _ _ _ Ph H0) as (Ek & _). rewrite Pk in Ek.
  pose proof (create_ok_stored _ _ _ _ _ _ _ H0) as St1.
  pose proof (frame_stored _ _ _ _ km F1 St1) as St2.
  pose proof (frame_stored _ _ _ _ km F2 St2) as St3.
  intros t [->| ->] Hn; apply (linked_keeps c (usage_nodes s3') _ _ _ K5).
  - destruct (resolve_links c _ _ _ _ _ _ km Ph1 Pk1 St1 eq_refl H1 Hn)
      as (kt & _ & Et & Stt & Rt).
    apply (linked_keeps c (usage_nodes s2') _ _ _ (frame_keeps _ _ _ _ F2)).
    exists km, kt. auto.
  - destruct (resolve_links c _ _ _ _ _ _ km Ph2 Pk2 St2 eq_refl H2 Hn)
      as (kt & _ & Et & Stt & Rt).
    exists km, kt. auto.
Qed.

Lemma method_assigns node indent s text flag s' :
  usage_graph_creation_phase s = true ->
  generate_method_decl node indent s = (Ok (text, flag), s') ->
  exists m, resolved_key (package_name s) (methodName node) = Some m /\
            lookup m (usage_nodes s') <> None /\
            alive (usage_nodes s') m = flag.
Proof.
  intros Ph H. unfold generate_method_decl in H.
  apply bind_ok in H as (un & s1 & H0 & H).
  apply bind_ok in H as (it & s2 & H1 & H).
  apply bind_ok in H as (ot & s3 & H2 & H).
  apply bind_ok in H as ([body fl] & s4 & H3 & H).
  apply bind_ok in H as (u & s5 & H4 & H).
  apply ret_ok in H as [E <-]. injection E as _ <-.
  apply method_body_run in H3. subst s4.
  destruct un as [km|]; [|discriminate].
  exists km. split; [exact (proj1 (create_build _ _ _ _ _ _ _ Ph H0))|].
  assert (St3 : lookup km (usage_nodes s3) <> None).
  { apply (frame_stored false [] s2 s3);
      [eapply preserves_run; [apply preserves_generate_message_type | exact H2]|].
    apply (frame_stored false [] s1 s2);
      [eapply preserves_run; [apply preserves_generate_message_type | exact H1]|].
    exact (create_ok_stored _ _ _ _ _ _ _ H0). }
  unfold assign_should_render, modify_nodes, modify in H4. injection H4 as _ <-.
  cbn [usage_nodes with_usage_nodes]. split.
  - apply lookup_update_stored. exact St3.
  - apply alive_update_should_render. exact St3.
Qed.

Lemma preserves_service_element N sd indent y :
  In y (serviceElement sd) -> incl (service_method_symbols sd) N ->
  preserves (frame false N)
            (write_if_rendered (generate_service_element y indent)).
Proof.
  intros Hy HN. unfold write_if_rendered.
  apply (preserves_bind _ (frame_trans false N)).
  - apply preserves_generate_service_element. intros m ->.
    apply HN. unfold service_method_symbols. apply in_flat_map.
    exists (ServiceMethodDecl m). split; [exact Hy | left; reflexivity].
  - intros [res fl]. apply (preserves_ret _ (frame_refl false N)).
Qed.

Lemma service_links c sd indent s r s' :
  usage_graph_creation_phase s = true ->
  package_name s = c ->
  generate_service_decl sd indent s = (Ok r, s') ->
  registered c (usage_nodes s') (ServiceDeclContext sd).
Proof.
  intros Ph Pk H md Hin. unfold generate_service_decl in H.
  apply bind_ok in H as ([body fl] & s1 & H1 & H). apply ret_ok in H as [_ <-].
  set (N := service_method_symbols sd).
  destruct (for_write_flag_at (frame false N) (frame_refl false N) (frame_trans false N)
              (fun child => write_if_rendered (generate_service_element child (indent + 1)))
              (serviceElement sd) (ServiceMethodDecl md)
              (fun y Hy => preserves_service_element N sd (indent + 1) y Hy (incl_refl _))
              Hin s (body, fl) s1 H1) as (sa & a & sb & Fa & Ha & Fb).
  unfold write_if_rendered in Ha.
  apply bind_ok in Ha as ([res0 fl0] & s2 & Ha & Hr). apply ret_ok in Hr as [_ <-].
  cbn [generate_service_element] in Ha.
  apply bind_ok in Ha as ([res1 fl1] & s3 & Ha & Hr). apply ret_ok in Hr as [_ <-].
  assert (Pha : usage_graph_creation_phase sa = true)
    by (rewrite (frame_phase _ _ _ _ Fa); exact Ph).
  assert (Pka : package_name sa = c) by (rewrite (frame_package _ _ _ Fa); exact Pk).
  split.
  - apply (declared_keeps c (usage_nodes s3) _ _ (frame_keeps _ _ _ _ Fb)).
    destruct (method_assigns md (indent + 1) sa res1 fl1 s3 Pha Ha) as (km & Ek & St & _).
    exists km. rewrite <- Pka. auto.
  - intros t Ht Hn.
    apply (linked_keeps c (usage_nodes s3) _ _ _ (frame_keeps _ _ _ _ Fb)).
    apply (method_links c md (indent + 1) sa (res1, fl1) s3); auto.
Qed.

(** ** The elements of a file, the files of a run *)

Lemma registered_keeps c g g' e : keeps g g' -> registered c g e -> registered c g' e.
Proof.
  intros K. destruct e as [| | |[m els]| | |sd|]; cbn [registered]; auto.
  - intros [Hd H]. split; [apply (declared_keeps c g g' m K Hd)|].
    intros a t D Hn. apply (linked_keeps c g g' a t K). auto.
  - intros H md Hin. destruct (H md Hin) as [Hd Hl].
    split; [apply (declared_keeps c g g' _ K Hd)|].
    intros t Ht Hn. apply (linked_keeps c g g' _ t K). auto.
Qed.

Lemma file_element_registered e s r s' :
  usage_graph_creation_phase s = true ->
  generate_file_element e s = (Ok r, s') ->
  registered (package_name s) (usage_nodes s') e.
Proof.
  intros Ph H. destruct e as [| | |[m els]| | |sd|]; cbn [registered]; auto.
  - cbn [generate_file_element] in H.
    apply bind_ok in H as ([res fl] & s1 & H & Hr). apply ret_ok in Hr as [_ <-].
    destruct (message_decl_run _ _ _ _ _ _ _ H) as (km & s2 & body & s3 & R0 & Hb & F3).
    assert (F0 : frame false [] s s2)
      by (eapply preserves_run; [apply (preserves_resolve false []) | exact R0]).
    assert (F2 : frame false [] s2 s3).
    { eapply preserves_run; [|exact Hb].
      apply (preserves_for_write _ (frame_refl false []) (frame_trans false [])).
      apply Forall_forall. intros y _. apply preserves_generate_message_element. }
    pose proof (proj1 (create_build _ _ _ _ _ _ _ Ph R0)) as Ek.
    pose proof (create_ok_stored _ _ _ _ _ _ _ R0) as St.
    split.
    + exists km. split; [exact Ek|].
      apply (frame_stored _ _ _ _ _ F3). apply (frame_stored _ _ _ _ _ F2). exact St.
    + intros a t D Hn.
      apply (linked_keeps _ (usage_nodes s3) _ _ _ (frame_keeps _ _ _ _ F3)).
      apply (body_depends m els a t D (package_name s) km 1 s2 body s3); auto.
      * rewrite (frame_phase _ _ _ _ F0). exact Ph.
      * apply (frame_package _ _ _ F0).
  - cbn [generate_file_element] in H.
    apply bind_ok in H as ([res fl] & s1 & H & Hr). apply ret_ok in Hr as [_ <-].
    exact (service_links (package_name s) sd 0 s (res, fl) s1 Ph eq_refl H).
Qed.

Lemma file_element_frame e :
  preserves (frame true (match e with
                         | ServiceDeclContext sd => service_method_symbols sd
                         | _ => []
                         end)) (generate_file_element e).
Proof.
  apply preserves_generate_file_element; [auto|].
  intros sd ->. apply incl_refl.
Qed.

Lemma file_element_package e s r s' :
  generate_file_element e s = (Ok r, s') ->
  package_name s' = last_package (package_name s) [e].
Proof.
  intros H. destruct (is_package_decl e) eqn:Ep.
  - destruct e; try discriminate Ep. cbn [generate_file_element] in H.
    unfold generate_package_decl, bind, modify, ret in H. injection H as _ <-. reflexivity.
  - assert (F : frame false (match e with
                             | ServiceDeclContext sd => service_method_symbols sd
                             | _ => []
                             end) s s').
    { eapply preserves_run; [|exact H]. apply preserves_generate_file_element.
      - intros E. rewrite Ep in E. discriminate E.
      - intros sd ->. apply incl_refl. }
    rewrite (frame_package _ _ _ F). destruct e; try discriminate Ep; reflexivity.
Qed.

Lemma last_package_app c pre post :
  last_package c (pre ++ post) = last_package (last_package c pre) post.
Proof.
  revert c. induction pre as [|x pre IH]; intros c; [reflexivity|].
  destruct x; cbn [app last_package]; apply IH.
Qed.

Lemma file_elements_run els : forall s r s',
  for_write_flag generate_file_element els s = (Ok r, s') ->
  package_name s' = last_package (package_name s) els /\
  usage_graph_creation_phase s' = usage_graph_creation_phase s /\
  keeps (usage_nodes s) (usage_nodes s').
Proof.
  induction els as [|e rest IH]; intros s r s' H.
  - apply ret_ok in H as [_ <-]. split; [reflexivity|]. split; [reflexivity|].
    apply keeps_refl.
  - cbn [for_write_flag] in H.
    apply bind_ok in H as ([a fa] & s1 & H1 & H).
    apply bind_ok in H as ([b fb] & s2 & H2 & H).
    apply ret_ok in H as [_ <-].
    destruct (IH _ _ _ H2) as (P2 & Ph2 & K2).
    pose proof (file_element_package _ _ _ _ H1) as P1.
    pose proof (preserves_run _ _ _ _ _ (file_element_frame e) H1) as F1.
    split; [|split].
    + rewrite P2, P1. symmetry. apply (last_package_app (package_name s) [e] rest).
    + rewrite Ph2. apply (frame_phase _ _ _ _ F1).
    + eapply keeps_trans; [apply (frame_keeps _ _ _ _ F1) | exact K2].
Qed.

Lemma file_elements_registered pre e post : forall s r s',
  usage_graph_creation_phase s = true ->
  for_write_flag generate_file_element (pre ++ e :: post) s = (Ok r, s') ->
  registered (last_package (package_name s) pre) (usage_nodes s') e.
Proof.
  induction pre as [|x pre IH]; intros s r s' Ph H;
    cbn [app for_write_flag] in H;
    apply bind_ok in H as ([a fa] & s1 & H1 & H);
    apply bind_ok in H as ([b fb] & s2 & H2 & H);
    apply ret_ok in H as [_ <-].
  - cbn [last_package].
    apply (registered_keeps _ (usage_nodes s1) _ _
             (proj2 (proj2 (file_elements_run _ _ _ _ H2)))).
    exact (file_element_registered _ _ _ _ Ph H1).
  - pose proof (file_element_package _ _ _ _ H1) as P1.
    pose proof (preserves_run _ _ _ _ _ (file_element_frame x) H1) as F1.
    assert (Ph1 : usage_graph_creation_phase s1 = true)
      by (rewrite (frame_phase _ _ _ _ F1); exact Ph).
    pose proof (IH s1 (b, fb) s2 Ph1 H2) as Rg. rewrite P1 in Rg.
    rewrite <- (last_package_app (package_name s) [x] pre) in Rg. exact Rg.
Qed.

Lemma create_usage_graph_run tree s g s' :
  create_usage_graph tree false s = (Ok g, s') ->
  exists r s1,
    for_write_flag generate_file_element (fileElement tree) (with_phase true s)
    = (Ok r, s1) /\
    s' = with_phase false s1 /\ g = usage_nodes s1.
Proof.
  unfold create_usage_graph, generate_file. intros H.
  apply bind_ok in H as (u0 & s0 & H0 & H).
  unfold modify in H0. injection H0 as _ <-.
  apply bind_ok in H as (u1 & s1 & H1 & H). apply ret_ok in H1 as [_ <-].
  apply bind_ok in H as (r & s2 & H2 & H).
  apply bind_ok in H2 as ([body0 fl0] & s3 & H2 & Hr). apply ret_ok in Hr as [_ <-].
  apply bind_ok in H as (u2 & s4 & H3 & H).
  unfold modify in H3. injection H3 as _ <-.
  apply bind_ok in H as (self & s5 & H4 & H).
  unfold get in H4. injection H4 as <- <-.
  apply ret_ok in H as [<- <-].
  exists (body0, fl0), s3. auto.
Qed.

Lemma create_usage_graph_keeps tree s :
  keeps (usage_nodes s) (usage_nodes (snd (create_usage_graph tree false s))).
Proof.
  destruct (graph_step_create_usage_graph (method_symbols tree) tree s (incl_refl _))
    as [G _].
  split.
  - intros k. apply (graph_le_lookup _ _ _ k G).
  - intros a b. apply (graph_le_edge _ _ _ a b G).
Qed.

Lemma build_graphs_keeps files : forall s,
  keeps (usage_nodes s) (usage_nodes (snd (build_graphs files s))).
Proof.
  induction files as [|f rest IH]; intros s; cbn [build_graphs].
  - apply keeps_refl.
  - pose proof (create_usage_graph_keeps (tree f) s) as K.
    unfold bind. destruct (create_usage_graph (tree f) false s) as [[g|e] s1];
      cbn [snd] in *; [|exact K].
    eapply keeps_trans; [exact K | apply IH].
Qed.


(** The graph build of a run registers the dependencies of every element of
    every file, each under the package in force where the element stands. *)
Lemma build_registered before f after : forall s u s',
  build_graphs (before ++ f :: after) s = (Ok u, s') ->
  forall pre e post,
    fileElement (tree f) = (pre ++ e :: post)%list ->
    registered (last_package (package_after (package_name s) before) pre)
               (usage_nodes s') e.
Proof.
  induction before as [|f0 before IH]; intros s u s' H pre e post Hf;
    cbn [app build_graphs] in H; apply bind_ok in H as (g & s1 & H1 & H).
  - destruct (create_usage_graph_run _ _ _ _ H1) as (r & s2 & H2 & -> & _).
    rewrite Hf in H2.
    pose proof (file_elements_registered pre e post (with_phase true s) r s2 eq_refl H2)
      as Rg.
    pose proof (build_graphs_keeps after (with_phase false s2)) as K.
    rewrite H in K. cbn [snd usage_nodes with_phase] in K.
    exact (registered_keeps _ _ _ _ K Rg).
  - destruct (create_usage_graph_run _ _ _ _ H1) as (r & s2 & H2 & -> & _).
    destruct (file_elements_run _ _ _ _ H2) as (P2 & _ & _).
    pose proof (IH (with_phase false s2) u s' H pre e post Hf) as Rg.
    unfold package_after at 1. cbn [fold_left].
    cbn [package_name with_phase] in *. rewrite <- P2. exact Rg.
Qed.

(** ** The propagation, whatever the stack *)

Lemma update_deeper d d' g g' :
  d <= d' ->
  update_should_render_state d g = Some g' ->
  update_should_render_state d' g = Some g'.
Proof.
  intros L. unfold update_should_render_state. generalize (map fst g) as nodes.
  intros nodes. revert g. induction nodes as [|u rest IH]; intros g; [auto|].
  cbn [update_should_render_state_loop]. unfold update_should_render_state_node.
  destruct (is_rpc g u && alive g u).
  - destruct (update_should_render_state_each d g u) as [g1|] eqn:E1; [|discriminate].
    rewrite (each_deeper_le d d' g u g1 L E1).
    destruct (is_google_protobuf g1 u).
    + destruct (update_should_render_state_each d (mark u g1) u) as [g2|] eqn:E2;
        [|discriminate].
      rewrite (each_deeper_le d d' _ u g2 L E2). apply IH.
    + apply IH.
  - destruct (is_google_protobuf g u).
    + destruct (update_should_render_state_each d (mark u g) u) as [g2|] eqn:E2;
        [|discriminate].
      rewrite (each_deeper_le d d' _ u g2 L E2). apply IH.
    + apply IH.
Qed.

(** What the propagation has done when it returns, however deep the stack
    was. *)
Lemma update_returns_inv g depth g' :
  well_formed g ->
  update_should_render_state depth g = Some g' ->
  loop_inv g (map fst g) g'.
Proof.
  intros W H.
  destruct (update_should_render_state_correct g (Nat.max depth (S (dead_count g))) W)
    as (g'' & E & Inv); [lia|].
  rewrite (update_deeper depth _ g g' (Nat.le_max_l _ _) H) in E.
  injection E as <-. exact Inv.
Qed.

(** Enough stack is a frame more than the symbols that are not rendered. *)
Lemma update_returns g :
  well_formed g -> exists g', update_should_render_state (S (dead_count g)) g = Some g'.
Proof.
  intros W. destruct (update_should_render_state_correct g (S (dead_count g)) W)
    as (g' & E & _); [lia|]. exists g'. exact E.
Qed.

(** ** The claims about whole runs *)

(** C1, as the code has it.  After the graph build of a run and the
    propagation: the build has linked every message to the types it depends
    on (the type of a plain field or of a field in a group, the value type of
    a map field, a nested message, at any depth; not the members of a oneof)
    and every method to its request and its response type, each name resolved
    from the package in force where the declaration stands, whichever file it
    is in; the propagation keeps the edges; and when every symbol that is
    rendered before the propagation is a rendered RPC or a symbol of
    [google.protobuf], every symbol reachable from one of these is rendered
    afterwards and every symbol reachable from none of them is not. *)
Theorem propagation_renders_what_roots_reach
    (option_name : option (list string)) (files : list SourceFile)
    (s : ProtoModifier) (depth : nat) (g' : UsageNodes) :
  build_graphs files (init option_name) = (Ok tt, s) ->
  update_should_render_state depth (usage_nodes s) = Some g' ->
  let g := usage_nodes s in
  (forall before f after pre e post,
     files = (before ++ f :: after)%list ->
     fileElement (tree f) = (pre ++ e :: post)%list ->
     registered (last_package (package_after None before) pre) g e) /\
  (forall a b, edge g' a b <-> edge g a b) /\
  (seeded g ->
   (forall M X, root g M -> reach g M X -> alive g' X = true) /\
   (forall Y, (forall M, root g M -> ~ reach g M Y) -> alive g' Y = false)).
Proof.
  intros Hb Hu g.
  assert (W : well_formed g).
  { pose proof (main_builds_well_formed option_name files) as [W _].
    rewrite Hb in W. exact W. }
  pose proof (update_returns_inv g depth g' W Hu) as Inv.
  split; [|split].
  - intros before f after pre e post -> Hf.
    exact (build_registered before f after (init option_name) tt s Hb pre e post Hf).
  - intros a b. destruct Inv as (G & _). apply (grows_edge g g' a b G).
  - intros S. split.
    + intros M X RM R. apply (seeded_closed g g' S Inv M X); [|exact R].
      destruct Inv as (_ & _ & I3 & _). apply I3; [|exact RM].
      apply lookup_in_keys. apply root_stored. exact RM.
    + intros Y HY. destruct (alive g' Y) eqn:A; [|reflexivity]. exfalso.
      destruct Inv as (_ & _ & _ & I4).
      destruct (I4 Y A) as [A0|(r & Hr & Rr)].
      * apply (HY Y (S Y A0)). apply reach_here.
      * apply (HY r Hr Rr).
Qed.

Lemma propagation_renders_what_roots_reach_witness :
  let files := [mkSourceFile "api" "a.proto" Scenario.tree] in
  exists s g',
    build_graphs files (init (Some ["tracked"])) = (Ok tt, s) /\
    update_should_render_state propagation_stack (usage_nodes s) = Some g' /\
    seeded (usage_nodes s) /\
    root (usage_nodes s) ("p", "Get") /\
    reach (usage_nodes s) ("p", "Get") ("p", "B") /\
    alive g' ("p", "B") = true.
Proof.
  cbn zeta.
  destruct (build_graphs [mkSourceFile "api" "a.proto" Scenario.tree]
              (init (Some ["tracked"]))) as [[[]|e] s] eqn:Hb;
    [|vm_compute in Hb; discriminate].
  destruct (update_should_render_state propagation_stack (usage_nodes s)) as [g'|] eqn:Hu;
    [|injection Hb as <-; vm_compute in Hu; discriminate].
  exists s, g'. split; [reflexivity|]. split; [exact Hu|].
  destruct (propagation_renders_what_roots_reach _ _ _ _ _ Hb Hu) as (Rg & _ & Cl).
  assert (S : seeded (usage_nodes s))
    by (injection Hb as <-; apply seededb_sound; vm_compute; reflexivity).
  assert (Rt : root (usage_nodes s) ("p", "Get"))
    by (injection Hb as <-; left; split; vm_compute; reflexivity).
  assert (R1 : reach (usage_nodes s) ("p", "Get") ("p", "A")).
  { pose proof (Rg [] (mkSourceFile "api" "a.proto" Scenario.tree) []
                  [ PackageDeclContext "p";
                    FileMessageDeclContext (mkMessageDecl "A" [Scenario.field "B" "b" "1"]);
                    FileMessageDeclContext
                      (mkMessageDecl "B" [Scenario.field "int32" "x" "1"]);
                    FileMessageDeclContext (mkMessageDecl "C" []) ]
                  (ServiceDeclContext (mkServiceDecl "S" [ServiceMethodDecl Scenario.Get]))
                  [] eq_refl eq_refl Scenario.Get (or_introl eq_refl)) as [_ L].
    specialize (L "A" (or_introl eq_refl)).
    destruct L as (ka & kt & Ea & Et & _ & _ & R).
    - apply str_in_not_In. reflexivity.
    - vm_compute in Ea, Et. injection Ea as <-. injection Et as <-. exact R. }
  assert (R2 : reach (usage_nodes s) ("p", "A") ("p", "B")).
  { pose proof (Rg [] (mkSourceFile "api" "a.proto" Scenario.tree) []
                  [PackageDeclContext "p"]
                  (FileMessageDeclContext (mkMessageDecl "A" [Scenario.field "B" "b" "1"]))
                  [ FileMessageDeclContext
                      (mkMessageDecl "B" [Scenario.field "int32" "x" "1"]);
                    FileMessageDeclContext (mkMessageDecl "C" []);
                    ServiceDeclContext (mkServiceDecl "S" [ServiceMethodDecl Scenario.Get]) ]
                  eq_refl eq_refl) as [_ L].
    specialize (L "A" "B"
                  (dep_field "A" [Scenario.field "B" "b" "1"]
                             (mkFieldDecl None "B" "b" "1" None) (or_introl eq_refl))).
    destruct L as (ka & kt & Ea & Et & _ & _ & R).
    - apply str_in_not_In. reflexivity.
    - vm_compute in Ea, Et. injection Ea as <-. injection Et as <-. exact R. }
  pose proof (reach_trans _ _ _ _ R1 R2) as R.
  split; [exact S|]. split; [exact Rt|]. split; [exact R|].
  exact (proj1 (Cl S) ("p", "Get") ("p", "B") Rt R).
Defined.

(** C1 as stated fails three times.  A type of the package [p] that no RPC
    reaches is rendered because an extension of a [google.protobuf] message
    refers to it.  A type that a tracked RPC reaches is not rendered because
    the chain passes through a symbol that was seeded as a method and then
    declared as an enum.  And the type of a member of a oneof of the request
    of a tracked RPC is not rendered: no edge leads to it. *)
Lemma propagation_counterexample :
  (let g := Scenario.graph_of Scenario.extension in
   (forall k, is_rpc g k = false) /\
   package_of g ("p", "MyOpt") = Some "p" /\
   exists g', update_should_render_state recursion_limit g = Some g' /\
              alive g' ("p", "MyOpt") = true)
  /\
  (let g := Scenario.graph_of Scenario.method_and_enum in
   is_rpc g ("p", "R") = true /\ alive g ("p", "R") = true /\
   reach g ("p", "R") ("p", "B") /\
   exists g', update_should_render_state recursion_limit g = Some g' /\
              alive g' ("p", "B") = false)
  /\
  (let g := Scenario.graph_of Defect.oneof_member in
   is_rpc g ("p", "Get") = true /\ alive g ("p", "Get") = true /\
   edge g ("p", "Get") ("p", "A") /\ children_of g ("p", "A") = [] /\
   package_of g ("p", "B") = Some "p" /\
   Defect.propagated ["tracked"] Defect.oneof_member
   = update_should_render_state propagation_stack g /\
   exists g', update_should_render_state propagation_stack g = Some g' /\
              alive g' ("p", "A") = true /\ alive g' ("p", "B") = false).
Proof.
  split; [|split].
  - split; [|split].
    + intros k. destruct (is_rpc (Scenario.graph_of Scenario.extension) k) eqn:E;
        [|reflexivity].
      apply is_rpc_existsb in E. vm_compute in E. discriminate E.
    + vm_compute; reflexivity.
    + eexists. split; vm_compute; reflexivity.
  - split; [vm_compute; reflexivity|]. split; [vm_compute; reflexivity|]. split.
    + apply reach_next with (b := ("p", "A")); [unfold edge; vm_compute; auto|].
      apply reach_next with (b := ("p", "B")); [unfold edge; vm_compute; auto|].
      apply reach_here.
    + eexists. split; vm_compute; reflexivity.
  - split; [vm_compute; reflexivity|]. split; [vm_compute; reflexivity|].
    split; [unfold edge; vm_compute; auto|]. split; [vm_compute; reflexivity|].
    split; [vm_compute; reflexivity|]. split; [vm_compute; reflexivity|].
    eexists. split; [vm_compute; reflexivity|]. split; vm_compute; reflexivity.
Qed.









(** ** The flags that the graph build leaves alone *)






















(** ** Where the code parts from its specification *)

(** C4 fails on the code.  The flag of a method is raised when one of its
    options qualifies, and an option qualifies by its name less its first and
    its last character, whether these are brackets or not.  The method [Get]
    of [plain_option] has the option [deprecated]: with the filter
    [deprecated] it is not retained and the run writes nothing; with the
    filter [eprecate] it is retained and written. *)
Theorem unbracketed_option_name_is_sliced :
  (forall node indent s,
     match generate_method_decl node indent s with
     | (Ok (_, flag), _) =>
         flag = existsb (fun o => no_option_names (include_rpc_with_option_names s)
                                  || in_option_names (Py.slice_1_m1 (optionName o))
                                                     (include_rpc_with_option_names s))
                        (method_options node)
     | (Raise _, _) => True
     end) /\
  Py.slice_1_m1 "deprecated" = "eprecate" /\
  (exists self, Defect.run ["deprecated"] Defect.plain_option = Done self [] /\
                alive (usage_nodes self) ("p", "Get") = false) /\
  (exists self output,
     Defect.run ["eprecate"] Defect.plain_option = Done self [(".", "a.proto", output)] /\
     alive (usage_nodes self) ("p", "Get") = true /\
     Py.str_contains "rpc Get(A) returns (A)" output = true /\
     Py.str_contains "option deprecated = true;" output = true).
Proof.
  split; [|split; [|split]].
  - intros node indent s.
    destruct (generate_method_decl node indent s) as [[[text flag]|e] s'] eqn:H; [|exact I].
    exact (proj1 (generate_method_decl_ok _ _ _ _ _ _ H)).
  - reflexivity.
  - eexists. split; vm_compute; reflexivity.
  - eexists. eexists. split; [vm_compute; reflexivity|].
    split; [vm_compute; reflexivity|]. split; vm_compute; reflexivity.
Qed.

(** C2 fails on the code.  The symbol of a method is keyed by package and
    name, without the service, and [generate_method_decl] ends with a plain
    assignment of the flag.  In [shared_method_name] the tracked [Get] of the
    service [S] raises the flag of [(p, Get)] and the untracked [Get] of [T]
    lowers it again; the propagation then finds no rendered RPC, and the run
    writes the tracked method without the message it takes. *)
Theorem shared_method_symbol_loses_its_flag :
  (let s0 := Scenario.building_p in
   let s1 := snd (generate_service_decl
                    (mkServiceDecl "S"
                       [Scenario.rpc "Get" "A" "A"
                          (Some [MethodOptionDecl Scenario.tracked])]) 0 s0) in
   let s2 := snd (generate_service_decl
                    (mkServiceDecl "T" [Scenario.rpc "Get" "A" "A" None]) 0 s1) in
   alive (usage_nodes s1) ("p", "Get") = true /\
   alive (usage_nodes s2) ("p", "Get") = false) /\
  (let g := Scenario.graph_of Defect.shared_method_name in
   kind_of g ("p", "Get") = Some Rpc /\ alive g ("p", "Get") = false /\
   edge g ("p", "Get") ("p", "A") /\
   Defect.propagated ["tracked"] Defect.shared_method_name = Some g) /\
  (exists self output,
     Defect.run ["tracked"] Defect.shared_method_name
     = Done self [(".", "a.proto", output)] /\
     alive (usage_nodes self) ("p", "A") = false /\
     Py.str_contains "rpc Get(A) returns (A)" output = true /\
     Py.str_contains "message A" output = false).
Proof.
  split; [|split].
  - split; vm_compute; reflexivity.
  - split; [vm_compute; reflexivity|]. split; [vm_compute; reflexivity|].
    split; [unfold edge; vm_compute; auto | vm_compute; reflexivity].
  - eexists. eexists. split; [vm_compute; reflexivity|].
    split; [vm_compute; reflexivity|]. split; vm_compute; reflexivity.
Qed.

(** C8 fails on the code in its second half.  The propagation returns on
    every graph a run can build, given a frame more than there are symbols
    that are not rendered.  But the members of a cycle can end with different
    flags: in [message_cycle] the messages [A] and [B] refer to each other,
    the tracked method [A] shares the symbol of the message [A] and raises
    its flag, and the extension of [A] makes the symbol an [Extend]; the
    propagation starts from rendered RPCs only and does not enter a symbol
    that is rendered, so [A] is rendered and [B] is not, and the run writes
    the message [A] with its field of type [B] and no message [B]. *)
Theorem cycle_of_messages_is_split :
  (forall option_name files,
     let g := usage_nodes (snd (build_graphs files (init option_name))) in
     exists g', update_should_render_state (S (dead_count g)) g = Some g' /\
                forall depth, dead_count g < depth ->
                              update_should_render_state depth g = Some g') /\
  (let g := Scenario.graph_of Defect.message_cycle in
   edge g ("p", "A") ("p", "B") /\ edge g ("p", "B") ("p", "A") /\
   kind_of g ("p", "A") = Some Extend /\ kind_of g ("p", "B") = Some Message /\
   exists g', Defect.propagated ["tracked"] Defect.message_cycle = Some g' /\
              alive g' ("p", "A") = true /\ alive g' ("p", "B") = false) /\
  (exists self output,
     Defect.run ["tracked"] Defect.message_cycle = Done self [(".", "a.proto", output)] /\
     Py.str_contains "message A" output = true /\
     Py.str_contains "B b = 1;" output = true /\
     Py.str_contains "message B" output = false).
Proof.
  split; [|split].
  - intros o files g.
    destruct (update_returns g (proj1 (main_builds_well_formed o files))) as (g' & E).
    exists g'. split; [exact E|]. intros depth D.
    apply (update_deeper (S (dead_count g)) depth g g'); [lia | exact E].
  - split; [unfold edge; vm_compute; auto|]. split; [unfold edge; vm_compute; auto|].
    split; [vm_compute; reflexivity|]. split; [vm_compute; reflexivity|].
    eexists. split; [vm_compute; reflexivity|]. split; vm_compute; reflexivity.
  - eexists. eexists. split; [vm_compute; reflexivity|].
    split; [vm_compute; reflexivity|]. split; vm_compute; reflexivity.
Qed.
